(** * A shallow embedding of the LevelDB storage core

    Coding primitives (util/coding), the WAL framer (db/log_writer,
    db/log_reader), internal keys and the memtable (db/dbformat,
    db/memtable, db/skiplist.h), the block builder
    (table/block_builder), the table footer (table/format) and the LRU
    cache shard (util/cache). Byte strings are [list byte]; unsigned
    machine integers are [Z] with their wrap-around written out. *)

From Stdlib Require Import ZArith List Lia Bool String.
From Stdlib Require Import Strings.Byte Sorting.Sorted.
From coqutil Require Import Z.bitblast.
From Stdlib Require Import btauto.Btauto.
Import ListNotations.
Open Scope Z_scope.

Abbreviation bytes := (list byte).

(* ------------------------------------------------------------------ *)
(** ** util/coding: bytes, fixed-width and varint encodings *)
Module Coding.

(** [static_cast<unsigned char>] of a byte. *)
Definition byte_to_Z (b : byte) : Z := Z.of_N (Byte.to_N b).

(** Storing an integer into a [char]: the low eight bits. *)
Definition Z_to_byte (z : Z) : byte :=
  match Byte.of_N (Z.to_N (Z.land z 255)) with
  | Some b => b
  | None => Byte.x00
  end.

Definition ones32 : Z := Z.ones 32.
Definition ones64 : Z := Z.ones 64.

(** [uint32_t] / [uint64_t] arithmetic. *)
Definition u32 (z : Z) : Z := z mod 2 ^ 32.
Definition u64 (z : Z) : Z := z mod 2 ^ 64.

(** Reading byte [i] of a buffer (callers guarantee it exists). *)
Definition byte_at (p : bytes) (i : nat) : Z := byte_to_Z (nth i p Byte.x00).

Definition EncodeFixed32 (value : Z) : bytes :=
  [Z_to_byte (Z.land value 255);
   Z_to_byte (Z.land (Z.shiftr value 8) 255);
   Z_to_byte (Z.land (Z.shiftr value 16) 255);
   Z_to_byte (Z.land (Z.shiftr value 24) 255)].

Definition EncodeFixed64 (value : Z) : bytes :=
  [Z_to_byte (Z.land value 255);
   Z_to_byte (Z.land (Z.shiftr value 8) 255);
   Z_to_byte (Z.land (Z.shiftr value 16) 255);
   Z_to_byte (Z.land (Z.shiftr value 24) 255);
   Z_to_byte (Z.land (Z.shiftr value 32) 255);
   Z_to_byte (Z.land (Z.shiftr value 40) 255);
   Z_to_byte (Z.land (Z.shiftr value 48) 255);
   Z_to_byte (Z.land (Z.shiftr value 56) 255)].

Definition DecodeFixed32 (ptr : bytes) : Z :=
  Z.lor (Z.lor (Z.lor (byte_at ptr 0)
                      (Z.shiftl (byte_at ptr 1) 8))
               (Z.shiftl (byte_at ptr 2) 16))
        (Z.shiftl (byte_at ptr 3) 24).

Definition DecodeFixed64 (ptr : bytes) : Z :=
  let lo := DecodeFixed32 ptr in
  let hi := DecodeFixed32 (skipn 4 ptr) in
  Z.lor (Z.shiftl hi 32) lo.

Definition PutFixed32 (dst : bytes) (value : Z) : bytes := dst ++ EncodeFixed32 value.
Definition PutFixed64 (dst : bytes) (value : Z) : bytes := dst ++ EncodeFixed64 value.

Definition B : Z := 128.

Definition EncodeVarint32 (v : Z) : bytes :=
  if v <? 2 ^ 7 then [Z_to_byte v]
  else if v <? 2 ^ 14 then
    [Z_to_byte (Z.lor v B); Z_to_byte (Z.shiftr v 7)]
  else if v <? 2 ^ 21 then
    [Z_to_byte (Z.lor v B); Z_to_byte (Z.lor (Z.shiftr v 7) B);
     Z_to_byte (Z.shiftr v 14)]
  else if v <? 2 ^ 28 then
    [Z_to_byte (Z.lor v B); Z_to_byte (Z.lor (Z.shiftr v 7) B);
     Z_to_byte (Z.lor (Z.shiftr v 14) B); Z_to_byte (Z.shiftr v 21)]
  else
    [Z_to_byte (Z.lor v B); Z_to_byte (Z.lor (Z.shiftr v 7) B);
     Z_to_byte (Z.lor (Z.shiftr v 14) B); Z_to_byte (Z.lor (Z.shiftr v 21) B);
     Z_to_byte (Z.shiftr v 28)].

(** [PutVarint32] takes a [uint32_t]: a [size_t] argument is truncated. *)
Definition PutVarint32 (dst : bytes) (v : Z) : bytes := dst ++ EncodeVarint32 (u32 v).

(** [while (v >= B) { *(ptr++) = (v & (B-1)) | B; v >>= 7; }]; a [uint64_t]
    needs at most ten bytes, so the loop runs at most nine times. *)
Fixpoint EncodeVarint64_loop (fuel : nat) (v : Z) : bytes :=
  match fuel with
  | O => [Z_to_byte v]
  | S f =>
      if v >=? B then Z_to_byte (Z.lor (Z.land v (B - 1)) B) :: EncodeVarint64_loop f (Z.shiftr v 7)
      else [Z_to_byte v]
  end.

Definition EncodeVarint64 (v : Z) : bytes := EncodeVarint64_loop 10 v.

Definition PutVarint64 (dst : bytes) (v : Z) : bytes := dst ++ EncodeVarint64 v.

(** The decoding loop of [GetVarint32PtrFallback] and [GetVarint64Ptr]:
    [for (shift = 0; shift <= max && p < limit; shift += 7)], with the
    result kept in a [w]-bit unsigned integer. The slice from [p] to
    [limit] is the list argument; the result is the value and the rest of
    the slice, or [None] for the [NULL] return. [n] is the number of shift
    values left. *)
Fixpoint get_varint_loop (w : Z) (n : nat) (shift result : Z) (p : bytes)
  : option (Z * bytes) :=
  match n with
  | O => None
  | S n' =>
      match p with
      | [] => None
      | b :: p' =>
          let byte := byte_to_Z b in
          if negb (Z.land byte 128 =? 0) then
            get_varint_loop w n' (shift + 7)
              (Z.land (Z.lor result (Z.shiftl (Z.land byte 127) shift)) (Z.ones w)) p'
          else
            Some (Z.land (Z.lor result (Z.shiftl byte shift)) (Z.ones w), p')
      end
  end.

Definition GetVarint32PtrFallback (p : bytes) : option (Z * bytes) :=
  get_varint_loop 32 5 0 0 p.

Definition GetVarint32Ptr (p : bytes) : option (Z * bytes) :=
  match p with
  | b :: p' => if Z.land (byte_to_Z b) 128 =? 0 then Some (byte_to_Z b, p')
               else GetVarint32PtrFallback p
  | [] => GetVarint32PtrFallback p
  end.

Definition GetVarint64Ptr (p : bytes) : option (Z * bytes) :=
  get_varint_loop 64 10 0 0 p.

(** [GetVarint32] / [GetVarint64] on a [Slice*]: the slice is advanced. *)
Definition GetVarint32 (input : bytes) : option (Z * bytes) := GetVarint32Ptr input.
Definition GetVarint64 (input : bytes) : option (Z * bytes) := GetVarint64Ptr input.

(** [VarintLength]: [int len = 1; while (v >= 128) { v >>= 7; len++; }];
    for a [uint64_t] the loop runs at most nine times. *)
Fixpoint VarintLength_loop (fuel : nat) (v len : Z) : Z :=
  match fuel with
  | O => len
  | S f => if v >=? 128 then VarintLength_loop f (Z.shiftr v 7) (len + 1) else len
  end.

Definition VarintLength (v : Z) : Z := VarintLength_loop 10 v 1.

(** [PutLengthPrefixedSlice]: [PutVarint32(dst, value.size())], then the
    bytes of [value]. *)
Definition PutLengthPrefixedSlice (dst value : bytes) : bytes :=
  PutVarint32 dst (Z.of_nat (List.length value)) ++ value.

(** [GetLengthPrefixedSlice(p, limit, result)]: the slice read and the
    rest of the buffer from [p + len], or [None] for [NULL]. *)
Definition GetLengthPrefixedSlicePtr (p : bytes) : option (bytes * bytes) :=
  match GetVarint32Ptr p with
  | None => None
  | Some (len, p) =>
      if Z.of_nat (List.length p) <? len then None
      else Some (firstn (Z.to_nat len) p, skipn (Z.to_nat len) p)
  end.

(** [GetLengthPrefixedSlice(Slice* input, Slice* result)]: the returned
    [bool], then [*input] and [*result]. When the length check fails,
    [*input] stays advanced past the length, as [GetVarint32] left it. *)
Definition GetLengthPrefixedSlice (input result : bytes) : bool * bytes * bytes :=
  match GetVarint32 input with
  | Some (len, input) =>
      if len <=? Z.of_nat (List.length input) then
        (true, skipn (Z.to_nat len) input, firstn (Z.to_nat len) input)
      else (false, input, result)
  | None => (false, input, result)
  end.

End Coding.

(* ------------------------------------------------------------------ *)
(** ** util/crc32c *)
Module Crc32c.
Import Coding.

(** Modelled from the spec: util/crc32c (its source is not part of the
    files examined). CRC-32C (Castagnoli, reflected polynomial
    0x82f63b78), [Extend(init, data)] continuing a finished CRC [init],
    [Value(data) = Extend(0, data)], and the storage mask of section 6:
    [((crc >> 15) | (crc << 17)) + 0xa282ead8] on 32 bits. *)
Definition poly : Z := 2197175160. (* 0x82f63b78 *)

Definition crc_bit (c : Z) : Z :=
  if Z.testbit c 0 then Z.lxor (Z.shiftr c 1) poly else Z.shiftr c 1.

Definition crc_byte (c : Z) (b : byte) : Z :=
  let c := Z.lxor c (byte_to_Z b) in
  crc_bit (crc_bit (crc_bit (crc_bit (crc_bit (crc_bit (crc_bit (crc_bit c))))))).

Definition Extend (init_crc : Z) (data : bytes) : Z :=
  Z.lxor (fold_left crc_byte data (Z.lxor init_crc ones32)) ones32.

Definition Value (data : bytes) : Z := Extend 0 data.

Definition kMaskDelta : Z := 2726488792. (* 0xa282ead8 *)

Definition Mask (crc : Z) : Z :=
  u32 (Z.land (Z.lor (Z.shiftr crc 15) (Z.shiftl crc 17)) ones32 + kMaskDelta).

Definition Unmask (masked_crc : Z) : Z :=
  let rot := u32 (masked_crc - kMaskDelta) in
  Z.land (Z.lor (Z.shiftr rot 17) (Z.shiftl rot 15)) ones32.

End Crc32c.

(* ------------------------------------------------------------------ *)
(** ** db/log_format, db/log_writer, db/log_reader *)
Module Log.
Import Coding Crc32c.

Definition kBlockSize : Z := 32768.
Definition kHeaderSize : Z := 7.

(** [RecordType]; the reader's extra codes follow [kMaxRecordType]. *)
Definition kZeroType : Z := 0.
Definition kFullType : Z := 1.
Definition kFirstType : Z := 2.
Definition kMiddleType : Z := 3.
Definition kLastType : Z := 4.
Definition kMaxRecordType : Z := kLastType.
Definition kEof : Z := kMaxRecordType + 1.
Definition kBadRecord : Z := kMaxRecordType + 2.

(** *** Writer *)

(** Modelled from the spec: the [WritableFile] is the byte string
    appended so far; [Append] and [Flush] always succeed. *)
Record Writer := mkWriter { block_offset_ : Z; dest_ : bytes }.

Definition NewWriter : Writer := mkWriter 0 [].

(** [type_crc_[t]]: the CRC of the one-byte type, precomputed. *)
Definition type_crc (t : Z) : Z := Value [Z_to_byte t].

(** [Writer(dest, dest_length)]: a writer appending to a log file that
    already holds [dest_length] bytes. *)
Definition NewWriterAt (dest : bytes) (dest_length : Z) : Writer :=
  mkWriter (dest_length mod kBlockSize) dest.

Definition EmitPhysicalRecord (w : Writer) (t : Z) (fragment : bytes) : Writer :=
  let n := Z.of_nat (List.length fragment) in
  let buf4 := Z_to_byte (Z.land n 255) in
  let buf5 := Z_to_byte (Z.shiftr n 8) in
  let buf6 := Z_to_byte t in
  let crc := Mask (Extend (type_crc t) fragment) in
  let header := EncodeFixed32 crc ++ [buf4; buf5; buf6] in
  mkWriter (block_offset_ w + kHeaderSize + n) (dest_ w ++ header ++ fragment).

(** The [do { ... } while (s.ok() && left > 0)] loop of [AddRecord];
    [ptr] is the part of the slice not yet written. Every pass but the
    first writes a non-empty fragment, so [length slice + 2] passes are
    enough. *)
Fixpoint AddRecord_loop (fuel : nat) (w : Writer) (ptr : bytes) (begin : bool) : Writer :=
  match fuel with
  | O => w
  | S fuel' =>
      let leftover := kBlockSize - block_offset_ w in
      let w :=
        if leftover <? kHeaderSize then
          mkWriter 0 (if 0 <? leftover then dest_ w ++ repeat Byte.x00 (Z.to_nat leftover)
                      else dest_ w)
        else w in
      let avail := kBlockSize - block_offset_ w - kHeaderSize in
      let left := Z.of_nat (List.length ptr) in
      let fragment_length := if left <? avail then left else avail in
      let end_ := left =? fragment_length in
      let type :=
        if begin && end_ then kFullType
        else if begin then kFirstType
        else if end_ then kLastType
        else kMiddleType in
      let w := EmitPhysicalRecord w type (firstn (Z.to_nat fragment_length) ptr) in
      let ptr := skipn (Z.to_nat fragment_length) ptr in
      if 0 <? left - fragment_length then AddRecord_loop fuel' w ptr false else w
  end.

Definition AddRecord (w : Writer) (slice : bytes) : Writer :=
  AddRecord_loop (List.length slice + 2) w slice true.

(** *** Reader *)

(** Modelled from the spec: the [SequentialFile] is the unread rest of
    the file; [Read(n)] returns the next [min n rest] bytes and [Skip(n)]
    drops [n] bytes, both succeeding. The corruption reporter is the
    list of [(bytes, reason)] reports it has received. *)
Record Reader := mkReader {
  file_ : bytes;
  reporter_ : bool;             (* reporter_ != NULL *)
  checksum_ : bool;
  buffer_ : bytes;
  eof_ : bool;
  last_record_offset_ : Z;
  end_of_buffer_offset_ : Z;
  initial_offset_ : Z;
  resyncing_ : bool;
  reports : list (Z * string) }.

Definition NewReader (file : bytes) (reporter checksum : bool) (initial_offset : Z) : Reader :=
  mkReader file reporter checksum [] false 0 0 initial_offset (0 <? initial_offset) [].

Definition set_file (r : Reader) (f : bytes) : Reader :=
  mkReader f (reporter_ r) (checksum_ r) (buffer_ r) (eof_ r) (last_record_offset_ r)
    (end_of_buffer_offset_ r) (initial_offset_ r) (resyncing_ r) (reports r).
Definition set_buffer (r : Reader) (b : bytes) : Reader :=
  mkReader (file_ r) (reporter_ r) (checksum_ r) b (eof_ r) (last_record_offset_ r)
    (end_of_buffer_offset_ r) (initial_offset_ r) (resyncing_ r) (reports r).
Definition set_eof (r : Reader) (e : bool) : Reader :=
  mkReader (file_ r) (reporter_ r) (checksum_ r) (buffer_ r) e (last_record_offset_ r)
    (end_of_buffer_offset_ r) (initial_offset_ r) (resyncing_ r) (reports r).
Definition set_last_record_offset (r : Reader) (o : Z) : Reader :=
  mkReader (file_ r) (reporter_ r) (checksum_ r) (buffer_ r) (eof_ r) o
    (end_of_buffer_offset_ r) (initial_offset_ r) (resyncing_ r) (reports r).
Definition set_end_of_buffer_offset (r : Reader) (o : Z) : Reader :=
  mkReader (file_ r) (reporter_ r) (checksum_ r) (buffer_ r) (eof_ r) (last_record_offset_ r)
    o (initial_offset_ r) (resyncing_ r) (reports r).
Definition set_resyncing (r : Reader) (b : bool) : Reader :=
  mkReader (file_ r) (reporter_ r) (checksum_ r) (buffer_ r) (eof_ r) (last_record_offset_ r)
    (end_of_buffer_offset_ r) (initial_offset_ r) b (reports r).
Definition add_report (r : Reader) (x : Z * string) : Reader :=
  mkReader (file_ r) (reporter_ r) (checksum_ r) (buffer_ r) (eof_ r) (last_record_offset_ r)
    (end_of_buffer_offset_ r) (initial_offset_ r) (resyncing_ r) (reports r ++ [x]).

Definition ReportDrop (r : Reader) (nbytes : Z) (reason : string) : Reader :=
  if reporter_ r &&
     (initial_offset_ r <=? u64 (end_of_buffer_offset_ r - Z.of_nat (List.length (buffer_ r)) - nbytes))
  then add_report r (nbytes, reason)
  else r.

Definition ReportCorruption (r : Reader) (nbytes : Z) (reason : string) : Reader :=
  ReportDrop r nbytes reason.

Definition SkipToInitialBlock (r : Reader) : Reader :=
  let offset_in_block := initial_offset_ r mod kBlockSize in
  let block_start_location := initial_offset_ r - offset_in_block in
  let block_start_location :=
    if kBlockSize - 6 <? offset_in_block then block_start_location + kBlockSize
    else block_start_location in
  let r := set_end_of_buffer_offset r block_start_location in
  if 0 <? block_start_location then set_file r (skipn (Z.to_nat block_start_location) (file_ r))
  else r.

(** [const unsigned int type = header[6]]: a signed [char] widened. *)
Definition header_type (c : Z) : Z := if 128 <=? c then c - 256 + 2 ^ 32 else c.

(** One pass of the [while (true)] loop of [ReadPhysicalRecord]: the
    returned type and fragment, or [inr] of the reader to go round again
    after a refill. *)
Definition ReadPhysicalRecord_step (r : Reader) : (Reader * Z * bytes) + Reader :=
  if Z.of_nat (List.length (buffer_ r)) <? kHeaderSize then
    if negb (eof_ r) then
      let blk := firstn (Z.to_nat kBlockSize) (file_ r) in
      let r := set_file (set_buffer r blk) (skipn (Z.to_nat kBlockSize) (file_ r)) in
      let r := set_end_of_buffer_offset r (end_of_buffer_offset_ r + Z.of_nat (List.length blk)) in
      let r := if Z.of_nat (List.length blk) <? kBlockSize then set_eof r true else r in
      inr r
    else inl (set_buffer r [], kEof, [])
  else
    let header := buffer_ r in
    let a := Z.land (byte_at header 4) 255 in
    let b := Z.land (byte_at header 5) 255 in
    let type := header_type (byte_at header 6) in
    let length := Z.lor a (Z.shiftl b 8) in
    if Z.of_nat (List.length (buffer_ r)) <? kHeaderSize + length then
      let drop_size := Z.of_nat (List.length (buffer_ r)) in
      let r := set_buffer r [] in
      if negb (eof_ r) then inl (ReportCorruption r drop_size "bad record length", kBadRecord, [])
      else inl (r, kEof, [])
    else if (type =? kZeroType) && (length =? 0) then
      inl (set_buffer r [], kBadRecord, [])
    else if checksum_ r &&
            negb (Value (firstn (Z.to_nat (1 + length)) (skipn 6 header))
                  =? Unmask (DecodeFixed32 header)) then
      let drop_size := Z.of_nat (List.length (buffer_ r)) in
      let r := set_buffer r [] in
      inl (ReportCorruption r drop_size "checksum mismatch", kBadRecord, [])
    else
      let fragment := firstn (Z.to_nat length) (skipn (Z.to_nat kHeaderSize) header) in
      let r := set_buffer r (skipn (Z.to_nat (kHeaderSize + length)) (buffer_ r)) in
      if u64 (end_of_buffer_offset_ r - Z.of_nat (List.length (buffer_ r)) - kHeaderSize - length)
           <? initial_offset_ r then
        inl (r, kBadRecord, [])
      else inl (r, type, fragment).

Fixpoint ReadPhysicalRecord_loop (fuel : nat) (r : Reader) : option (Reader * Z * bytes) :=
  match fuel with
  | O => None
  | S fuel' =>
      match ReadPhysicalRecord_step r with
      | inl res => Some res
      | inr r' => ReadPhysicalRecord_loop fuel' r'
      end
  end.

(** A refill reads a whole block unless it is short, and a short read
    sets [eof_]: the loop body runs at most twice. *)
Definition ReadPhysicalRecord (r : Reader) : option (Reader * Z * bytes) :=
  ReadPhysicalRecord_loop 2 r.

(** The [while (true)] loop of [ReadRecord]: [scratch] is the record
    assembled so far; the result is the record read, or [None] at [kEof]. *)
Fixpoint ReadRecord_loop (fuel : nat) (r : Reader) (scratch : bytes)
    (in_fragmented_record : bool) (prospective_record_offset : Z)
    : option (Reader * option bytes) :=
  match fuel with
  | O => None
  | S fuel' =>
      match ReadPhysicalRecord r with
      | None => None
      | Some (r, record_type, fragment) =>
          let physical_record_offset :=
            u64 (end_of_buffer_offset_ r - Z.of_nat (List.length (buffer_ r)) - kHeaderSize
                 - Z.of_nat (List.length fragment)) in
          if resyncing_ r && (record_type =? kMiddleType) then
            ReadRecord_loop fuel' r scratch in_fragmented_record prospective_record_offset
          else if resyncing_ r && (record_type =? kLastType) then
            ReadRecord_loop fuel' (set_resyncing r false) scratch in_fragmented_record
              prospective_record_offset
          else
          let r := if resyncing_ r then set_resyncing r false else r in
          if record_type =? kFullType then
            let r :=
              if in_fragmented_record && negb (Nat.eqb (List.length scratch) 0) then
                ReportCorruption r (Z.of_nat (List.length scratch)) "partial record without end(1)"
              else r in
            Some (set_last_record_offset r physical_record_offset, Some fragment)
          else if record_type =? kFirstType then
            let r :=
              if in_fragmented_record && negb (Nat.eqb (List.length scratch) 0) then
                ReportCorruption r (Z.of_nat (List.length scratch)) "partial record without end(2)"
              else r in
            ReadRecord_loop fuel' r fragment true physical_record_offset
          else if record_type =? kMiddleType then
            if negb in_fragmented_record then
              ReadRecord_loop fuel'
                (ReportCorruption r (Z.of_nat (List.length fragment))
                   "missing start of fragmented record(1)")
                scratch in_fragmented_record prospective_record_offset
            else
              ReadRecord_loop fuel' r (scratch ++ fragment) in_fragmented_record
                prospective_record_offset
          else if record_type =? kLastType then
            if negb in_fragmented_record then
              ReadRecord_loop fuel'
                (ReportCorruption r (Z.of_nat (List.length fragment))
                   "missing start of fragmented record(2)")
                scratch in_fragmented_record prospective_record_offset
            else
              Some (set_last_record_offset r prospective_record_offset,
                    Some (scratch ++ fragment))
          else if record_type =? kEof then
            Some (r, None)
          else if record_type =? kBadRecord then
            if in_fragmented_record then
              ReadRecord_loop fuel'
                (ReportCorruption r (Z.of_nat (List.length scratch)) "error in middle of record")
                [] false prospective_record_offset
            else
              ReadRecord_loop fuel' r scratch in_fragmented_record prospective_record_offset
          else
            let n := Z.of_nat (List.length fragment)
                     + (if in_fragmented_record then Z.of_nat (List.length scratch) else 0) in
            ReadRecord_loop fuel' (ReportCorruption r n "unknown record type") [] false
              prospective_record_offset
      end
  end.

(** Every pass of the loop consumes a physical record of at least
    [kHeaderSize] bytes or stops, so one pass per unread byte is enough. *)
Definition ReadRecord (r : Reader) : option (Reader * option bytes) :=
  let r := if last_record_offset_ r <? initial_offset_ r then SkipToInitialBlock r else r in
  ReadRecord_loop (S (List.length (file_ r) + List.length (buffer_ r))) r [] false 0.

(** [n] successive calls of [ReadRecord]. *)
Fixpoint ReadRecords (n : nat) (r : Reader) : option (Reader * list (option bytes)) :=
  match n with
  | O => Some (r, [])
  | S n' =>
      match ReadRecord r with
      | None => None
      | Some (r', x) =>
          match ReadRecords n' r' with
          | None => None
          | Some (r'', xs) => Some (r'', x :: xs)
          end
      end
  end.

(** The physical records of a reader, in order, up to [kEof]. *)
Fixpoint PhysicalRecords (fuel : nat) (r : Reader) : list (Z * bytes) :=
  match fuel with
  | O => []
  | S fuel' =>
      match ReadPhysicalRecord r with
      | Some (r', t, frag) => if t =? kEof then [] else (t, frag) :: PhysicalRecords fuel' r'
      | None => []
      end
  end.

(** A log written by [AddRecord] calls on a fresh writer. *)
Definition WriteLog (records : list bytes) : bytes :=
  dest_ (fold_left AddRecord records NewWriter).

End Log.

(** *** The log layout written by [Writer] *)
Module LogLayout.
Import Coding Crc32c Log.

(** The bytes [EmitPhysicalRecord] appends for a record of type [t]
    carrying [q]. *)
Definition enc_phys (x : Z * bytes) : bytes :=
  let '(t, q) := x in
  let n := Z.of_nat (List.length q) in
  EncodeFixed32 (Mask (Extend (type_crc t) q))
    ++ [Z_to_byte (Z.land n 255); Z_to_byte (Z.shiftr n 8); Z_to_byte t] ++ q.

Definition enc_list (l : list (Z * bytes)) : bytes := flat_map enc_phys l.

(** The physical records the writer produces: a type in
    [kFullType .. kLastType] and a fragment that fits in a block. *)
Definition valid_phys (x : Z * bytes) : Prop :=
  kFullType <= fst x <= kLastType /\ Z.of_nat (List.length (snd x)) <= 32761.

(** A sequence of complete blocks: records, then a zero trailer shorter
    than a header, filling [kBlockSize] bytes. *)
Inductive full_blocks : bytes -> list (Z * bytes) -> Prop :=
| fb_nil : full_blocks [] []
| fb_cons l pad f rs :
    Z.of_nat (List.length (enc_list l) + pad) = kBlockSize -> (pad < 7)%nat ->
    Forall valid_phys l ->
    full_blocks f rs ->
    full_blocks (enc_list l ++ repeat Byte.x00 pad ++ f) (l ++ rs).

(** A log file carrying the physical records [rs]: complete blocks, then
    a last block without trailer. *)
Definition log_blocks (f : bytes) (rs : list (Z * bytes)) : Prop :=
  exists done dr cur,
    f = done ++ enc_list cur /\ full_blocks done dr /\ rs = dr ++ cur /\
    Z.of_nat (List.length (enc_list cur)) <= kBlockSize /\ Forall valid_phys cur.

(** The writer has written the records [rs], and [block_offset_] is the
    size of the last block. *)
Definition Inv_W (w : Writer) (rs : list (Z * bytes)) : Prop :=
  exists done dr cur,
    dest_ w = done ++ enc_list cur /\ full_blocks done dr /\ rs = dr ++ cur /\
    block_offset_ w = Z.of_nat (List.length (enc_list cur)) /\
    Z.of_nat (List.length (enc_list cur)) <= kBlockSize /\ Forall valid_phys cur.

(** The reader, started at offset 0, has still to return the records
    [rs]: those left in its buffer (followed by less than a header of
    trailer), then those of the unread file. *)
Definition Inv_R (r : Reader) (rs : list (Z * bytes)) : Prop :=
  exists cur pad frs,
    buffer_ r = enc_list cur ++ pad /\ (List.length pad < 7)%nat /\ Forall valid_phys cur /\
    log_blocks (file_ r) frs /\ rs = cur ++ frs /\
    (eof_ r = true -> file_ r = []) /\ initial_offset_ r = 0.

(** The physical records [fs] carrying a logical record [p]: [Full], or
    [First], [Middle]s and [Last]. With [b = false], the tail of a
    fragmented record, from a [Middle] or [Last] on. *)
Inductive frags : bool -> bytes -> list (Z * bytes) -> Prop :=
| frags_end b q : frags b q [(if b then kFullType else kLastType, q)]
| frags_more b q rest fs :
    frags false rest fs ->
    frags b (q ++ rest) ((if b then kFirstType else kMiddleType, q) :: fs).

(** The type and length of each physical record. *)
Definition shape (l : list (Z * bytes)) : list (Z * Z) :=
  map (fun x => (fst x, Z.of_nat (List.length (snd x)))) l.

(** The loop of [AddRecord] on lengths only: the type and length of each
    fragment written for a payload of [left] bytes from [block_offset_ =
    bo], and the final [block_offset_]. *)
Fixpoint frag_shape (fuel : nat) (bo left : Z) (begin : bool) : list (Z * Z) * Z :=
  match fuel with
  | O => ([], bo)
  | S fuel' =>
      let bo := if kBlockSize - bo <? kHeaderSize then 0 else bo in
      let avail := kBlockSize - bo - kHeaderSize in
      let fragment_length := if left <? avail then left else avail in
      let end_ := left =? fragment_length in
      let type :=
        if begin && end_ then kFullType
        else if begin then kFirstType
        else if end_ then kLastType
        else kMiddleType in
      let bo := bo + kHeaderSize + fragment_length in
      if 0 <? left - fragment_length then
        let '(l, bo') := frag_shape fuel' bo (left - fragment_length) false in
        ((type, fragment_length) :: l, bo')
      else ([(type, fragment_length)], bo)
  end.

(** [r'] has the reporting and record-tracking state of [r]. *)
Definition keeps (r r' : Reader) : Prop :=
  reports r' = reports r /\ resyncing_ r' = resyncing_ r /\
  last_record_offset_ r' = last_record_offset_ r /\ initial_offset_ r' = initial_offset_ r.

End LogLayout.

(* ------------------------------------------------------------------ *)
(** ** util/status, include/leveldb/slice.h, util/comparator *)
Module Status.

(** The status codes a [Status] carries, with their message. *)
Inductive Status : Type :=
| OK
| NotFound (msg : string)
| Corruption (msg : string)
| NotSupported (msg : string)
| InvalidArgument (msg : string)
| IOError (msg : string).

Definition ok (s : Status) : bool := match s with OK => true | _ => false end.

End Status.

Module Comparator.
Import Coding.

(** [memcmp] on the first [n] bytes, as unsigned chars. C fixes only the
    sign of a non-zero result (glibc returns the byte difference); this
    model returns -1 or 1; the main theorems about its callers state only
    the sign of a comparison, or its antisymmetry, which hold for the byte
    difference too. *)
Fixpoint memcmp (a b : bytes) (n : nat) : Z :=
  match n with
  | O => 0
  | S n' =>
      match a, b with
      | x :: a', y :: b' =>
          if byte_to_Z x <? byte_to_Z y then -1
          else if byte_to_Z y <? byte_to_Z x then 1
          else memcmp a' b' n'
      | _, _ => 0
      end
  end.

(** [Slice::compare]. *)
Definition Slice_compare (a b : bytes) : Z :=
  let min_len := Nat.min (List.length a) (List.length b) in
  let r := memcmp a b min_len in
  if r =? 0 then
    if Nat.ltb (List.length a) (List.length b) then -1
    else if Nat.ltb (List.length b) (List.length a) then 1
    else r
  else r.

(** [BytewiseComparatorImpl::Compare]. *)
Definition BytewiseComparator (a b : bytes) : Z := Slice_compare a b.

(** The [while] loop of [FindShortestSeparator]: the first index at which
    [start] and [limit] differ, or [min_length]. *)
Fixpoint diff_index_loop (start limit : bytes) : nat :=
  match start, limit with
  | x :: start', y :: limit' => if Byte.eqb x y then S (diff_index_loop start' limit') else O
  | _, _ => O
  end.

(** [BytewiseComparatorImpl::FindShortestSeparator]: the new value of the
    string [start] points to. *)
Definition FindShortestSeparator (start limit : bytes) : bytes :=
  let min_length := Nat.min (List.length start) (List.length limit) in
  let diff_index := diff_index_loop start limit in
  if Nat.leb min_length diff_index then start
  else
    let diff_byte := byte_at start diff_index in
    if (diff_byte <? 255) && (diff_byte + 1 <? byte_at limit diff_index) then
      (* the byte at [diff_index] incremented, then [resize(diff_index + 1)] *)
      let start := firstn diff_index start ++ Z_to_byte (diff_byte + 1) :: skipn (S diff_index) start in
      firstn (S diff_index) start
    else start.

(** The [for (size_t i = 0; i < n; i++)] loop of [FindShortSuccessor];
    [fuel] is [n - i]. *)
Fixpoint FindShortSuccessor_loop (fuel i : nat) (key : bytes) : bytes :=
  match fuel with
  | O => key
  | S f =>
      let byte := byte_at key i in
      if negb (byte =? 255) then
        (* the byte at [i] set to [byte + 1], then [resize(i+1)] *)
        firstn (S i) (firstn i key ++ Z_to_byte (byte + 1) :: skipn (S i) key)
      else FindShortSuccessor_loop f (S i) key
  end.

(** [BytewiseComparatorImpl::FindShortSuccessor]: the new value of the
    string [key] points to. *)
Definition FindShortSuccessor (key : bytes) : bytes :=
  FindShortSuccessor_loop (List.length key) 0 key.

End Comparator.

(* ------------------------------------------------------------------ *)
(** ** db/dbformat: internal keys, the internal key comparator, lookup keys *)
Module DBFormat.
Import Coding.

(** Modelled from the spec (db/dbformat.h is not part of the sources):
    the value types, [kValueTypeForSeek] the largest of them, and 56-bit
    sequence numbers. *)
Definition kTypeDeletion : Z := 0.
Definition kTypeValue : Z := 1.
Definition kValueTypeForSeek : Z := kTypeValue.
Definition kMaxSequenceNumber : Z := 2 ^ 56 - 1.

Record ParsedInternalKey := mkParsedInternalKey {
  user_key : bytes; sequence : Z; type : Z }.

Definition PackSequenceAndType (seq t : Z) : Z := u64 (Z.lor (Z.shiftl seq 8) t).

Definition AppendInternalKey (result : bytes) (key : ParsedInternalKey) : bytes :=
  PutFixed64 (result ++ user_key key) (PackSequenceAndType (sequence key) (type key)).

(** Modelled from the spec (db/dbformat.h): the user key is the internal
    key without its 8-byte tag. *)
Definition ExtractUserKey (internal_key : bytes) : bytes :=
  firstn (List.length internal_key - 8) internal_key.

(** [InternalKeyComparator::Compare], over the user comparator
    [user_comparator_]. *)
Definition InternalKeyComparator_Compare (user_comparator_ : bytes -> bytes -> Z)
    (akey bkey : bytes) : Z :=
  let r := user_comparator_ (ExtractUserKey akey) (ExtractUserKey bkey) in
  if r =? 0 then
    let anum := DecodeFixed64 (skipn (List.length akey - 8) akey) in
    let bnum := DecodeFixed64 (skipn (List.length bkey - 8) bkey) in
    if bnum <? anum then -1
    else if anum <? bnum then 1
    else r
  else r.

(** A [LookupKey]: the buffer from [start_] to [end_], and the offset of
    [kstart_] in it. *)
Record LookupKey := mkLookupKey { start_ : bytes; kstart_ : nat }.

Definition NewLookupKey (user_key : bytes) (s : Z) : LookupKey :=
  let usize := List.length user_key in
  let varint := EncodeVarint32 (u32 (Z.of_nat usize + 8)) in
  mkLookupKey (varint ++ user_key ++ EncodeFixed64 (PackSequenceAndType s kValueTypeForSeek))
    (List.length varint).

(** Modelled from the spec (db/dbformat.h): the memtable key is the whole
    buffer, the internal key starts at [kstart_], the user key is the
    internal key without its tag. *)
Definition memtable_key (k : LookupKey) : bytes := start_ k.
Definition internal_key (k : LookupKey) : bytes := skipn (kstart_ k) (start_ k).
Definition lookup_user_key (k : LookupKey) : bytes :=
  firstn (List.length (internal_key k) - 8) (internal_key k).

(** [InternalKeyComparator::FindShortestSeparator], over the user
    comparator's [Compare] and [FindShortestSeparator]: the new value of
    the string [start] points to. *)
Definition InternalKeyComparator_FindShortestSeparator
    (user_compare : bytes -> bytes -> Z) (user_FindShortestSeparator : bytes -> bytes -> bytes)
    (start limit : bytes) : bytes :=
  let user_start := ExtractUserKey start in
  let user_limit := ExtractUserKey limit in
  let tmp := user_FindShortestSeparator user_start user_limit in
  if Nat.ltb (List.length tmp) (List.length user_start) && (user_compare user_start tmp <? 0) then
    PutFixed64 tmp (PackSequenceAndType kMaxSequenceNumber kValueTypeForSeek)
  else start.

(** [InternalKeyComparator::FindShortSuccessor]: the new value of the
    string [key] points to. *)
Definition InternalKeyComparator_FindShortSuccessor
    (user_compare : bytes -> bytes -> Z) (user_FindShortSuccessor : bytes -> bytes)
    (key : bytes) : bytes :=
  let user_key := ExtractUserKey key in
  let tmp := user_FindShortSuccessor user_key in
  if Nat.ltb (List.length tmp) (List.length user_key) && (user_compare user_key tmp <? 0) then
    PutFixed64 tmp (PackSequenceAndType kMaxSequenceNumber kValueTypeForSeek)
  else key.

End DBFormat.

(* ------------------------------------------------------------------ *)
(** ** db/skiplist.h and db/memtable *)
Module MemTable.
Import Coding Status DBFormat.

(** The skiplist as its level-0 list, in order: [FindGreaterOrEqual]
    returns the first node whose key is not before [key] (the upper
    levels only shorten the walk), and [Insert] links the new node in
    front of it. *)
Fixpoint SkipList_Insert (compare_ : bytes -> bytes -> Z) (key : bytes) (l : list bytes)
    : list bytes :=
  match l with
  | [] => [key]
  | x :: l' => if compare_ x key <? 0 then x :: SkipList_Insert compare_ key l' else key :: l
  end.

Fixpoint FindGreaterOrEqual (compare_ : bytes -> bytes -> Z) (key : bytes) (l : list bytes)
    : option bytes :=
  match l with
  | [] => None
  | x :: l' => if compare_ x key <? 0 then FindGreaterOrEqual compare_ key l' else Some x
  end.

(** [GetLengthPrefixedSlice]: a varint32 read within [p + 5], then that
    many bytes. *)
Definition GetLengthPrefixedSlice (data : bytes) : bytes :=
  let window := firstn 5 data in
  match GetVarint32Ptr window with
  | Some (len, rest) =>
      let p := skipn (List.length window - List.length rest) data in
      firstn (Z.to_nat len) p
  | None => []
  end.

(** [MemTable::KeyComparator]: the internal key comparator on the
    length-prefixed keys of two entries. *)
Definition KeyComparator (user_comparator : bytes -> bytes -> Z) (aptr bptr : bytes) : Z :=
  InternalKeyComparator_Compare user_comparator
    (GetLengthPrefixedSlice aptr) (GetLengthPrefixedSlice bptr).

Record MemTable := mkMemTable {
  user_comparator : bytes -> bytes -> Z;
  table_ : list bytes }.

Definition NewMemTable (user_comparator : bytes -> bytes -> Z) : MemTable :=
  mkMemTable user_comparator [].

Definition Add (m : MemTable) (s type : Z) (key value : bytes) : MemTable :=
  let key_size := Z.of_nat (List.length key) in
  let val_size := Z.of_nat (List.length value) in
  let internal_key_size := key_size + 8 in
  let buf :=
    EncodeVarint32 (u32 internal_key_size) ++ key
      ++ EncodeFixed64 (u64 (Z.lor (Z.shiftl s 8) type))
      ++ EncodeVarint32 (u32 val_size) ++ value in
  mkMemTable (user_comparator m)
    (SkipList_Insert (KeyComparator (user_comparator m)) buf (table_ m)).

(** [MemTable::Get]: the returned [bool], then [*value] and [*s]. *)
Definition Get (m : MemTable) (key : LookupKey) (value : bytes) (s : Status)
    : bool * bytes * Status :=
  let memkey := memtable_key key in
  match FindGreaterOrEqual (KeyComparator (user_comparator m)) memkey (table_ m) with
  | Some entry =>
      let window := firstn 5 entry in
      match GetVarint32Ptr window with
      | Some (key_length, rest) =>
          let key_ptr := skipn (List.length window - List.length rest) entry in
          if user_comparator m (firstn (Z.to_nat (u32 (key_length - 8))) key_ptr)
               (lookup_user_key key) =? 0 then
            let tag := DecodeFixed64 (skipn (Z.to_nat (key_length - 8)) key_ptr) in
            let t := Z.land tag 255 in
            if t =? kTypeValue then
              (true, GetLengthPrefixedSlice (skipn (Z.to_nat key_length) key_ptr), s)
            else if t =? kTypeDeletion then (true, value, NotFound ""%string)
            else (false, value, s)
          else (false, value, s)
      | None => (false, value, s)
      end
  | None => (false, value, s)
  end.

End MemTable.

(* ------------------------------------------------------------------ *)
(** ** table/format: block handles and the footer *)
Module Format.
Import Coding Status.

Record BlockHandle := mkBlockHandle { offset_ : Z; size_ : Z }.

(** [BlockHandle()]: both fields [~uint64_t(0)]. *)
Definition NewBlockHandle : BlockHandle := mkBlockHandle ones64 ones64.

Definition kMaxEncodedLength : nat := 10 + 10.

Definition BlockHandle_EncodeTo (h : BlockHandle) (dst : bytes) : bytes :=
  PutVarint64 (PutVarint64 dst (offset_ h)) (size_ h).

(** [BlockHandle::DecodeFrom]: the handle, the rest of [*input], and the
    status. [GetVarint64] leaves its value and the input alone when it
    fails; the [&&] stops at the first failure. *)
Definition BlockHandle_DecodeFrom (h : BlockHandle) (input : bytes)
    : BlockHandle * bytes * Status :=
  match GetVarint64 input with
  | Some (offset, input1) =>
      let h := mkBlockHandle offset (size_ h) in
      match GetVarint64 input1 with
      | Some (size, input2) => (mkBlockHandle (offset_ h) size, input2, OK)
      | None => (h, input1, Corruption "bad block handle"%string)
      end
  | None => (h, input, Corruption "bad block handle"%string)
  end.

Record Footer := mkFooter { metaindex_handle_ : BlockHandle; index_handle_ : BlockHandle }.

Definition NewFooter : Footer := mkFooter NewBlockHandle NewBlockHandle.

Definition kEncodedLength : nat := 2 * kMaxEncodedLength + 8.

Definition kTableMagicNumber : Z := 0xdb4775248b80fb57.

(** [std::string::resize]: truncate, or pad with zero bytes. *)
Definition resize (s : bytes) (n : nat) : bytes :=
  firstn n s ++ repeat Byte.x00 (n - List.length s).

Definition Footer_EncodeTo (f : Footer) (dst : bytes) : bytes :=
  let dst := BlockHandle_EncodeTo (metaindex_handle_ f) dst in
  let dst := BlockHandle_EncodeTo (index_handle_ f) dst in
  let dst := resize dst (2 * kMaxEncodedLength) in
  let dst := PutFixed32 dst (u32 (Z.land kTableMagicNumber 4294967295)) in
  PutFixed32 dst (u32 (Z.shiftr kTableMagicNumber 32)).

(** [Footer::DecodeFrom]: the footer, the rest of [*input], the status. *)
Definition Footer_DecodeFrom (f : Footer) (input : bytes) : Footer * bytes * Status :=
  let magic_ptr := skipn (kEncodedLength - 8) input in
  let magic_lo := DecodeFixed32 magic_ptr in
  let magic_hi := DecodeFixed32 (skipn 4 magic_ptr) in
  let magic := Z.lor (Z.shiftl magic_hi 32) magic_lo in
  if negb (magic =? kTableMagicNumber) then
    (f, input, Corruption "not an sstable (bad magic number)"%string)
  else
    let '(m, input1, result) := BlockHandle_DecodeFrom (metaindex_handle_ f) input in
    let f := mkFooter m (index_handle_ f) in
    if ok result then
      let '(i, input2, result) := BlockHandle_DecodeFrom (index_handle_ f) input1 in
      let f := mkFooter (metaindex_handle_ f) i in
      if ok result then (f, skipn kEncodedLength input, result)
      else (f, input2, result)
    else (f, input1, result).

End Format.

(* ------------------------------------------------------------------ *)
(** ** table/block_builder: prefix-compressed entries and restart points *)
Module BlockBuilder.
Import Coding.

(** [std::string buffer_; std::vector<uint32_t> restarts_; int counter_;
    bool finished_; std::string last_key_]. *)
Record BlockBuilder := mkBlockBuilder {
  buffer_ : bytes;
  restarts_ : list Z;
  counter_ : Z;
  finished_ : bool;
  last_key_ : bytes }.

(** The constructor: [restarts_.push_back(0)]. *)
Definition NewBlockBuilder : BlockBuilder := mkBlockBuilder [] [0] 0 false [].

(** [while ((shared < min_length) && (last_key_piece[shared] == key[shared]))
    shared++;] *)
Fixpoint shared_prefix (last_key_piece key : bytes) : nat :=
  match last_key_piece, key with
  | x :: l, y :: k => if Byte.eqb x y then S (shared_prefix l k) else O
  | _, _ => O
  end.

(** [last_key_.resize(shared)]. *)
Definition resize (s : bytes) (n : nat) : bytes :=
  firstn n s ++ repeat Byte.x00 (n - List.length s).

Definition Add (block_restart_interval : Z) (b : BlockBuilder) (key value : bytes)
    : BlockBuilder :=
  let '(shared, restarts, counter) :=
    if counter_ b <? block_restart_interval then
      (shared_prefix (last_key_ b) key, restarts_ b, counter_ b)
    else
      (* [restarts_.push_back(buffer_.size()); counter_ = 0;] *)
      (O, restarts_ b ++ [u32 (Z.of_nat (List.length (buffer_ b)))], 0) in
  let non_shared := (List.length key - shared)%nat in
  let buffer := PutVarint32 (buffer_ b) (Z.of_nat shared) in
  let buffer := PutVarint32 buffer (Z.of_nat non_shared) in
  let buffer := PutVarint32 buffer (Z.of_nat (List.length value)) in
  let buffer := buffer ++ firstn non_shared (skipn shared key) in
  let buffer := buffer ++ value in
  let last_key := resize (last_key_ b) shared ++ firstn non_shared (skipn shared key) in
  mkBlockBuilder buffer restarts (counter + 1) (finished_ b) last_key.

(** [Finish]: each restart as fixed32, then [restarts_.size()]; returns the
    builder and the slice over [buffer_]. *)
Definition Finish (b : BlockBuilder) : BlockBuilder * bytes :=
  let buffer := fold_left PutFixed32 (restarts_ b) (buffer_ b) in
  let buffer := PutFixed32 buffer (u32 (Z.of_nat (List.length (restarts_ b)))) in
  (mkBlockBuilder buffer (restarts_ b) (counter_ b) true (last_key_ b), buffer).

(** A sequence of [Add] calls. *)
Definition AddAll (block_restart_interval : Z) (b : BlockBuilder) (kvs : list (bytes * bytes))
    : BlockBuilder :=
  fold_left (fun b kv => Add block_restart_interval b (fst kv) (snd kv)) kvs b.

(** The offset in [buffer_] at which each added entry starts. *)
Fixpoint entry_offsets (block_restart_interval : Z) (b : BlockBuilder)
    (kvs : list (bytes * bytes)) : list Z :=
  match kvs with
  | [] => []
  | (k, v) :: t =>
      Z.of_nat (List.length (buffer_ b))
        :: entry_offsets block_restart_interval (Add block_restart_interval b k v) t
  end.

(** [Reset]: the builder as just constructed. *)
Definition Reset (b : BlockBuilder) : BlockBuilder := mkBlockBuilder [] [0] 0 false [].

(** [CurrentSizeEstimate], a [size_t]: the entries, the restart array and
    its length. *)
Definition CurrentSizeEstimate (b : BlockBuilder) : Z :=
  u64 (Z.of_nat (List.length (buffer_ b)) + Z.of_nat (List.length (restarts_ b)) * 4 + 4).

(** [empty]: [buffer_.empty()]. *)
Definition empty (b : BlockBuilder) : bool :=
  match buffer_ b with [] => true | _ => false end.

End BlockBuilder.

(* ------------------------------------------------------------------ *)
(** ** util/cache: one shard of the LRU cache

    Handles live in a heap indexed by [nat] (the [LRUHandle*] pointers);
    [malloc] takes the next fresh index and [free] clears it. The two
    circular lists [lru_] and [in_use_] are lists of handles, oldest first
    ([lru_.next] is the head). The [HandleTable] is modelled by the set of
    handles it holds, searched by [FindPointer]'s test on hash and key: its
    buckets and [Resize] only change where a handle sits, never which handle
    [Lookup], [Insert] and [Remove] return. A deleter is a function pointer;
    calling it is recorded in [deleter_calls] with its arguments. *)
Module LRU.
Import Coding.

Record LRUHandle := mkLRUHandle {
  value : Z;                    (* void* *)
  deleter : Z;                  (* the deleter function pointer *)
  charge : Z;                   (* size_t *)
  key_data : bytes;             (* key_data[0 .. key_length) *)
  in_cache : bool;
  refs : Z;                     (* uint32_t *)
  hash : Z }.                   (* uint32_t *)

Record LRUCache := mkLRUCache {
  capacity_ : Z;                (* size_t *)
  usage_ : Z;                   (* size_t *)
  lru_ : list nat;
  in_use_ : list nat;
  table_ : list nat;
  heap : nat -> option LRUHandle;
  next_id : nat;
  deleter_calls : list (Z * bytes * Z) }.

Definition NewLRUCache (capacity : Z) : LRUCache :=
  mkLRUCache capacity 0 [] [] [] (fun _ => None) O [].

Definition set_capacity (s : LRUCache) (c : Z) : LRUCache :=
  mkLRUCache c (usage_ s) (lru_ s) (in_use_ s) (table_ s) (heap s) (next_id s) (deleter_calls s).
Definition set_usage (s : LRUCache) (u : Z) : LRUCache :=
  mkLRUCache (capacity_ s) u (lru_ s) (in_use_ s) (table_ s) (heap s) (next_id s) (deleter_calls s).
Definition set_lru (s : LRUCache) (l : list nat) : LRUCache :=
  mkLRUCache (capacity_ s) (usage_ s) l (in_use_ s) (table_ s) (heap s) (next_id s) (deleter_calls s).
Definition set_in_use (s : LRUCache) (l : list nat) : LRUCache :=
  mkLRUCache (capacity_ s) (usage_ s) (lru_ s) l (table_ s) (heap s) (next_id s) (deleter_calls s).
Definition set_table (s : LRUCache) (t : list nat) : LRUCache :=
  mkLRUCache (capacity_ s) (usage_ s) (lru_ s) (in_use_ s) t (heap s) (next_id s) (deleter_calls s).
Definition set_heap (s : LRUCache) (e : nat) (h : option LRUHandle) : LRUCache :=
  mkLRUCache (capacity_ s) (usage_ s) (lru_ s) (in_use_ s) (table_ s)
    (fun j => if Nat.eqb j e then h else heap s j) (next_id s) (deleter_calls s).
Definition set_next_id (s : LRUCache) (n : nat) : LRUCache :=
  mkLRUCache (capacity_ s) (usage_ s) (lru_ s) (in_use_ s) (table_ s) (heap s) n (deleter_calls s).
Definition call_deleter (s : LRUCache) (c : Z * bytes * Z) : LRUCache :=
  mkLRUCache (capacity_ s) (usage_ s) (lru_ s) (in_use_ s) (table_ s) (heap s) (next_id s)
    (deleter_calls s ++ [c]).

Definition set_in_cache (h : LRUHandle) (b : bool) : LRUHandle :=
  mkLRUHandle (value h) (deleter h) (charge h) (key_data h) b (refs h) (hash h).
Definition set_refs (h : LRUHandle) (r : Z) : LRUHandle :=
  mkLRUHandle (value h) (deleter h) (charge h) (key_data h) (in_cache h) r (hash h).

Definition remove_id (e : nat) (l : list nat) : list nat := filter (fun x => negb (Nat.eqb x e)) l.

(** Slice [==]: same size and same bytes. *)
Definition key_eqb (a b : bytes) : bool :=
  if list_eq_dec Byte.byte_eq_dec a b then true else false.

(** [HandleTable::FindPointer]: the handle with this hash and key, if any. *)
Definition FindPointer (s : LRUCache) (key : bytes) (h : Z) : option nat :=
  find (fun e => match heap s e with
                 | Some x => (hash x =? h) && key_eqb key (key_data x)
                 | None => false
                 end) (table_ s).

Definition table_Lookup (s : LRUCache) (key : bytes) (h : Z) : option nat :=
  FindPointer s key h.

(** [HandleTable::Insert]: [h] replaces the handle with its key and hash,
    which is returned. *)
Definition table_Insert (s : LRUCache) (e : nat) : LRUCache * option nat :=
  match heap s e with
  | Some x =>
      let old := FindPointer s (key_data x) (hash x) in
      let t := match old with Some o => remove_id o (table_ s) | None => table_ s end in
      (set_table s (t ++ [e]), old)
  | None => (s, None)
  end.

Definition table_Remove (s : LRUCache) (key : bytes) (h : Z) : LRUCache * option nat :=
  match FindPointer s key h with
  | Some r => (set_table s (remove_id r (table_ s)), Some r)
  | None => (s, None)
  end.

(** [LRU_Remove] unlinks [e] from the list it is on. *)
Definition LRU_Remove (s : LRUCache) (e : nat) : LRUCache :=
  set_in_use (set_lru s (remove_id e (lru_ s))) (remove_id e (in_use_ s)).

Definition LRU_Append_lru (s : LRUCache) (e : nat) : LRUCache := set_lru s (lru_ s ++ [e]).
Definition LRU_Append_in_use (s : LRUCache) (e : nat) : LRUCache := set_in_use s (in_use_ s ++ [e]).

Definition Ref (s : LRUCache) (e : nat) : LRUCache :=
  match heap s e with
  | Some x =>
      let s := if (refs x =? 1) && in_cache x then LRU_Append_in_use (LRU_Remove s e) e else s in
      set_heap s e (Some (set_refs x (u32 (refs x + 1))))
  | None => s
  end.

Definition Unref (s : LRUCache) (e : nat) : LRUCache :=
  match heap s e with
  | Some x =>
      let x := set_refs x (u32 (refs x - 1)) in
      if refs x =? 0 then
        (* the deleter runs on key and value, then [free(e)] *)
        set_heap (call_deleter s (deleter x, key_data x, value x)) e None
      else
        let s := set_heap s e (Some x) in
        if in_cache x && (refs x =? 1) then LRU_Append_lru (LRU_Remove s e) e else s
  | None => s
  end.

Definition FinishErase (s : LRUCache) (oe : option nat) : LRUCache * bool :=
  match oe with
  | Some e =>
      match heap s e with
      | Some x =>
          let s := LRU_Remove s e in
          let s := set_heap s e (Some (set_in_cache x false)) in
          let s := set_usage s (u64 (usage_ s - charge x)) in
          (Unref s e, true)
      | None => (s, true)
      end
  | None => (s, false)
  end.

(** The eviction loop of [Insert]: [while (usage_ > capacity_ && lru_.next
    != &lru_)]. Each round takes the head of [lru_] out of the cache, so
    [List.length lru_] rounds suffice; the fuel only bounds the recursion. *)
Fixpoint Evict_loop (fuel : nat) (s : LRUCache) : LRUCache :=
  match fuel with
  | O => s
  | S f =>
      match lru_ s with
      | old :: _ =>
          if capacity_ s <? usage_ s then
            match heap s old with
            | Some x =>
                let '(s, r) := table_Remove s (key_data x) (hash x) in
                let '(s, _) := FinishErase s r in
                Evict_loop f s
            | None => s
            end
          else s
      | [] => s
      end
  end.

(** [Insert] up to [FinishErase(table_.Insert(e))]: allocate the handle and,
    when [capacity_ > 0], put it in the cache. *)
Definition Insert_entry (s : LRUCache) (key : bytes) (h value charge deleter : Z) : LRUCache * nat :=
  let e := next_id s in
  (* [malloc]; [in_cache = false; refs = 1] for the returned handle *)
  let x := mkLRUHandle value deleter charge key false 1 h in
  let s := set_heap (set_next_id s (S e)) e (Some x) in
  let s :=
    if 0 <? capacity_ s then
      let s := set_heap s e (Some (set_in_cache (set_refs x (u32 (refs x + 1))) true)) in
      let s := LRU_Append_in_use s e in
      let s := set_usage s (u64 (usage_ s + charge)) in
      let '(s, old) := table_Insert s e in
      fst (FinishErase s old)
    else s in
  (s, e).

(** Then the eviction loop. *)
Definition Insert (s : LRUCache) (key : bytes) (h value charge deleter : Z) : LRUCache * nat :=
  let '(s, e) := Insert_entry s key h value charge deleter in
  (Evict_loop (List.length (lru_ s)) s, e).

Definition Lookup (s : LRUCache) (key : bytes) (h : Z) : LRUCache * option nat :=
  match table_Lookup s key h with
  | Some e => (Ref s e, Some e)
  | None => (s, None)
  end.

Definition Release (s : LRUCache) (e : nat) : LRUCache := Unref s e.

Definition Erase (s : LRUCache) (key : bytes) (h : Z) : LRUCache :=
  let '(s, r) := table_Remove s key h in fst (FinishErase s r).

(** [while (lru_.next != &lru_)]: the same fuel as [Evict_loop]. *)
Fixpoint Prune_loop (fuel : nat) (s : LRUCache) : LRUCache :=
  match fuel with
  | O => s
  | S f =>
      match lru_ s with
      | e :: _ =>
          match heap s e with
          | Some x =>
              let '(s, r) := table_Remove s (key_data x) (hash x) in
              let '(s, _) := FinishErase s r in
              Prune_loop f s
          | None => s
          end
      | [] => s
      end
  end.

Definition Prune (s : LRUCache) : LRUCache := Prune_loop (List.length (lru_ s)) s.

(** The public operations of a shard, for sequences of calls. *)
Inductive CacheOp :=
| OInsert (key : bytes) (h value charge deleter : Z)
| OLookup (key : bytes) (h : Z)
| ORelease (e : nat)
| OErase (key : bytes) (h : Z)
| OPrune.

Definition apply_op (s : LRUCache) (op : CacheOp) : LRUCache :=
  match op with
  | OInsert key h value charge deleter => fst (Insert s key h value charge deleter)
  | OLookup key h => fst (Lookup s key h)
  | ORelease e => Release s e
  | OErase key h => Erase s key h
  | OPrune => Prune s
  end.

Definition run (s : LRUCache) (ops : list CacheOp) : LRUCache := fold_left apply_op ops s.

(** [ShardedLRUCache]: [kNumShards] shards, picked by the top bits of the
    hash. *)
Definition kNumShardBits : Z := 4.
Definition kNumShards : Z := Z.shiftl 1 kNumShardBits.

Definition Shard (hash : Z) : Z := Z.shiftr hash (32 - kNumShardBits).

(** The constructor: [per_shard = (capacity + (kNumShards - 1)) / kNumShards]
    in [size_t], and [SetCapacity(per_shard)] on each shard. *)
Definition NewShardedLRUCache (capacity : Z) : list LRUCache :=
  let per_shard := u64 (capacity + (kNumShards - 1)) / kNumShards in
  repeat (set_capacity (NewLRUCache 0) per_shard) (Z.to_nat kNumShards).

End LRU.

(* ================================================================== *)
(** * Proofs *)

(** ** Fixed-width and varint codecs, CRC masking *)
Module CodingFacts.
Import Coding Crc32c.

Lemma byte_to_Z_range b : 0 <= byte_to_Z b < 256.
Proof. unfold byte_to_Z. pose proof (Byte.to_N_bounded b). lia. Qed.

Lemma land255_range z : 0 <= Z.land z 255 < 256.
Proof.
  change 255 with (Z.ones 8). rewrite Z.land_ones by lia.
  apply Z.mod_pos_bound. lia.
Qed.

Lemma byte_to_Z_of z : byte_to_Z (Z_to_byte z) = Z.land z 255.
Proof.
  unfold Z_to_byte, byte_to_Z. pose proof (land255_range z).
  pose proof (Byte.to_of_N_option_map (Z.to_N (Z.land z 255))).
  destruct (Byte.of_N _) as [b|] eqn:E; simpl in H0.
  - destruct (N.leb _ _); inversion H0. lia.
  - destruct (N.leb_spec (Z.to_N (Z.land z 255)) 255); [discriminate|lia].
Qed.

Lemma Z_to_byte_of b : Z_to_byte (byte_to_Z b) = b.
Proof.
  unfold Z_to_byte. pose proof (byte_to_Z_range b).
  change 255 with (Z.ones 8). rewrite Z.land_ones, Z.mod_small by lia.
  unfold byte_to_Z. rewrite N2Z.id, Byte.of_to_N. reflexivity.
Qed.

Lemma Decode_Encode_Fixed32 v rest :
  DecodeFixed32 (EncodeFixed32 v ++ rest) = Z.land v ones32.
Proof.
  unfold DecodeFixed32, EncodeFixed32, byte_at. cbn [nth app].
  rewrite !byte_to_Z_of. unfold ones32. change 255 with (Z.ones 8). Z.bitblast.
Qed.

Lemma Decode_Encode_Fixed64 v rest :
  DecodeFixed64 (EncodeFixed64 v ++ rest) = Z.land v ones64.
Proof.
  unfold DecodeFixed64.
  replace (EncodeFixed64 v ++ rest) with (EncodeFixed32 v ++ (EncodeFixed32 (Z.shiftr v 32) ++ rest)).
  2:{ unfold EncodeFixed32, EncodeFixed64. cbn [app]. rewrite !Z.shiftr_shiftr by lia. reflexivity. }
  rewrite Decode_Encode_Fixed32. cbn [skipn EncodeFixed32 app].
  change (Z_to_byte (Z.land (Z.shiftr v 32) 255) :: Z_to_byte (Z.land (Z.shiftr (Z.shiftr v 32) 8) 255)
      :: Z_to_byte (Z.land (Z.shiftr (Z.shiftr v 32) 16) 255) :: Z_to_byte (Z.land (Z.shiftr (Z.shiftr v 32) 24) 255) :: rest)
    with (EncodeFixed32 (Z.shiftr v 32) ++ rest).
  rewrite Decode_Encode_Fixed32. unfold ones32, ones64. Z.bitblast.
Qed.

Ltac bits :=
  unfold B;
  change 255 with (Z.ones 8); change 127 with (Z.ones 7);
  change (128 - 1) with (Z.ones 7);
  change 128 with (Z.land (Z.ones 8) (Z.lnot (Z.ones 7)));
  eapply Z.bits_inj'; intros ?i ?Hi; Z.bitblast_core;
  repeat match goal with
         | |- context [Z.testbit ?a ?n] => rewrite (Z.testbit_neg_r a n) by lia
         end; try btauto.

Lemma land_ones_small z k : 0 <= k -> 0 <= z < 2 ^ k -> Z.land z (Z.ones k) = z.
Proof. intros. rewrite Z.land_ones, Z.mod_small; lia. Qed.

Lemma Z_to_byte_land z : Z_to_byte (Z.land z 255) = Z_to_byte z.
Proof.
  unfold Z_to_byte. replace (Z.land (Z.land z 255) 255) with (Z.land z 255); [reflexivity|].
  change 255 with (Z.ones 8). Z.bitblast.
Qed.

Lemma get_varint_loop_enc w n f s r v rest :
  0 <= s -> 0 <= v -> 0 <= r < 2 ^ s -> v < 2 ^ (7 * Z.of_nat n) -> (1 <= n <= S f)%nat ->
  0 <= w -> Z.lor r (Z.shiftl v s) < 2 ^ w ->
  get_varint_loop w n s r (EncodeVarint64_loop f v ++ rest) = Some (Z.lor r (Z.shiftl v s), rest).
Proof.
  revert f s r v. induction n as [|n IH]; intros f s r v Hs Hv Hr Hvn Hnf Hw Hb.
  - lia.
  - assert (Hnn : 0 <= Z.lor r (Z.shiftl v s)).
    { apply Z.lor_nonneg; split; [lia|]. apply Z.shiftl_nonneg; lia. }
    destruct f as [|f]; cbn [EncodeVarint64_loop].
    + assert (n = O) by lia. subst n. simpl in Hvn.
      cbn [app get_varint_loop]. rewrite byte_to_Z_of.
      replace (Z.land v 255) with v by (symmetry; change 255 with (Z.ones 8); apply land_ones_small; lia).
      replace (Z.land v 128 =? 0) with true.
      2:{ symmetry. apply Z.eqb_eq. replace v with (v mod 2 ^ 7) by (apply Z.mod_small; lia).
          bits. }
      cbn [negb]. rewrite land_ones_small by lia. reflexivity.
    + destruct (Z.geb_spec v B) as [Hge|Hlt].
      * cbn [app get_varint_loop]. rewrite byte_to_Z_of.
        replace (Z.land (Z.land (Z.lor (Z.land v (B - 1)) B) 255) 128 =? 0) with false.
        2:{ symmetry. apply Z.eqb_neq.
            replace (Z.land (Z.land (Z.lor (Z.land v (B - 1)) B) 255) 128) with 128 by bits.
            lia. }
        cbn [negb].
        assert (Hn : (1 <= n)%nat).
        { destruct n; [simpl in Hvn; unfold B in Hge; lia | lia]. }

        replace (Z.land (Z.land (Z.lor (Z.land v (B - 1)) B) 255) 127) with (Z.land v (Z.ones 7))
          by bits.
        assert (Ex : Z.lor r (Z.shiftl (Z.land v (Z.ones 7)) s)
                     = Z.land (Z.lor r (Z.shiftl v s)) (Z.ones (s + 7))).
        { rewrite <- (Z.mod_small r (2 ^ s)) by lia. bits. }
        rewrite (Z.land_ones (Z.lor r (Z.shiftl v s)) (s + 7)) in Ex by lia.
        pose proof (Z.mod_pos_bound (Z.lor r (Z.shiftl v s)) (2 ^ (s + 7)) ltac:(lia)).
        pose proof (Z.mod_le (Z.lor r (Z.shiftl v s)) (2 ^ (s + 7)) ltac:(lia) ltac:(lia)).
        rewrite (land_ones_small _ w) by lia.
        rewrite IH; try lia.
        -- f_equal. f_equal. bits.
        -- apply Z.shiftr_nonneg; lia.
        -- rewrite Z.shiftr_div_pow2 by lia. apply Z.div_lt_upper_bound; [lia|].
           rewrite <- Z.pow_add_r by lia. replace (7 + 7 * Z.of_nat n) with (7 * Z.of_nat (S n)) by lia. lia.
        -- replace (Z.lor (Z.lor r (Z.shiftl (Z.land v (Z.ones 7)) s)) (Z.shiftl (Z.shiftr v 7) (s + 7)))
             with (Z.lor r (Z.shiftl v s)) by bits. lia.
      * unfold B in Hlt. cbn [app get_varint_loop]. rewrite byte_to_Z_of.
        replace (Z.land v 255) with v by (symmetry; change 255 with (Z.ones 8); apply land_ones_small; lia).
        replace (Z.land v 128 =? 0) with true.
        2:{ symmetry. apply Z.eqb_eq. replace v with (v mod 2 ^ 7) by (apply Z.mod_small; lia).
            bits. }
        cbn [negb]. rewrite land_ones_small by lia. reflexivity.
Qed.

Lemma GetVarint64_Encode v rest :
  0 <= v < 2 ^ 64 -> GetVarint64 (EncodeVarint64 v ++ rest) = Some (v, rest).
Proof.
  intros Hv. unfold GetVarint64, GetVarint64Ptr, EncodeVarint64.
  rewrite get_varint_loop_enc; try lia.
  - rewrite Z.shiftl_0_r, Z.lor_0_l. reflexivity.
  - rewrite Z.shiftl_0_r, Z.lor_0_l. lia.
Qed.

Lemma Z_to_byte_eq x y : Z.land x 255 = Z.land y 255 -> Z_to_byte x = Z_to_byte y.
Proof. intros E. rewrite <- (Z_to_byte_land x), <- (Z_to_byte_land y), E. reflexivity. Qed.

Lemma shiftr_leb v k m :
  0 <= k -> (m <=? Z.shiftr v k) = (m * 2 ^ k <=? v).
Proof.
  intros Hk. rewrite Z.shiftr_div_pow2 by lia.
  pose proof (Z.pow_pos_nonneg 2 k ltac:(lia) Hk) as Hp.
  destruct (Z.leb_spec m (v / 2 ^ k)), (Z.leb_spec (m * 2 ^ k) v); auto; exfalso.
  - pose proof (Z.mul_div_le v (2 ^ k) Hp).
    pose proof (Z.mul_le_mono_nonneg_l m (v / 2 ^ k) (2 ^ k)). nia.
  - pose proof (Z.div_le_lower_bound v (2 ^ k) m Hp ltac:(lia)). lia.
Qed.

Lemma EncodeVarint32_loop v :
  0 <= v < 2 ^ 32 -> EncodeVarint32 v = EncodeVarint64_loop 4 v.
Proof.
  intros Hv. unfold EncodeVarint32. cbn [EncodeVarint64_loop].
  rewrite !Z.shiftr_shiftr by lia.
  repeat match goal with
         | |- context [Z.shiftr v (?a + ?b)] =>
             let c := eval vm_compute in (a + b) in change (a + b) with c
         end.
  assert (Hb : forall x, Z_to_byte (Z.lor x B) = Z_to_byte (Z.lor (Z.land x (B - 1)) B))
    by (intros; apply Z_to_byte_eq; bits).
  unfold B in *. rewrite ?Z.geb_leb, ?shiftr_leb by lia.
  repeat match goal with
         | H : context [2 ^ ?n] |- _ =>
             let c := eval vm_compute in (2 ^ n) in change (2 ^ n) with c in H
         | |- context [2 ^ ?n] =>
             let c := eval vm_compute in (2 ^ n) in change (2 ^ n) with c
         | |- context [128 * ?n] =>
             let c := eval vm_compute in (128 * n) in change (128 * n) with c
         end.
  repeat match goal with
         | |- context [?a <? ?b] => destruct (Z.ltb_spec a b); try (exfalso; lia)
         | |- context [?a <=? ?b] => destruct (Z.leb_spec a b); try (exfalso; lia)
         end; rewrite <- ?Hb; reflexivity.
Qed.

Lemma GetVarint32Ptr_Fallback p : GetVarint32Ptr p = GetVarint32PtrFallback p.
Proof.
  destruct p as [|b p]; [reflexivity|]. cbn [GetVarint32Ptr].
  destruct (Z.land (byte_to_Z b) 128 =? 0) eqn:E; [|reflexivity].
  unfold GetVarint32PtrFallback. cbn [get_varint_loop]. rewrite E. cbn [negb].
  pose proof (byte_to_Z_range b).
  rewrite Z.shiftl_0_r, Z.lor_0_l, land_ones_small by lia. reflexivity.
Qed.

Lemma GetVarint32_Encode v rest :
  0 <= v < 2 ^ 32 -> GetVarint32 (EncodeVarint32 v ++ rest) = Some (v, rest).
Proof.
  intros Hv. unfold GetVarint32. rewrite GetVarint32Ptr_Fallback, EncodeVarint32_loop by lia.
  unfold GetVarint32PtrFallback. rewrite get_varint_loop_enc; try lia.
  - rewrite Z.shiftl_0_r, Z.lor_0_l. reflexivity.
  - rewrite Z.shiftl_0_r, Z.lor_0_l. lia.
Qed.

Lemma Extend_Value a b : Extend (Value a) b = Value (a ++ b).
Proof.
  unfold Value, Extend. rewrite fold_left_app, Z.lxor_0_l.
  rewrite Z.lxor_assoc, Z.lxor_nilpotent, Z.lxor_0_r. reflexivity.
Qed.

Lemma lxor_range32 x y : 0 <= x < 2 ^ 32 -> 0 <= y < 2 ^ 32 -> 0 <= Z.lxor x y < 2 ^ 32.
Proof.
  intros Hx Hy. rewrite <- (Z.mod_small x (2 ^ 32)), <- (Z.mod_small y (2 ^ 32)) by lia.
  replace (Z.lxor (x mod 2 ^ 32) (y mod 2 ^ 32)) with ((Z.lxor x y) mod 2 ^ 32) by bits.
  apply Z.mod_pos_bound. lia.
Qed.

Lemma crc_bit_range c : 0 <= c < 2 ^ 32 -> 0 <= crc_bit c < 2 ^ 32.
Proof.
  intros Hc. assert (0 <= Z.shiftr c 1 < 2 ^ 32).
  { rewrite Z.shiftr_div_pow2 by lia. split; [apply Z.div_pos; lia|].
    apply Z.div_lt_upper_bound; lia. }
  unfold crc_bit. destruct (Z.testbit c 0); [apply lxor_range32; unfold poly; lia | lia].
Qed.

Lemma crc_byte_range c b : 0 <= c < 2 ^ 32 -> 0 <= crc_byte c b < 2 ^ 32.
Proof.
  intros Hc. unfold crc_byte. pose proof (byte_to_Z_range b).
  assert (0 <= Z.lxor c (byte_to_Z b) < 2 ^ 32) by (apply lxor_range32; lia).
  repeat apply crc_bit_range. assumption.
Qed.

Lemma fold_crc_byte_range d z :
  0 <= z < 2 ^ 32 -> 0 <= fold_left crc_byte d z < 2 ^ 32.
Proof.
  revert z. induction d as [|b d IH]; intros z Hz; cbn [fold_left]; [assumption|].
  apply IH, crc_byte_range, Hz.
Qed.

Lemma ones32_range : 0 <= ones32 < 2 ^ 32.
Proof. unfold ones32. rewrite Z.ones_equiv. lia. Qed.

Lemma Value_range d : 0 <= Value d < 2 ^ 32.
Proof.
  unfold Value, Extend. rewrite Z.lxor_0_l. pose proof ones32_range.
  apply lxor_range32; [apply fold_crc_byte_range|]; assumption.
Qed.

Lemma Unmask_Mask x : 0 <= x < 2 ^ 32 -> Unmask (Mask x) = x.
Proof.
  intros Hx. unfold Unmask, Mask, u32.
  rewrite Zminus_mod_idemp_l, Z.add_simpl_r.
  set (R := Z.land (Z.lor (Z.shiftr x 15) (Z.shiftl x 17)) ones32).
  assert (0 <= R < 2 ^ 32) by (unfold R, ones32; rewrite Z.land_ones by lia; apply Z.mod_pos_bound; lia).
  rewrite Z.mod_small by lia. unfold R, ones32.
  rewrite <- (Z.mod_small x (2 ^ 32)) by lia. bits.
  rewrite Z.mod_pow2_bits_low by lia. btauto.
Qed.

Lemma Mask_range x : 0 <= Mask x < 2 ^ 32.
Proof. unfold Mask, u32. apply Z.mod_pos_bound. lia. Qed.

End CodingFacts.

(** ** The log: parsing one physical record *)
Module LogFacts.
Import Coding Crc32c Log LogLayout CodingFacts.

Lemma EncodeFixed32_length v : List.length (EncodeFixed32 v) = 4%nat.
Proof. reflexivity. Qed.

Lemma enc_phys_length x : List.length (enc_phys x) = (7 + List.length (snd x))%nat.
Proof. destruct x as [t q]. cbn [enc_phys snd]. rewrite !length_app. reflexivity. Qed.

Lemma enc_list_app l1 l2 : enc_list (l1 ++ l2) = enc_list l1 ++ enc_list l2.
Proof. unfold enc_list. apply flat_map_app. Qed.

Lemma enc_list_cons x l : enc_list (x :: l) = enc_phys x ++ enc_list l.
Proof. reflexivity. Qed.

Lemma enc_list_length l : (7 * List.length l <= List.length (enc_list l))%nat.
Proof.
  induction l as [|x l IH]; [cbn; lia|].
  rewrite enc_list_cons, length_app, enc_phys_length. cbn [List.length]. lia.
Qed.

Lemma enc_list_nil l : enc_list l = [] -> l = [].
Proof.
  intros H. pose proof (enc_list_length l) as Hl. rewrite H in Hl.
  destruct l; [reflexivity|cbn in Hl; lia].
Qed.

(** The two length bytes of the header give back the length. *)
Lemma length_bytes n :
  0 <= n < 2 ^ 16 ->
  Z.lor (Z.land (Z.land n 255) 255) (Z.shiftl (Z.land (Z.land (Z.shiftr n 8) 255) 255) 8) = n.
Proof.
  intros Hn. rewrite <- (Z.mod_small n (2 ^ 16)) at 3 by lia.
  change 255 with (Z.ones 8).
  eapply Z.bits_inj'; intros i Hi. Z.bitblast_core;
    repeat match goal with
           | |- context [Z.testbit ?a ?m] => rewrite (Z.testbit_neg_r a m) by lia
           end;
    rewrite ?Z.mod_pow2_bits_low, ?Z.mod_pow2_bits_high by lia; try btauto.
Qed.

Lemma byte_at_enc_phys t q rest :
  let n := Z.of_nat (List.length q) in
  byte_at (enc_phys (t, q) ++ rest) 4 = Z.land n 255 /\
  byte_at (enc_phys (t, q) ++ rest) 5 = Z.land (Z.shiftr n 8) 255 /\
  byte_at (enc_phys (t, q) ++ rest) 6 = Z.land t 255.
Proof.
  unfold byte_at. cbn [enc_phys]. unfold EncodeFixed32.
  split; [|split]; cbn [app nth]; rewrite byte_to_Z_of;
    rewrite <- ?Z.land_assoc, ?Z.land_diag; reflexivity.
Qed.

Lemma skipn_enc_phys t q rest :
  skipn 6 (enc_phys (t, q) ++ rest) = Z_to_byte t :: q ++ rest /\
  skipn 7 (enc_phys (t, q) ++ rest) = q ++ rest.
Proof. cbn [enc_phys]. unfold EncodeFixed32. split; reflexivity. Qed.

Lemma DecodeFixed32_enc_phys t q rest :
  DecodeFixed32 (enc_phys (t, q) ++ rest) = Mask (Extend (type_crc t) q).
Proof.
  cbn [enc_phys]. rewrite <- app_assoc, Decode_Encode_Fixed32.
  apply land_ones_small; [lia|]. apply Mask_range.
Qed.

(** A physical record written by [EmitPhysicalRecord] at the head of the
    buffer is returned as it was written. *)
Lemma ReadPhysicalRecord_step_record r t q rest :
  valid_phys (t, q) -> initial_offset_ r = 0 -> buffer_ r = enc_phys (t, q) ++ rest ->
  ReadPhysicalRecord_step r = inl (set_buffer r rest, t, q).
Proof.
  intros [Ht Hq] Hoff Hbuf. cbn [fst snd] in Ht, Hq.
  unfold kFullType, kLastType in Ht.
  destruct (byte_at_enc_phys t q rest) as (E4 & E5 & E6).
  destruct (skipn_enc_phys t q rest) as [E6' E7].
  pose proof (DecodeFixed32_enc_phys t q rest) as ED.
  set (n := Z.of_nat (List.length q)) in *.
  assert (Hlen : Z.of_nat (List.length (buffer_ r)) = 7 + n + Z.of_nat (List.length rest)).
  { rewrite Hbuf, length_app, enc_phys_length. cbn [snd]. lia. }
  assert (El : Z.lor (Z.land (Z.land n 255) 255)
                 (Z.shiftl (Z.land (Z.land (Z.shiftr n 8) 255) 255) 8) = n)
    by (apply length_bytes; lia).
  assert (Et : Z.land t 255 = t) by (apply land_ones_small with (k := 8); lia).
  assert (Ev : Value (firstn (Z.to_nat (1 + n)) (Z_to_byte t :: q ++ rest))
               = Extend (type_crc t) q).
  { replace (Z.to_nat (1 + n)) with (S (List.length q)) by lia. cbn [firstn].
    rewrite firstn_app, Nat.sub_diag, firstn_all, app_nil_r.
    unfold type_crc. rewrite Extend_Value. reflexivity. }
  assert (Erange : 0 <= Extend (type_crc t) q < 2 ^ 32)
    by (unfold type_crc; rewrite Extend_Value; apply Value_range).
  unfold ReadPhysicalRecord_step. rewrite Hlen.
  rewrite Hbuf. rewrite E4, E5, E6, El, Et.
  destruct (Z.ltb_spec (7 + n + Z.of_nat (List.length rest)) kHeaderSize);
    [unfold kHeaderSize in *; lia|].
  destruct (Z.ltb_spec (7 + n + Z.of_nat (List.length rest)) (kHeaderSize + n));
    [unfold kHeaderSize in *; lia|].
  unfold header_type. destruct (Z.leb_spec 128 t); [lia|].
  replace ((t =? kZeroType) && (n =? 0)) with false
    by (unfold kZeroType; destruct (Z.eqb_spec t 0); [lia|reflexivity]).
  rewrite E6', ED, Ev, Unmask_Mask, Z.eqb_refl by assumption.
  rewrite andb_false_r.
  replace (Z.to_nat kHeaderSize) with 7%nat by reflexivity. rewrite E7.
  replace (firstn (Z.to_nat n) (q ++ rest)) with q
    by (unfold n; rewrite Nat2Z.id, firstn_app, Nat.sub_diag, firstn_all; cbn;
        rewrite app_nil_r; reflexivity).
  replace (skipn (Z.to_nat (kHeaderSize + n)) (enc_phys (t, q) ++ rest)) with rest.
  2:{ replace (Z.to_nat (kHeaderSize + n)) with (List.length (enc_phys (t, q)))
        by (rewrite enc_phys_length; cbn [snd]; unfold kHeaderSize, n; lia).
      rewrite skipn_app, skipn_all, Nat.sub_diag. reflexivity. }
  cbn [initial_offset_ set_buffer]. rewrite Hoff.
  destruct (Z.ltb_spec (u64 (end_of_buffer_offset_ (set_buffer r rest)
                              - Z.of_nat (List.length (buffer_ (set_buffer r rest)))
                              - kHeaderSize - n)) 0).
  - unfold u64 in *. pose proof (Z.mod_pos_bound
      (end_of_buffer_offset_ (set_buffer r rest)
       - Z.of_nat (List.length (buffer_ (set_buffer r rest))) - kHeaderSize - n)
      (2 ^ 64) ltac:(lia)). lia.
  - reflexivity.
Qed.

Lemma keeps_refl r : keeps r r.
Proof. repeat split. Qed.

Lemma keeps_trans r1 r2 r3 : keeps r1 r2 -> keeps r2 r3 -> keeps r1 r3.
Proof. unfold keeps. intuition congruence. Qed.

Lemma full_blocks_nil f : full_blocks f [] -> f = [].
Proof.
  intros H. inversion H as [|l pad f' rs Hl Hpad Hv Hf Ef Er]; [reflexivity|].
  apply app_eq_nil in Er as [-> ->].
  cbn in Hl. unfold kBlockSize in Hl. lia.
Qed.

Lemma log_blocks_nil_r f : log_blocks f [] -> f = [].
Proof.
  intros (done & dr & cur & -> & Hf & Hrs & _ & _).
  symmetry in Hrs. apply app_eq_nil in Hrs as [-> ->].
  apply full_blocks_nil in Hf as ->. reflexivity.
Qed.

Lemma full_blocks_nil_l rs : full_blocks [] rs -> rs = [].
Proof.
  intros H. inversion H as [|l pad f' rs' Hl Hpad Hv Hf Ef Er]; [reflexivity|].
  apply app_eq_nil in Ef as [El Ep]. apply app_eq_nil in Ep as [Ep _].
  apply enc_list_nil in El. subst l. destruct pad; [cbn in Hl; unfold kBlockSize in Hl; lia|discriminate].
Qed.

Lemma log_blocks_nil_l rs : log_blocks [] rs -> rs = [].
Proof.
  intros (done & dr & cur & Hf & Hfb & -> & _ & _).
  symmetry in Hf. apply app_eq_nil in Hf as [-> Hc].
  apply enc_list_nil in Hc as ->. apply full_blocks_nil_l in Hfb as ->. reflexivity.
Qed.

Lemma full_blocks_length f rs : full_blocks f rs -> (List.length rs <= List.length f)%nat.
Proof.
  induction 1 as [|l pad f rs Hl Hpad Hv Hf IH]; [cbn; lia|].
  pose proof (enc_list_length l). rewrite !length_app. lia.
Qed.

Lemma log_blocks_length f rs : log_blocks f rs -> (List.length rs <= List.length f)%nat.
Proof.
  intros (done & dr & cur & -> & Hf & -> & _ & _).
  apply full_blocks_length in Hf. pose proof (enc_list_length cur).
  rewrite !length_app. lia.
Qed.

Lemma Inv_R_length r rs :
  Inv_R r rs -> (List.length rs <= List.length (file_ r) + List.length (buffer_ r))%nat.
Proof.
  intros (cur & pad & frs & Hb & _ & _ & Hl & -> & _ & _).
  apply log_blocks_length in Hl. pose proof (enc_list_length cur).
  rewrite Hb, !length_app. lia.
Qed.

Lemma ReadPhysicalRecord_step_refill r :
  (List.length (buffer_ r) < 7)%nat -> eof_ r = false ->
  exists r1, ReadPhysicalRecord_step r = inr r1 /\
    buffer_ r1 = firstn (Z.to_nat kBlockSize) (file_ r) /\
    file_ r1 = skipn (Z.to_nat kBlockSize) (file_ r) /\
    eof_ r1 = (Z.of_nat (List.length (firstn (Z.to_nat kBlockSize) (file_ r))) <? kBlockSize) /\
    keeps r r1.
Proof.
  intros Hb He. unfold ReadPhysicalRecord_step.
  destruct (Z.ltb_spec (Z.of_nat (List.length (buffer_ r))) kHeaderSize);
    [|unfold kHeaderSize in *; lia].
  rewrite He. cbn [negb]. eexists. split; [reflexivity|].
  destruct (Z.of_nat (List.length (firstn (Z.to_nat kBlockSize) (file_ r))) <? kBlockSize);
    repeat split; exact He.
Qed.

Lemma keeps_set_buffer r b : keeps r (set_buffer r b).
Proof. repeat split. Qed.

Lemma Inv_R_rest r cur pad frs rs :
  buffer_ r = enc_list cur ++ pad -> (List.length pad < 7)%nat -> Forall valid_phys cur ->
  log_blocks (file_ r) frs -> rs = cur ++ frs -> (eof_ r = true -> file_ r = []) ->
  initial_offset_ r = 0 -> Inv_R r rs.
Proof. intros. exists cur, pad, frs. repeat split; assumption. Qed.

Lemma log_blocks_last cur :
  Z.of_nat (List.length (enc_list cur)) <= kBlockSize -> Forall valid_phys cur ->
  log_blocks (enc_list cur) cur.
Proof. intros. exists [], [], cur. repeat split; auto. constructor. Qed.

Lemma split_block (blk rest : bytes) :
  Z.of_nat (List.length blk) = kBlockSize ->
  firstn (Z.to_nat kBlockSize) (blk ++ rest) = blk /\
  skipn (Z.to_nat kBlockSize) (blk ++ rest) = rest.
Proof.
  intros H. replace (Z.to_nat kBlockSize) with (List.length blk) by lia.
  rewrite firstn_app, skipn_app, Nat.sub_diag, firstn_all, skipn_all.
  cbn [firstn skipn app]. rewrite app_nil_r. split; reflexivity.
Qed.

(** The next physical record of a well-formed log is read back. *)
Lemma ReadPhysicalRecord_next r t q rs :
  Inv_R r ((t, q) :: rs) ->
  exists r', ReadPhysicalRecord r = Some (r', t, q) /\ Inv_R r' rs /\ keeps r r'.
Proof.
  intros (cur & pad & frs & Hb & Hpad & Hv & Hl & Hrs & Heof & Hoff).
  destruct cur as [|x cur].
  - cbn [app] in Hrs. subst frs. change (enc_list []) with (@nil byte) in Hb.
    cbn [app] in Hb.
    destruct (eof_ r) eqn:He.
    { specialize (Heof eq_refl). rewrite Heof in Hl. apply log_blocks_nil_l in Hl.
      discriminate. }
    destruct (ReadPhysicalRecord_step_refill r) as (r1 & Hs & Hb1 & Hf1 & He1 & Hk1);
      [rewrite Hb; assumption|exact He|].
    unfold ReadPhysicalRecord. cbn [ReadPhysicalRecord_loop]. rewrite Hs.
    destruct Hk1 as (Hk1 & Hk2 & Hk3 & Hk4).
    destruct Hl as (done & dr & cur' & Hf & Hfb & Hrs & Hcl & Hcv).
    inversion Hfb as [|l pad' f' rs' Hl' Hpad' Hv' Hf' Ef Er]; subst done dr.
    + cbn [app] in Hf, Hrs. subst cur'.
      rewrite Hf, firstn_all2 in Hb1 by lia. rewrite Hf, skipn_all2 in Hf1 by lia.
      rewrite enc_list_cons in Hb1.
      rewrite (ReadPhysicalRecord_step_record r1 t q (enc_list rs)) by
        (try (eapply Forall_inv; eassumption); congruence).
      eexists. split; [reflexivity|]. split.
      * apply Inv_R_rest with (cur := rs) (pad := []) (frs := []);
          cbn [file_ set_buffer buffer_ eof_ initial_offset_].
        -- symmetry. apply app_nil_r.
        -- cbn; lia.
        -- eapply Forall_inv_tail; eassumption.
        -- rewrite Hf1. apply (log_blocks_last []); [cbn; unfold kBlockSize; lia|constructor].
        -- rewrite app_nil_r. reflexivity.
        -- intros _. exact Hf1.
        -- congruence.
      * eapply keeps_trans; [|apply keeps_set_buffer]. repeat split; congruence.
    + rewrite <- !app_assoc in Hf.
      destruct (split_block (enc_list l ++ repeat Byte.x00 pad') (f' ++ enc_list cur'))
        as [E1 E2]; [rewrite length_app, repeat_length; lia|].
      rewrite Hf, app_assoc, E1 in Hb1. rewrite Hf, app_assoc, E2 in Hf1.
      rewrite Hf, app_assoc, E1 in He1.
      destruct l as [|x l].
      { change (enc_list []) with (@nil byte) in Hl'. cbn in Hl'.
        unfold kBlockSize in Hl'. lia. }
      rewrite <- app_assoc in Hrs. cbn [app] in Hrs. injection Hrs as Ex Ers. subst x rs.
      rewrite enc_list_cons, <- app_assoc in Hb1.
      rewrite (ReadPhysicalRecord_step_record r1 t q (enc_list l ++ repeat Byte.x00 pad')) by
        (try (eapply Forall_inv; eassumption); congruence).
      eexists. split; [reflexivity|]. split.
      * apply Inv_R_rest with (cur := l) (pad := repeat Byte.x00 pad') (frs := rs' ++ cur');
          cbn [file_ set_buffer buffer_ eof_ initial_offset_].
        -- reflexivity.
        -- rewrite repeat_length. assumption.
        -- eapply Forall_inv_tail; eassumption.
        -- rewrite Hf1. exists f', rs', cur'. repeat split; auto.
        -- reflexivity.
        -- intros E. rewrite He1, length_app, repeat_length, Hl', Z.ltb_irrefl in E.
           discriminate.
        -- congruence.
      * eapply keeps_trans; [|apply keeps_set_buffer]. repeat split; congruence.
  - cbn [app] in Hrs. injection Hrs as Ex Ers. subst x rs.
    rewrite enc_list_cons, <- app_assoc in Hb.
    unfold ReadPhysicalRecord. cbn [ReadPhysicalRecord_loop].
    rewrite (ReadPhysicalRecord_step_record r t q (enc_list cur ++ pad)) by
      (try (eapply Forall_inv; eassumption); congruence).
    eexists. split; [reflexivity|]. split.
    + apply Inv_R_rest with (cur := cur) (pad := pad) (frs := frs);
        cbn [file_ set_buffer buffer_ eof_ initial_offset_];
        [reflexivity|assumption|eapply Forall_inv_tail; eassumption|assumption|reflexivity
        |assumption|assumption].
    + apply keeps_set_buffer.
Qed.

Lemma ReadPhysicalRecord_step_eof r :
  (List.length (buffer_ r) < 7)%nat -> eof_ r = true ->
  ReadPhysicalRecord_step r = inl (set_buffer r [], kEof, []).
Proof.
  intros Hb He. unfold ReadPhysicalRecord_step.
  destruct (Z.ltb_spec (Z.of_nat (List.length (buffer_ r))) kHeaderSize);
    [|unfold kHeaderSize in *; lia].
  rewrite He. reflexivity.
Qed.

Lemma Inv_R_empty r :
  buffer_ r = [] -> file_ r = [] -> initial_offset_ r = 0 -> Inv_R r [].
Proof.
  intros Hb Hf Ho. apply Inv_R_rest with (cur := []) (pad := []) (frs := []);
    [rewrite Hb; reflexivity|cbn; lia|constructor| |reflexivity|intros _; exact Hf|exact Ho].
  rewrite Hf. apply (log_blocks_last []); [cbn; unfold kBlockSize; lia|constructor].
Qed.

(** At the end of a well-formed log the reader reports [kEof]. *)
Lemma ReadPhysicalRecord_end r :
  Inv_R r [] ->
  exists r', ReadPhysicalRecord r = Some (r', kEof, []) /\ Inv_R r' [] /\ keeps r r'.
Proof.
  intros (cur & pad & frs & Hb & Hpad & Hv & Hl & Hrs & Heof & Hoff).
  symmetry in Hrs. apply app_eq_nil in Hrs as [-> ->].
  change (enc_list []) with (@nil byte) in Hb. cbn [app] in Hb.
  apply log_blocks_nil_r in Hl.
  unfold ReadPhysicalRecord. cbn [ReadPhysicalRecord_loop].
  destruct (eof_ r) eqn:He.
  - rewrite ReadPhysicalRecord_step_eof by (rewrite ?Hb; assumption).
    eexists. split; [reflexivity|]. split; [|apply keeps_set_buffer].
    apply Inv_R_empty; cbn [buffer_ file_ initial_offset_ set_buffer]; auto.
  - destruct (ReadPhysicalRecord_step_refill r) as (r1 & Hs & Hb1 & Hf1 & He1 & Hk1);
      [rewrite Hb; assumption|exact He|].
    rewrite Hs. rewrite Hl in Hb1, Hf1, He1.
    rewrite firstn_nil in Hb1, He1. rewrite skipn_nil in Hf1. cbn in He1.
    rewrite ReadPhysicalRecord_step_eof by (rewrite ?Hb1, ?He1; cbn; auto; lia).
    eexists. split; [reflexivity|]. destruct Hk1 as (Hk1 & Hk2 & Hk3 & Hk4). split.
    + apply Inv_R_empty; cbn; congruence.
    + eapply keeps_trans; [|apply keeps_set_buffer]. repeat split; congruence.
Qed.

Lemma Inv_R_set_last_record_offset r o rs :
  Inv_R r rs -> Inv_R (set_last_record_offset r o) rs.
Proof. intros H. exact H. Qed.

Lemma u64_nonneg x : 0 <= u64 x.
Proof. unfold u64. apply Z.mod_pos_bound. lia. Qed.

(** Decide the comparisons of record-type constants in the goal. *)
Ltac eval_type_tests :=
  repeat match goal with
         | |- context [Z.eqb ?a ?b] =>
             let v := eval vm_compute in (Z.eqb a b) in
             lazymatch v with
             | true => change (Z.eqb a b) with true
             | false => change (Z.eqb a b) with false
             end
         end;
  cbv beta iota zeta.

(** [ReadRecord]'s loop assembles the logical record carried by [fs]. *)
Lemma ReadRecord_loop_frags b p fs :
  frags b p fs ->
  forall fuel r rs scratch pro,
  Inv_R r (fs ++ rs) -> resyncing_ r = false -> 0 <= pro -> (List.length fs <= fuel)%nat ->
  exists r',
    ReadRecord_loop fuel r scratch (negb b) pro = Some (r', Some (if b then p else scratch ++ p)) /\
    Inv_R r' rs /\ reports r' = reports r /\ resyncing_ r' = false /\
    0 <= last_record_offset_ r'.
Proof.
  induction 1 as [b q|b q rest fs Hfs IH]; intros fuel r rs scratch pro HI Hres Hpro Hfuel;
    (destruct fuel as [|fuel]; [cbn in Hfuel; lia|]); cbn [app] in HI;
    destruct (ReadPhysicalRecord_next _ _ _ _ HI) as (r1 & Hr & HI1 & (Hk1 & Hk2 & Hk3 & Hk4));
    cbn [ReadRecord_loop]; rewrite Hr; cbv beta iota zeta;
    assert (Hres1 : resyncing_ r1 = false) by congruence; rewrite Hres1.
  - destruct b; eval_type_tests; cbn [negb andb]; eval_type_tests.
    + eexists. split; [reflexivity|]. split; [apply Inv_R_set_last_record_offset, HI1|].
      cbn [reports resyncing_ last_record_offset_ set_last_record_offset].
      repeat split; [congruence|congruence|apply u64_nonneg].
    + eexists. split; [reflexivity|]. split; [apply Inv_R_set_last_record_offset, HI1|].
      cbn [reports resyncing_ last_record_offset_ set_last_record_offset].
      repeat split; [congruence|congruence|exact Hpro].
  - destruct b; eval_type_tests; cbn [negb andb]; eval_type_tests.
    + destruct (IH fuel r1 rs q (u64 (end_of_buffer_offset_ r1 - Z.of_nat (List.length (buffer_ r1))
          - kHeaderSize - Z.of_nat (List.length q))))
        as (r' & E & H1 & H2 & H3 & H4); auto using u64_nonneg.
      { cbn [List.length] in Hfuel. lia. }
      exists r'. split; [exact E|]. repeat split; congruence.
    + destruct (IH fuel r1 rs (scratch ++ q) pro) as (r' & E & H1 & H2 & H3 & H4); auto.
      { cbn [List.length] in Hfuel. lia. }
      exists r'. rewrite <- app_assoc in E. split; [exact E|]. repeat split; congruence.
Qed.

Lemma ReadRecord_frags r p fs rs :
  frags true p fs -> Inv_R r (fs ++ rs) -> resyncing_ r = false -> 0 <= last_record_offset_ r ->
  exists r',
    ReadRecord r = Some (r', Some p) /\
    Inv_R r' rs /\ reports r' = reports r /\ resyncing_ r' = false /\
    0 <= last_record_offset_ r'.
Proof.
  intros Hf HI Hres Hlro. pose proof (Inv_R_length _ _ HI) as Hlen.
  assert (Hoff : initial_offset_ r = 0) by (destruct HI as (? & ? & ? & ? & ? & ? & ? & ? & ? & ?); assumption).
  unfold ReadRecord. destruct (Z.ltb_spec (last_record_offset_ r) (initial_offset_ r)); [lia|].
  apply (ReadRecord_loop_frags true p fs Hf); auto; [lia|].
  rewrite length_app in Hlen. lia.
Qed.

Lemma ReadRecord_end r :
  Inv_R r [] -> resyncing_ r = false -> 0 <= last_record_offset_ r ->
  exists r',
    ReadRecord r = Some (r', None) /\
    Inv_R r' [] /\ reports r' = reports r /\ resyncing_ r' = false /\
    0 <= last_record_offset_ r'.
Proof.
  intros HI Hres Hlro.
  assert (Hoff : initial_offset_ r = 0) by (destruct HI as (? & ? & ? & ? & ? & ? & ? & ? & ? & ?); assumption).
  unfold ReadRecord. destruct (Z.ltb_spec (last_record_offset_ r) (initial_offset_ r)); [lia|].
  cbn [ReadRecord_loop].
  destruct (ReadPhysicalRecord_end _ HI) as (r1 & Hr & HI1 & (Hk1 & Hk2 & Hk3 & Hk4)).
  rewrite Hr. cbv beta iota zeta.
  assert (Hres1 : resyncing_ r1 = false) by congruence. rewrite Hres1.
  cbn [andb]. eval_type_tests.
  eexists. split; [reflexivity|]. repeat split; congruence.
Qed.

(** Reading a log whose physical records carry the payloads [ps]. *)
Lemma ReadRecords_log ps fss r :
  Forall2 (frags true) ps fss -> Inv_R r (List.concat fss) -> resyncing_ r = false ->
  0 <= last_record_offset_ r ->
  exists r',
    ReadRecords (List.length ps + 1) r = Some (r', map Some ps ++ [None]) /\
    reports r' = reports r.
Proof.
  intros H. revert r. induction H as [|p fs ps fss Hf Hfs IH]; intros r HI Hres Hlro.
  - destruct (ReadRecord_end r HI Hres Hlro) as (r' & E & _ & Hrep & _ & _).
    exists r'. cbn [ReadRecords List.length Nat.add map app]. rewrite E. split; [reflexivity|exact Hrep].
  - cbn [List.concat] in HI.
    destruct (ReadRecord_frags r p fs (List.concat fss) Hf HI Hres Hlro)
      as (r1 & E1 & HI1 & Hrep1 & Hres1 & Hlro1).
    destruct (IH r1 HI1 Hres1 Hlro1) as (r' & E & Hrep).
    exists r'. cbn [ReadRecords List.length Nat.add map app]. rewrite E1.
    cbn [Nat.add] in E. rewrite E. split; [reflexivity|congruence].
Qed.

(** ** The log: what [Writer::AddRecord] writes *)

Lemma full_blocks_snoc done dr l pad :
  full_blocks done dr ->
  Z.of_nat (List.length (enc_list l) + pad) = kBlockSize -> (pad < 7)%nat -> Forall valid_phys l ->
  full_blocks (done ++ enc_list l ++ repeat Byte.x00 pad) (dr ++ l).
Proof.
  intros H Hl Hp Hv. induction H as [|l' pad' f rs Hl' Hp' Hv' Hf IH].
  - pose proof (fb_cons l pad [] [] Hl Hp Hv fb_nil) as X.
    rewrite !app_nil_r in X. exact X.
  - rewrite <- !app_assoc. apply fb_cons; assumption.
Qed.

Lemma Inv_W_bound w rs : Inv_W w rs -> 0 <= block_offset_ w <= kBlockSize.
Proof. intros (done & dr & cur & _ & _ & _ & -> & Hc & _). lia. Qed.

Lemma EmitPhysicalRecord_spec w rs t q :
  Inv_W w rs -> valid_phys (t, q) ->
  block_offset_ w + kHeaderSize + Z.of_nat (List.length q) <= kBlockSize ->
  Inv_W (EmitPhysicalRecord w t q) (rs ++ [(t, q)]) /\
  block_offset_ (EmitPhysicalRecord w t q) = block_offset_ w + kHeaderSize + Z.of_nat (List.length q).
Proof.
  intros (done & dr & cur & Hd & Hfb & -> & Hbo & Hc & Hv) Hx Hroom.
  split; [|reflexivity].
  exists done, dr, (cur ++ [(t, q)]).
  assert (Hlen : List.length (enc_list (cur ++ [(t, q)]))
                 = (List.length (enc_list cur) + 7 + List.length q)%nat).
  { rewrite enc_list_app, length_app. unfold enc_list at 2. cbn [flat_map].
    rewrite app_nil_r, enc_phys_length. cbn [snd]. lia. }
  repeat split.
  - unfold EmitPhysicalRecord. cbn [dest_]. rewrite Hd, enc_list_app, <- !app_assoc.
    unfold enc_list at 3. cbn [flat_map]. rewrite app_nil_r. cbn [enc_phys].
    rewrite <- ?app_assoc. reflexivity.
  - exact Hfb.
  - rewrite app_assoc. reflexivity.
  - unfold EmitPhysicalRecord. cbn [block_offset_]. rewrite Hlen, Hbo. unfold kHeaderSize. lia.
  - rewrite Hlen. unfold kHeaderSize in Hroom. lia.
  - apply Forall_app. split; [exact Hv|constructor; [exact Hx|constructor]].
Qed.

(** The trailer [AddRecord] writes when fewer than [kHeaderSize] bytes are
    left in the block. *)
Lemma AddRecord_trailer_spec w rs :
  Inv_W w rs -> kBlockSize - block_offset_ w < kHeaderSize ->
  Inv_W (mkWriter 0 (if 0 <? kBlockSize - block_offset_ w
                     then dest_ w ++ repeat Byte.x00 (Z.to_nat (kBlockSize - block_offset_ w))
                     else dest_ w)) rs.
Proof.
  intros (done & dr & cur & Hd & Hfb & -> & Hbo & Hc & Hv) Hl.
  exists (done ++ enc_list cur ++ repeat Byte.x00 (Z.to_nat (kBlockSize - block_offset_ w))),
    (dr ++ cur), [].
  repeat split.
  - cbn [dest_]. change (enc_list []) with (@nil byte). rewrite app_nil_r, Hd, app_assoc.
    destruct (Z.ltb_spec 0 (kBlockSize - block_offset_ w)); [reflexivity|].
    replace (Z.to_nat (kBlockSize - block_offset_ w)) with 0%nat by lia.
    cbn [repeat]. rewrite !app_nil_r. reflexivity.
  - apply full_blocks_snoc; auto; unfold kHeaderSize in Hl; lia.
  - rewrite app_nil_r. reflexivity.
  - cbn; unfold kBlockSize; lia.
  - constructor.
Qed.

Lemma frags_end' b p q : q = p -> frags b p [(if b then kFullType else kLastType, q)].
Proof. intros ->. constructor. Qed.

Lemma frags_more' b p q rest fs :
  frags false rest fs -> p = q ++ rest ->
  frags b p ((if b then kFirstType else kMiddleType, q) :: fs).
Proof. intros H ->. constructor. exact H. Qed.

Lemma AddRecord_loop_spec fuel :
  forall w ptr b rs,
  Inv_W w rs ->
  (List.length ptr + (if (block_offset_ w =? kBlockSize - kHeaderSize)%Z then 2 else 1) <= fuel)%nat ->
  exists fs,
    Inv_W (AddRecord_loop fuel w ptr b) (rs ++ fs) /\
    frags b ptr fs /\
    shape fs = fst (frag_shape fuel (block_offset_ w) (Z.of_nat (List.length ptr)) b) /\
    block_offset_ (AddRecord_loop fuel w ptr b)
      = snd (frag_shape fuel (block_offset_ w) (Z.of_nat (List.length ptr)) b).
Proof.
  induction fuel as [|fuel IH]; intros w ptr b rs HW Hfuel.
  { exfalso. destruct (Z.eqb _ _); lia. }
  pose proof (Inv_W_bound _ _ HW) as Hb0.
  cbn [AddRecord_loop frag_shape].
  remember (if kBlockSize - block_offset_ w <? kHeaderSize then
              mkWriter 0 (if 0 <? kBlockSize - block_offset_ w
                          then dest_ w ++ repeat Byte.x00 (Z.to_nat (kBlockSize - block_offset_ w))
                          else dest_ w)
            else w) as w1 eqn:Ew1.
  remember (if kBlockSize - block_offset_ w <? kHeaderSize then 0 else block_offset_ w)
    as bo1 eqn:Ebo1.
  assert (HW1 : Inv_W w1 rs /\ block_offset_ w1 = bo1 /\
                0 <= bo1 <= kBlockSize - kHeaderSize /\
                (bo1 = kBlockSize - kHeaderSize -> block_offset_ w = kBlockSize - kHeaderSize)).
  { subst w1 bo1. destruct (Z.ltb_spec (kBlockSize - block_offset_ w) kHeaderSize).
    - split; [apply AddRecord_trailer_spec; assumption|].
      unfold kBlockSize, kHeaderSize in *. cbn [block_offset_]. lia.
    - split; [assumption|]. unfold kBlockSize, kHeaderSize in *. lia. }
  destruct HW1 as (HW1 & Hbo1 & Hbo1r & Hbo1e). rewrite Hbo1.
  set (left := Z.of_nat (List.length ptr)) in *.
  remember (if left <? kBlockSize - bo1 - kHeaderSize then left
            else kBlockSize - bo1 - kHeaderSize) as fl eqn:Efl.
  assert (Hfl : 0 <= fl <= left /\ fl <= kBlockSize - bo1 - kHeaderSize /\
                (fl < left -> fl = kBlockSize - bo1 - kHeaderSize)).
  { subst fl. unfold left in *.
    destruct (Z.ltb_spec (Z.of_nat (List.length ptr)) (kBlockSize - bo1 - kHeaderSize)); lia. }
  remember (if b && (left =? fl) then kFullType
            else if b then kFirstType
            else if left =? fl then kLastType
            else kMiddleType) as ty eqn:Ety.
  assert (Hfirst : Z.of_nat (List.length (firstn (Z.to_nat fl) ptr)) = fl).
  { rewrite length_firstn. unfold left in *. lia. }
  destruct (EmitPhysicalRecord_spec w1 rs ty (firstn (Z.to_nat fl) ptr) HW1) as [HW2 Hbo2].
  { split; cbn [fst snd].
    - subst ty. destruct b, (left =? fl); cbn [andb]; unfold kFullType, kFirstType, kMiddleType, kLastType; lia.
    - rewrite Hfirst. unfold kBlockSize, kHeaderSize in *. lia. }
  { rewrite Hbo1, Hfirst. lia. }
  rewrite Hbo1, Hfirst in Hbo2.
  remember (EmitPhysicalRecord w1 ty (firstn (Z.to_nat fl) ptr)) as w2 eqn:Ew2.
  destruct (Z.ltb_spec 0 (left - fl)) as [Hc|Hc].
  - (* another fragment follows *)
    assert (Hfl' : fl = kBlockSize - bo1 - kHeaderSize) by (apply Hfl; lia).
    assert (Hlen' : Z.of_nat (List.length (skipn (Z.to_nat fl) ptr)) = left - fl).
    { rewrite length_skipn. unfold left in *. lia. }
    destruct (IH w2 (skipn (Z.to_nat fl) ptr) false (rs ++ [(ty, firstn (Z.to_nat fl) ptr)]) HW2)
      as (fs & HI & Hf & Hs & Hb).
    { rewrite Hbo2. rewrite length_skipn.
      destruct (Z.eqb_spec (bo1 + kHeaderSize + fl) (kBlockSize - kHeaderSize));
        [unfold kBlockSize, kHeaderSize in *; lia|].
      destruct (Z.eq_dec fl 0) as [E0|E0].
      - assert (Hw : block_offset_ w = kBlockSize - kHeaderSize) by (apply Hbo1e; lia).
        rewrite Hw, Z.eqb_refl in Hfuel. unfold left in *. lia.
      - destruct (_ =? _)%Z in Hfuel; unfold left in *; lia. }
    rewrite Hbo2, Hlen' in Hs, Hb.
    destruct (frag_shape fuel (bo1 + kHeaderSize + fl) (left - fl) false) as [l bo'] eqn:Efs.
    cbn [fst snd] in Hs, Hb |- *.
    exists ((ty, firstn (Z.to_nat fl) ptr) :: fs). repeat split.
    + rewrite <- app_assoc in HI. exact HI.
    + assert (Hne : (left =? fl) = false) by (apply Z.eqb_neq; lia).
      rewrite Ety, Hne.
      destruct b; cbn [andb];
        [apply (frags_more' true) with (rest := skipn (Z.to_nat fl) ptr)
        |apply (frags_more' false) with (rest := skipn (Z.to_nat fl) ptr)];
        try exact Hf; symmetry; apply firstn_skipn.
    + cbn [shape map fst snd]. rewrite Hfirst. unfold shape in Hs. rewrite Hs. reflexivity.
    + exact Hb.
  - (* the last fragment *)
    assert (Hfl' : fl = left) by lia.
    exists [(ty, firstn (Z.to_nat fl) ptr)]. cbn [fst snd]. repeat split.
    + exact HW2.
    + assert (Hq : firstn (Z.to_nat fl) ptr = ptr) by (apply firstn_all2; unfold left in *; lia).
      rewrite Ety, Hfl', Z.eqb_refl, <- Hfl', Hq.
      destruct b; cbn [andb];
        [apply (frags_end' true)|apply (frags_end' false)]; reflexivity.
    + cbn [shape map fst snd]. rewrite Hfirst. reflexivity.
    + exact Hbo2.
Qed.

Lemma AddRecord_spec w rs slice :
  Inv_W w rs ->
  exists fs, Inv_W (AddRecord w slice) (rs ++ fs) /\ frags true slice fs.
Proof.
  intros HW. unfold AddRecord.
  destruct (AddRecord_loop_spec (List.length slice + 2) w slice true rs HW)
    as (fs & H1 & H2 & _ & _).
  - destruct (_ =? _)%Z; lia.
  - exists fs. split; assumption.
Qed.

Lemma fold_AddRecord_spec ps :
  forall w rs, Inv_W w rs ->
  exists fss, Inv_W (fold_left AddRecord ps w) (rs ++ List.concat fss) /\
              Forall2 (frags true) ps fss.
Proof.
  induction ps as [|p ps IH]; intros w rs HW; cbn [fold_left].
  - exists []. cbn. rewrite app_nil_r. split; [assumption|constructor].
  - destruct (AddRecord_spec w rs p HW) as (fs & HW1 & Hf).
    destruct (IH _ _ HW1) as (fss & HW2 & Hfss).
    exists (fs :: fss). split.
    + cbn [List.concat]. rewrite app_assoc. exact HW2.
    + constructor; assumption.
Qed.

Lemma Inv_W_NewWriter : Inv_W NewWriter [].
Proof.
  exists [], [], []. cbn. repeat split; try constructor.
  unfold kBlockSize. lia.
Qed.

Lemma Inv_W_log_blocks w rs : Inv_W w rs -> log_blocks (dest_ w) rs.
Proof.
  intros (done & dr & cur & Hd & Hfb & Hrs & _ & Hle & Hv).
  exists done, dr, cur. repeat split; assumption.
Qed.

Lemma WriteLog_blocks ps :
  exists fss, log_blocks (WriteLog ps) (List.concat fss) /\ Forall2 (frags true) ps fss.
Proof.
  destruct (fold_AddRecord_spec ps NewWriter [] Inv_W_NewWriter) as (fss & HW & Hf).
  exists fss. split; [|assumption]. apply Inv_W_log_blocks. exact HW.
Qed.

Lemma Inv_R_NewReader f reporter checksum rs :
  log_blocks f rs -> Inv_R (NewReader f reporter checksum 0) rs.
Proof.
  intros Hl. exists [], [], rs. cbn. repeat split; try constructor; try assumption.
  - lia.
  - discriminate.
Qed.

(** Reading back a log written by [AddRecord] calls, from offset 0. *)
Lemma log_roundtrip ps reporter checksum :
  exists r,
    ReadRecords (List.length ps + 1) (NewReader (WriteLog ps) reporter checksum 0)
      = Some (r, map Some ps ++ [None]) /\ reports r = [].
Proof.
  destruct (WriteLog_blocks ps) as (fss & Hl & Hf).
  destruct (ReadRecords_log ps fss (NewReader (WriteLog ps) reporter checksum 0) Hf)
    as (r & H1 & H2).
  - apply Inv_R_NewReader. exact Hl.
  - reflexivity.
  - cbn. lia.
  - exists r. split; assumption.
Qed.

Lemma full_blocks_valid f rs : full_blocks f rs -> Forall valid_phys rs.
Proof.
  induction 1; [constructor|]. apply Forall_app. split; assumption.
Qed.

Lemma Inv_R_valid r rs : Inv_R r rs -> Forall valid_phys rs.
Proof.
  intros (cur & pad & frs & _ & _ & Hv & (done & dr & cur' & _ & Hfb & Hfrs & _ & Hv') & Hrs & _).
  subst rs frs. apply Forall_app. split; [assumption|].
  apply Forall_app. split; [eapply full_blocks_valid; eassumption|assumption].
Qed.

(** The physical records read from a file laid out as [rs] are [rs]. *)
Lemma PhysicalRecords_log fuel :
  forall r rs, Inv_R r rs -> (List.length rs < fuel)%nat -> PhysicalRecords fuel r = rs.
Proof.
  induction fuel as [|fuel IH]; intros r rs HR Hf; [lia|].
  cbn [PhysicalRecords]. destruct rs as [|[t q] rs].
  - destruct (ReadPhysicalRecord_end r HR) as (r' & E & _ & _). rewrite E, Z.eqb_refl.
    reflexivity.
  - pose proof (Forall_inv (Inv_R_valid _ _ HR)) as Hv.
    destruct (ReadPhysicalRecord_next r t q rs HR) as (r' & E & HR' & _). rewrite E.
    assert (Ht : (t =? kEof) = false).
    { apply Z.eqb_neq. unfold valid_phys, kEof, kMaxRecordType, kFullType, kLastType in *.
      cbn [fst] in Hv. lia. }
    rewrite Ht. f_equal. apply IH; [exact HR'|cbn [List.length] in Hf; lia].
Qed.

Lemma frags_nonempty b p : ~ frags b p [].
Proof. intros H. inversion H. Qed.

Lemma frags_single b p x : frags b p [x] -> x = (if b then kFullType else kLastType, p).
Proof.
  intros H. inversion H; subst.
  - reflexivity.
  - exfalso. eapply frags_nonempty. eassumption.
Qed.

Lemma frag_shape_1000 : frag_shape (Z.to_nat 1000 + 2) 0 1000 true = ([(kFullType, 1000)], 1007).
Proof. vm_compute. reflexivity. Qed.

Lemma frag_shape_97270 :
  frag_shape (Z.to_nat 97270 + 2) 1007 97270 true
  = ([(kFirstType, 31754); (kMiddleType, 32761); (kLastType, 32755)], 32762).
Proof. vm_compute. reflexivity. Qed.

Lemma frag_shape_8000 : frag_shape (Z.to_nat 8000 + 2) 32762 8000 true = ([(kFullType, 8000)], 8007).
Proof. vm_compute. reflexivity. Qed.

End LogFacts.

Module LogClaims.
Import Coding Crc32c Log LogLayout CodingFacts LogFacts.

(** C1: the log written by [AddRecord]ing the payloads [ps] to a fresh
    [Writer] is read back from offset 0 by successive [ReadRecord] calls
    as exactly [ps], in order, followed by end of file, with no
    corruption reported; this for every reporter and checksum setting. *)
Theorem WAL_roundtrip (ps : list bytes) (reporter checksum : bool) :
  exists r,
    ReadRecords (List.length ps + 1) (NewReader (WriteLog ps) reporter checksum 0)
      = Some (r, map Some ps ++ [None]) /\ reports r = [].
Proof. exact (log_roundtrip ps reporter checksum). Qed.

Lemma AddRecord_empty_dest w :
  0 <= block_offset_ w <= kBlockSize ->
  exists pad,
    dest_ (AddRecord w []) = dest_ w ++ repeat Byte.x00 pad ++ enc_phys (kFullType, []) /\
    (pad < 7)%nat.
Proof.
  intros Hb. unfold AddRecord. cbn [List.length Nat.add AddRecord_loop].
  remember (if kBlockSize - block_offset_ w <? kHeaderSize then
              mkWriter 0 (if 0 <? kBlockSize - block_offset_ w
                          then dest_ w ++ repeat Byte.x00 (Z.to_nat (kBlockSize - block_offset_ w))
                          else dest_ w)
            else w) as w1 eqn:Ew1.
  assert (Hw1 : 0 <= block_offset_ w1 <= kBlockSize - kHeaderSize /\
                exists pad, dest_ w1 = dest_ w ++ repeat Byte.x00 pad /\ (pad < 7)%nat).
  { subst w1. unfold kBlockSize, kHeaderSize in *.
    destruct (Z.ltb_spec (32768 - block_offset_ w) 7) as [H|H]; cbn [block_offset_ dest_].
    - split; [lia|].
      destruct (Z.ltb_spec 0 (32768 - block_offset_ w)).
      + exists (Z.to_nat (32768 - block_offset_ w)). split; [reflexivity|lia].
      + exists O. rewrite app_nil_r. split; [reflexivity|lia].
    - split; [lia|]. exists O. rewrite app_nil_r. split; [reflexivity|lia]. }
  destruct Hw1 as (Hb1 & pad & Hd1 & Hpad).
  assert (Hfl : (if Z.of_nat 0 <? kBlockSize - block_offset_ w1 - kHeaderSize then Z.of_nat 0
                 else kBlockSize - block_offset_ w1 - kHeaderSize) = 0).
  { destruct (Z.ltb_spec (Z.of_nat 0) (kBlockSize - block_offset_ w1 - kHeaderSize)); lia. }
  rewrite Hfl. cbn -[EmitPhysicalRecord].
  exists pad. split; [|exact Hpad].
  unfold EmitPhysicalRecord, enc_phys. cbn [dest_ List.length Z.of_nat].
  rewrite Hd1, !app_nil_r, <- !app_assoc. reflexivity.
Qed.

(** C9: [AddRecord] of an empty payload still appends exactly one
    physical record, of type [Full], payload length 0 and 7 header bytes
    (after the zero trailer of a block with less than a header left), and
    reading back a log whose last payload is empty returns that empty
    record rather than skipping it. *)
Theorem AddRecord_empty_record w ps reporter checksum :
  0 <= block_offset_ w <= kBlockSize ->
  (exists pad,
     dest_ (AddRecord w []) = dest_ w ++ repeat Byte.x00 pad ++ enc_phys (kFullType, []) /\
     (pad < 7)%nat) /\
  List.length (enc_phys (kFullType, [])) = 7%nat /\
  (exists r,
     ReadRecords (List.length ps + 2) (NewReader (WriteLog (ps ++ [[]])) reporter checksum 0)
       = Some (r, map Some ps ++ [Some []; None]) /\ reports r = []).
Proof.
  intros Hb. split; [apply AddRecord_empty_dest; exact Hb|]. split.
  - rewrite enc_phys_length. reflexivity.
  - destruct (log_roundtrip (ps ++ [[]]) reporter checksum) as (r & H1 & H2).
    exists r. split; [|exact H2].
    rewrite length_app, map_app, <- app_assoc in H1. cbn [List.length map app] in H1.
    replace (List.length ps + 2)%nat with (List.length ps + 1 + 1)%nat by lia.
    exact H1.
Qed.

Lemma AddRecord_empty_record_witness :
  0 <= block_offset_ NewWriter <= kBlockSize /\
  ((exists pad,
     dest_ (AddRecord NewWriter []) = dest_ NewWriter ++ repeat Byte.x00 pad ++ enc_phys (kFullType, []) /\
     (pad < 7)%nat) /\
   List.length (enc_phys (kFullType, [])) = 7%nat /\
   (exists r,
      ReadRecords (List.length (@nil bytes) + 2) (NewReader (WriteLog ([] ++ [[]])) false true 0)
        = Some (r, map Some [] ++ [Some []; None]) /\ reports r = [])).
Proof.
  assert (H : 0 <= block_offset_ NewWriter <= kBlockSize) by (cbn; unfold kBlockSize; lia).
  split; [exact H|]. apply (AddRecord_empty_record NewWriter [] false true). exact H.
Defined.

(** C4, as stated, fails: after the 1000-byte payload (a [Full] record of
    1007 bytes) the second payload starts mid-block, so its first fragment
    is [First(31754)], not [First(32761)]; it goes on as [Middle(32761)]
    and [Last(32755)]. *)
Lemma WAL_fragmentation_counterexample :
  shape (PhysicalRecords 10
           (NewReader (WriteLog [repeat Byte.x00 (Z.to_nat 1000);
                                 repeat Byte.x00 (Z.to_nat 97270);
                                 repeat Byte.x00 (Z.to_nat 8000)]) false true 0))
    = [(kFullType, 1000); (kFirstType, 31754); (kMiddleType, 32761); (kLastType, 32755);
       (kFullType, 8000)] /\
  shape (PhysicalRecords 10
           (NewReader (WriteLog [repeat Byte.x00 (Z.to_nat 1000);
                                 repeat Byte.x00 (Z.to_nat 97270);
                                 repeat Byte.x00 (Z.to_nat 8000)]) false true 0))
    <> [(kFullType, 1000); (kFirstType, 32761); (kMiddleType, 32761); (kLastType, 31748);
        (kFullType, 8000)].
Proof.
  match goal with |- ?a = ?b /\ _ => assert (E : a = b) by (vm_compute; reflexivity) end.
  split; [exact E|]. rewrite E. discriminate.
Qed.

(** C4, amended: for all payloads of sizes 1000, 97270 and 8000 appended
    to a fresh writer, the file holds the physical records [Full(1000)],
    then the second payload as [First(31754)], [Middle(32761)],
    [Last(32755)] (its first fragment fills the rest of the first block),
    then [Full(8000)] (after a 6-byte trailer); reading the file back from
    offset 0 yields exactly the three payloads in order, then end of file. *)
Theorem WAL_fragmentation p1 p2 p3 reporter checksum :
  Z.of_nat (List.length p1) = 1000 ->
  Z.of_nat (List.length p2) = 97270 ->
  Z.of_nat (List.length p3) = 8000 ->
  (exists fs2,
     PhysicalRecords 10 (NewReader (WriteLog [p1; p2; p3]) reporter checksum 0)
       = [(kFullType, p1)] ++ fs2 ++ [(kFullType, p3)] /\
     frags true p2 fs2 /\
     shape fs2 = [(kFirstType, 31754); (kMiddleType, 32761); (kLastType, 32755)]) /\
  (exists r,
     ReadRecords 4 (NewReader (WriteLog [p1; p2; p3]) reporter checksum 0)
       = Some (r, [Some p1; Some p2; Some p3; None]) /\ reports r = []).
Proof.
  intros H1 H2 H3. split.
  - destruct (AddRecord_loop_spec (List.length p1 + 2) NewWriter p1 true [] Inv_W_NewWriter)
      as (fs1 & HW1 & Hf1 & Hs1 & Hb1).
    { cbn [block_offset_ NewWriter]. destruct (_ =? _)%Z; lia. }
    change (AddRecord_loop (List.length p1 + 2) NewWriter p1 true)
      with (AddRecord NewWriter p1) in HW1, Hb1.
    cbn [block_offset_ NewWriter] in Hs1, Hb1. rewrite H1 in Hs1, Hb1.
    replace (List.length p1 + 2)%nat with (Z.to_nat 1000 + 2)%nat in Hs1, Hb1 by lia.
    rewrite frag_shape_1000 in Hs1, Hb1. cbn [fst snd app] in Hs1, Hb1, HW1.
    destruct (AddRecord_loop_spec (List.length p2 + 2) (AddRecord NewWriter p1) p2 true fs1 HW1)
      as (fs2 & HW2 & Hf2 & Hs2 & Hb2).
    { rewrite Hb1, (proj2 (Z.eqb_neq _ _)) by (unfold kBlockSize, kHeaderSize; lia). lia. }
    change (AddRecord_loop (List.length p2 + 2) (AddRecord NewWriter p1) p2 true)
      with (AddRecord (AddRecord NewWriter p1) p2) in HW2, Hb2.
    rewrite Hb1, H2 in Hs2, Hb2.
    replace (List.length p2 + 2)%nat with (Z.to_nat 97270 + 2)%nat in Hs2, Hb2 by lia.
    rewrite frag_shape_97270 in Hs2, Hb2. cbn [fst snd] in Hs2, Hb2.
    destruct (AddRecord_loop_spec (List.length p3 + 2) _ p3 true (fs1 ++ fs2) HW2)
      as (fs3 & HW3 & Hf3 & Hs3 & Hb3).
    { rewrite Hb2, (proj2 (Z.eqb_neq _ _)) by (unfold kBlockSize, kHeaderSize; lia). lia. }
    rewrite Hb2, H3 in Hs3.
    replace (List.length p3 + 2)%nat with (Z.to_nat 8000 + 2)%nat in Hs3 by lia.
    rewrite frag_shape_8000 in Hs3. cbn [fst] in Hs3.
    change (AddRecord_loop (List.length p3 + 2) (AddRecord (AddRecord NewWriter p1) p2) p3 true)
      with (AddRecord (AddRecord (AddRecord NewWriter p1) p2) p3) in HW3.
    destruct fs1 as [|x1 [|]]; try discriminate Hs1.
    destruct fs3 as [|x3 [|]]; try discriminate Hs3.
    apply frags_single in Hf1, Hf3. subst x1 x3.
    exists fs2. split; [|split; assumption].
    apply PhysicalRecords_log.
    + apply Inv_R_NewReader. apply Inv_W_log_blocks.
      unfold WriteLog. cbn [fold_left]. rewrite <- app_assoc in HW3. exact HW3.
    + apply (f_equal (@List.length _)) in Hs2. unfold shape in Hs2.
      rewrite length_map in Hs2. cbn [List.length] in Hs2 |- *.
      rewrite !length_app. cbn [List.length]. lia.
  - exact (log_roundtrip [p1; p2; p3] reporter checksum).
Qed.

Lemma WAL_fragmentation_witness :
  (Z.of_nat (List.length (repeat Byte.x00 (Z.to_nat 1000))) = 1000 /\
   Z.of_nat (List.length (repeat Byte.x00 (Z.to_nat 97270))) = 97270 /\
   Z.of_nat (List.length (repeat Byte.x00 (Z.to_nat 8000))) = 8000) /\
  ((exists fs2,
     PhysicalRecords 10 (NewReader (WriteLog [repeat Byte.x00 (Z.to_nat 1000);
                                              repeat Byte.x00 (Z.to_nat 97270);
                                              repeat Byte.x00 (Z.to_nat 8000)]) false true 0)
       = [(kFullType, repeat Byte.x00 (Z.to_nat 1000))] ++ fs2
         ++ [(kFullType, repeat Byte.x00 (Z.to_nat 8000))] /\
     frags true (repeat Byte.x00 (Z.to_nat 97270)) fs2 /\
     shape fs2 = [(kFirstType, 31754); (kMiddleType, 32761); (kLastType, 32755)]) /\
   (exists r,
     ReadRecords 4 (NewReader (WriteLog [repeat Byte.x00 (Z.to_nat 1000);
                                         repeat Byte.x00 (Z.to_nat 97270);
                                         repeat Byte.x00 (Z.to_nat 8000)]) false true 0)
       = Some (r, [Some (repeat Byte.x00 (Z.to_nat 1000)); Some (repeat Byte.x00 (Z.to_nat 97270));
                   Some (repeat Byte.x00 (Z.to_nat 8000)); None]) /\ reports r = [])).
Proof.
  assert (H1 : Z.of_nat (List.length (repeat Byte.x00 (Z.to_nat 1000))) = 1000)
    by (rewrite repeat_length; lia).
  assert (H2 : Z.of_nat (List.length (repeat Byte.x00 (Z.to_nat 97270))) = 97270)
    by (rewrite repeat_length; lia).
  assert (H3 : Z.of_nat (List.length (repeat Byte.x00 (Z.to_nat 8000))) = 8000)
    by (rewrite repeat_length; lia).
  split; [split; [exact H1|split; [exact H2|exact H3]]|].
  exact (WAL_fragmentation _ _ _ false true H1 H2 H3).
Defined.

(** C5, as stated, fails: a [First] record with an empty fragment puts
    the reader in the fragmented state with an empty [scratch]; the [Full]
    record that follows is then returned without any report. *)
Lemma fragmented_state_counterexample :
  PhysicalRecords 3
    (NewReader (dest_ (EmitPhysicalRecord (EmitPhysicalRecord NewWriter kFirstType [])
                         kFullType [Byte.x78])) true true 0)
    = [(kFirstType, []); (kFullType, [Byte.x78])] /\
  match ReadRecords 1
          (NewReader (dest_ (EmitPhysicalRecord (EmitPhysicalRecord NewWriter kFirstType [])
                               kFullType [Byte.x78])) true true 0) with
  | Some (r, xs) => xs = [Some [Byte.x78]] /\ reports r = []
  | None => False
  end.
Proof. vm_compute. split; [reflexivity|split; reflexivity]. Qed.

(** C5, amended: when [ReadRecord]'s loop is in the fragmented state and
    the next physical record is [Full] or [First], a "partial record
    without end" corruption is reported (to the reporter, subject to the
    initial-offset filter of [ReportDrop]) exactly when the partial
    record [scratch] is non-empty; then the [Full] record is returned, or
    the [First] fragment starts a new record. *)
Theorem ReadRecord_fragmented_Full_First fuel r r1 t frag scratch pro :
  ReadPhysicalRecord r = Some (r1, t, frag) ->
  t = kFullType \/ t = kFirstType ->
  let off := u64 (end_of_buffer_offset_ r1 - Z.of_nat (List.length (buffer_ r1)) - kHeaderSize
                  - Z.of_nat (List.length frag)) in
  exists r',
    reports r' = reports r1 ++
      (if negb (Nat.eqb (List.length scratch) 0) && reporter_ r1 &&
          (initial_offset_ r1 <=? u64 (end_of_buffer_offset_ r1 - Z.of_nat (List.length (buffer_ r1))
                                       - Z.of_nat (List.length scratch)))
       then [(Z.of_nat (List.length scratch),
              if t =? kFullType then "partial record without end(1)"%string
              else "partial record without end(2)"%string)]
       else []) /\
    ReadRecord_loop (S fuel) r scratch true pro =
      (if t =? kFullType then Some (r', Some frag) else ReadRecord_loop fuel r' frag true off).
Proof.
  intros H Ht off. cbn [ReadRecord_loop]. rewrite H.
  destruct Ht as [->| ->]; eval_type_tests; rewrite !andb_false_r;
    (eexists; split; [|reflexivity]);
    destruct (Nat.eqb (List.length scratch) 0); cbn [negb andb];
    unfold ReportCorruption, ReportDrop;
    destruct (resyncing_ r1);
    cbn [reporter_ initial_offset_ end_of_buffer_offset_ buffer_ set_resyncing
         set_last_record_offset reports];
    try (rewrite app_nil_r; reflexivity);
    destruct (reporter_ r1 && _); cbn [reports add_report set_last_record_offset];
    rewrite ?app_nil_r; reflexivity.
Qed.

Lemma ReadRecord_fragmented_Full_First_witness :
  let r := NewReader (dest_ (EmitPhysicalRecord NewWriter kFullType [Byte.x78])) true true 0 in
  match ReadPhysicalRecord r with
  | Some (r1, t, frag) =>
      (ReadPhysicalRecord r = Some (r1, t, frag) /\ (t = kFullType \/ t = kFirstType)) /\
      let off := u64 (end_of_buffer_offset_ r1 - Z.of_nat (List.length (buffer_ r1)) - kHeaderSize
                      - Z.of_nat (List.length frag)) in
      exists r',
        reports r' = reports r1 ++
          (if negb (Nat.eqb (List.length [Byte.x61]) 0) && reporter_ r1 &&
              (initial_offset_ r1 <=? u64 (end_of_buffer_offset_ r1 - Z.of_nat (List.length (buffer_ r1))
                                           - Z.of_nat (List.length [Byte.x61])))
           then [(Z.of_nat (List.length [Byte.x61]),
                  if t =? kFullType then "partial record without end(1)"%string
                  else "partial record without end(2)"%string)]
           else []) /\
        ReadRecord_loop 1 r [Byte.x61] true 0 =
          (if t =? kFullType then Some (r', Some frag) else ReadRecord_loop 0 r' frag true off)
  | None => False
  end.
Proof.
  intros r.
  destruct (ReadPhysicalRecord r) as [[[r1 t] frag]|] eqn:E; [|vm_compute in E; discriminate].
  assert (Ht : t = kFullType \/ t = kFirstType).
  { left. vm_compute in E. injection E as _ Et _. symmetry. exact Et. }
  split; [split; [reflexivity|exact Ht]|].
  exact (ReadRecord_fragmented_Full_First 0 r r1 t frag [Byte.x61] 0 E Ht).
Defined.


End LogClaims.

(** ** The memtable and internal keys *)
Module MemTableFacts.
Import Coding CodingFacts Status Comparator DBFormat MemTable.

(** C2: after adding (10, Value, "k", "v1"), (20, Value, "k", "v2") and
    (30, Deletion, "k", "") to an empty memtable over the bytewise
    comparator, [Get] at sequence 25 finds "v2", at sequence 35 returns
    [true] with a [NotFound] status (the tombstone), and at sequence 5
    returns [false] (the key is absent), leaving [value] and [s]. *)
Theorem memtable_shadowing (value : bytes) (s : Status) :
  let m := Add (Add (Add (NewMemTable BytewiseComparator)
                         10 kTypeValue (list_byte_of_string "k") (list_byte_of_string "v1"))
                    20 kTypeValue (list_byte_of_string "k") (list_byte_of_string "v2"))
               30 kTypeDeletion (list_byte_of_string "k") [] in
  Get m (NewLookupKey (list_byte_of_string "k") 25) value s
    = (true, list_byte_of_string "v2", s) /\
  Get m (NewLookupKey (list_byte_of_string "k") 35) value s
    = (true, value, NotFound ""%string) /\
  Get m (NewLookupKey (list_byte_of_string "k") 5) value s = (false, value, s).
Proof. vm_compute. split; [reflexivity|split; reflexivity]. Qed.

Lemma pack_value s t :
  0 <= s <= kMaxSequenceNumber -> 0 <= t < 256 -> PackSequenceAndType s t = s * 256 + t.
Proof.
  intros Hs Ht. unfold PackSequenceAndType, u64, kMaxSequenceNumber in *.
  assert (H0 : Z.land (Z.shiftl s 8) t = 0).
  { rewrite <- (land_ones_small t 8) by lia. Z.bitblast.
    rewrite (Z.testbit_neg_r s l) by lia. reflexivity. }
  assert (E : Z.lor (Z.shiftl s 8) t = Z.shiftl s 8 + t).
  { rewrite Z.add_nocarry_lxor, Z.lxor_lor by exact H0. reflexivity. }
  rewrite E, Z.shiftl_mul_pow2 by lia.
  rewrite Z.mod_small; lia.
Qed.

Lemma PackSequenceAndType_range s t : 0 <= PackSequenceAndType s t < 2 ^ 64.
Proof. unfold PackSequenceAndType, u64. apply Z.mod_pos_bound. lia. Qed.

Lemma AppendInternalKey_nil k :
  AppendInternalKey [] k = user_key k ++ EncodeFixed64 (PackSequenceAndType (sequence k) (type k)).
Proof. reflexivity. Qed.

Lemma ExtractUserKey_Append k : ExtractUserKey (AppendInternalKey [] k) = user_key k.
Proof.
  rewrite AppendInternalKey_nil. unfold ExtractUserKey.
  rewrite length_app. change (List.length (EncodeFixed64 _)) with 8%nat.
  replace (List.length (user_key k) + 8 - 8)%nat with (List.length (user_key k)) by lia.
  rewrite firstn_app, Nat.sub_diag, firstn_all, firstn_O, app_nil_r. reflexivity.
Qed.

Lemma tag_Append k :
  DecodeFixed64 (skipn (List.length (AppendInternalKey [] k) - 8) (AppendInternalKey [] k))
  = PackSequenceAndType (sequence k) (type k).
Proof.
  rewrite AppendInternalKey_nil.
  rewrite length_app. change (List.length (EncodeFixed64 _)) with 8%nat.
  replace (List.length (user_key k) + 8 - 8)%nat with (List.length (user_key k)) by lia.
  rewrite skipn_app, Nat.sub_diag, skipn_all, skipn_O. cbn [app].
  rewrite <- (app_nil_r (EncodeFixed64 _)), Decode_Encode_Fixed64.
  unfold ones64. apply land_ones_small; [lia|apply PackSequenceAndType_range].
Qed.

(** The internal key comparator on encoded internal keys: by user key,
    then by descending tag. *)
Lemma Compare_Append user_comparator ka kb :
  InternalKeyComparator_Compare user_comparator (AppendInternalKey [] ka) (AppendInternalKey [] kb)
  = let r := user_comparator (user_key ka) (user_key kb) in
    let anum := PackSequenceAndType (sequence ka) (type ka) in
    let bnum := PackSequenceAndType (sequence kb) (type kb) in
    if r =? 0 then (if bnum <? anum then -1 else if anum <? bnum then 1 else r) else r.
Proof.
  unfold InternalKeyComparator_Compare. rewrite !ExtractUserKey_Append, !tag_Append.
  reflexivity.
Qed.

(** C3: for internal keys whose user keys compare equal under any user
    comparator, the key with the larger sequence number sorts strictly
    first; in general the order is the user comparator's, then
    descending by the packed (sequence, type) tag. *)
Theorem internal_key_order user_comparator ua ub sa sb ta tb :
  user_comparator ua ub = 0 ->
  0 <= sb -> sb < sa -> sa <= kMaxSequenceNumber ->
  0 <= ta < 256 -> 0 <= tb < 256 ->
  InternalKeyComparator_Compare user_comparator
    (AppendInternalKey [] (mkParsedInternalKey ua sa ta))
    (AppendInternalKey [] (mkParsedInternalKey ub sb tb)) < 0 /\
  (forall ka kb,
     InternalKeyComparator_Compare user_comparator (AppendInternalKey [] ka) (AppendInternalKey [] kb)
     = let r := user_comparator (user_key ka) (user_key kb) in
       let anum := PackSequenceAndType (sequence ka) (type ka) in
       let bnum := PackSequenceAndType (sequence kb) (type kb) in
       if r =? 0 then (if bnum <? anum then -1 else if anum <? bnum then 1 else r) else r).
Proof.
  intros Hu Hsb Hlt Hsa Hta Htb. split; [|intros; apply Compare_Append].
  rewrite Compare_Append. cbn [user_key sequence type]. rewrite Hu, Z.eqb_refl.
  rewrite !pack_value by (unfold kMaxSequenceNumber in *; lia).
  destruct (Z.ltb_spec (sb * 256 + tb) (sa * 256 + ta)); lia.
Qed.

Lemma internal_key_order_witness :
  (Comparator.BytewiseComparator (list_byte_of_string "k") (list_byte_of_string "k") = 0 /\
   0 <= 20 /\ 20 < 30 /\ 30 <= kMaxSequenceNumber /\ 0 <= kTypeValue < 256 /\
   0 <= kTypeDeletion < 256) /\
  (InternalKeyComparator_Compare Comparator.BytewiseComparator
     (AppendInternalKey [] (mkParsedInternalKey (list_byte_of_string "k") 30 kTypeValue))
     (AppendInternalKey [] (mkParsedInternalKey (list_byte_of_string "k") 20 kTypeDeletion)) < 0 /\
   (forall ka kb,
      InternalKeyComparator_Compare Comparator.BytewiseComparator
        (AppendInternalKey [] ka) (AppendInternalKey [] kb)
      = let r := Comparator.BytewiseComparator (user_key ka) (user_key kb) in
        let anum := PackSequenceAndType (sequence ka) (type ka) in
        let bnum := PackSequenceAndType (sequence kb) (type kb) in
        if r =? 0 then (if bnum <? anum then -1 else if anum <? bnum then 1 else r) else r)).
Proof.
  assert (H1 : Comparator.BytewiseComparator (list_byte_of_string "k") (list_byte_of_string "k") = 0)
    by reflexivity.
  assert (H2 : 30 <= kMaxSequenceNumber) by (unfold kMaxSequenceNumber; lia).
  assert (H3 : 0 <= kTypeValue < 256) by (unfold kTypeValue; lia).
  assert (H4 : 0 <= kTypeDeletion < 256) by (unfold kTypeDeletion; lia).
  split; [repeat split; try lia; assumption|].
  apply (internal_key_order _ _ _ 30 20 kTypeValue kTypeDeletion H1); lia.
Defined.

End MemTableFacts.

(** ** Block handles and the footer *)
Module FormatFacts.
Import Coding CodingFacts Status Format.

Lemma EncodeVarint64_loop_length f v n :
  0 <= v -> v < 2 ^ (7 * Z.of_nat n) -> (1 <= n)%nat ->
  (List.length (EncodeVarint64_loop f v) <= n)%nat.
Proof.
  revert v n. induction f as [|f IH]; intros v n Hv Hn H1; cbn [EncodeVarint64_loop].
  - cbn. lia.
  - destruct (Z.geb_spec v B) as [HB|HB]; cbn [List.length]; [|lia].
    unfold B in HB.
    destruct n as [|[|n]]; [lia| |].
    + exfalso. cbn in Hn. lia.
    + assert (Hs : 0 <= Z.shiftr v 7 < 2 ^ (7 * Z.of_nat (S n))).
      { rewrite Z.shiftr_div_pow2 by lia. split; [apply Z.div_pos; lia|].
        apply Z.div_lt_upper_bound; [lia|].
        rewrite <- Z.pow_add_r by lia. replace (7 + 7 * Z.of_nat (S n)) with (7 * Z.of_nat (S (S n))) by lia.
        exact Hn. }
      specialize (IH (Z.shiftr v 7) (S n) (proj1 Hs) (proj2 Hs) ltac:(lia)). lia.
Qed.

Lemma EncodeVarint64_length v : 0 <= v < 2 ^ 64 -> (List.length (EncodeVarint64 v) <= 10)%nat.
Proof.
  intros Hv. apply EncodeVarint64_loop_length; [lia| |lia].
  apply (Z.lt_le_trans _ (2 ^ 64)); [lia|]. apply Z.pow_le_mono_r; lia.
Qed.

Definition well_formed_handle (h : BlockHandle) : Prop :=
  0 <= offset_ h < ones64 /\ 0 <= size_ h < ones64.

Lemma BlockHandle_roundtrip h h0 rest :
  well_formed_handle h ->
  BlockHandle_DecodeFrom h0 (BlockHandle_EncodeTo h [] ++ rest) = (h, rest, OK).
Proof.
  destruct h as [o s]. unfold well_formed_handle, ones64. cbn [offset_ size_]. intros [Ho Hs].
  rewrite Z.ones_equiv, <- Z.sub_1_r in Ho, Hs.
  unfold BlockHandle_DecodeFrom, BlockHandle_EncodeTo, PutVarint64. cbn [app offset_ size_].
  rewrite <- app_assoc, GetVarint64_Encode by lia.
  rewrite GetVarint64_Encode by lia. reflexivity.
Qed.

Lemma BlockHandle_EncodeTo_length h :
  well_formed_handle h -> (List.length (BlockHandle_EncodeTo h []) <= 20)%nat.
Proof.
  destruct h as [o s]. unfold well_formed_handle, ones64. cbn [offset_ size_]. intros [Ho Hs].
  rewrite Z.ones_equiv, <- Z.sub_1_r in Ho, Hs.
  unfold BlockHandle_EncodeTo, PutVarint64. cbn [app offset_ size_]. rewrite length_app.
  pose proof (EncodeVarint64_length o ltac:(lia)).
  pose proof (EncodeVarint64_length s ltac:(lia)). lia.
Qed.

Lemma BlockHandle_EncodeTo_app h dst : BlockHandle_EncodeTo h dst = dst ++ BlockHandle_EncodeTo h [].
Proof. unfold BlockHandle_EncodeTo, PutVarint64. cbn [app]. rewrite <- !app_assoc. reflexivity. Qed.

Definition well_formed_footer (f : Footer) : Prop :=
  well_formed_handle (metaindex_handle_ f) /\ well_formed_handle (index_handle_ f).

(** The two magic words [Footer::EncodeTo] appends. *)
Definition magic_bytes : bytes :=
  EncodeFixed32 (u32 (Z.land kTableMagicNumber 4294967295))
    ++ EncodeFixed32 (u32 (Z.shiftr kTableMagicNumber 32)).

Lemma Footer_EncodeTo_eq f :
  well_formed_footer f ->
  let hs := BlockHandle_EncodeTo (metaindex_handle_ f) [] ++ BlockHandle_EncodeTo (index_handle_ f) [] in
  Footer_EncodeTo f [] = hs ++ repeat Byte.x00 (40 - List.length hs) ++ magic_bytes /\
  (List.length hs <= 40)%nat.
Proof.
  intros [Hm Hi] hs.
  pose proof (BlockHandle_EncodeTo_length _ Hm). pose proof (BlockHandle_EncodeTo_length _ Hi).
  assert (Hl : (List.length hs <= 40)%nat) by (unfold hs; rewrite length_app; lia).
  split; [|exact Hl].
  unfold Footer_EncodeTo. rewrite (BlockHandle_EncodeTo_app (index_handle_ f)). cbn [app].
  fold hs. unfold resize, PutFixed32, magic_bytes. cbn [kMaxEncodedLength Nat.mul Nat.add].
  rewrite firstn_all2 by lia. rewrite <- !app_assoc. reflexivity.
Qed.

Lemma skipn_Fixed32 v rest : skipn 4 (EncodeFixed32 v ++ rest) = rest.
Proof. reflexivity. Qed.

Lemma magic_bytes_length : List.length magic_bytes = 8%nat.
Proof. reflexivity. Qed.

Lemma magic_of_bytes :
  Z.lor (Z.shiftl (Z.land (u32 (Z.shiftr kTableMagicNumber 32)) ones32) 32)
        (Z.land (u32 (Z.land kTableMagicNumber 4294967295)) ones32) = kTableMagicNumber.
Proof. vm_compute. reflexivity. Qed.

Lemma Footer_roundtrip f f0 :
  well_formed_footer f ->
  List.length (Footer_EncodeTo f []) = kEncodedLength /\
  Footer_DecodeFrom f0 (Footer_EncodeTo f []) = (f, [], OK).
Proof.
  intros Hf. destruct (Footer_EncodeTo_eq f Hf) as [E Hl].
  set (hs := BlockHandle_EncodeTo (metaindex_handle_ f) [] ++ BlockHandle_EncodeTo (index_handle_ f) [])
    in *.
  rewrite E.
  assert (Hlen : List.length (hs ++ repeat Byte.x00 (40 - List.length hs) ++ magic_bytes) = 48%nat).
  { rewrite !length_app, repeat_length, magic_bytes_length. lia. }
  split; [exact Hlen|].
  unfold Footer_DecodeFrom.
  assert (Hm : skipn (kEncodedLength - 8) (hs ++ repeat Byte.x00 (40 - List.length hs) ++ magic_bytes)
               = magic_bytes).
  { rewrite app_assoc, skipn_app.
    change (kEncodedLength - 8)%nat with 40%nat.
    rewrite skipn_all2 by (rewrite length_app, repeat_length; lia).
    rewrite length_app, repeat_length. cbn [app].
    replace (40 - (List.length hs + (40 - List.length hs)))%nat with O by lia.
    reflexivity. }
  rewrite Hm. unfold magic_bytes at 1 2.
  rewrite skipn_Fixed32, Decode_Encode_Fixed32.
  rewrite <- (app_nil_r (EncodeFixed32 (u32 (Z.shiftr kTableMagicNumber 32)))).
  rewrite Decode_Encode_Fixed32, magic_of_bytes, Z.eqb_refl. cbn [negb].
  destruct Hf as [Hmh Hih].
  unfold hs. rewrite <- app_assoc, BlockHandle_roundtrip by exact Hmh. cbn [ok metaindex_handle_ index_handle_].
  rewrite BlockHandle_roundtrip by exact Hih. cbn [ok].
  rewrite skipn_all2.
  - destruct f. reflexivity.
  - change kEncodedLength with 48%nat. subst hs. rewrite <- app_assoc in Hlen. lia.
Qed.

Lemma byte_to_Z_ones b : byte_to_Z b = Z.land (byte_to_Z b) (Z.ones 8).
Proof.
  pose proof (byte_to_Z_range b). rewrite Z.land_ones, Z.mod_small by lia. reflexivity.
Qed.

Lemma Encode_Decode_Fixed64_bytes t :
  List.length t = 8%nat -> EncodeFixed64 (DecodeFixed64 t) = t.
Proof.
  intros Hl.
  destruct t as [|b0 [|b1 [|b2 [|b3 [|b4 [|b5 [|b6 [|b7 [|? ?]]]]]]]]]; try discriminate Hl.
  unfold EncodeFixed64, DecodeFixed64, DecodeFixed32, byte_at. cbn [nth skipn].
  repeat match goal with
  | |- [Z_to_byte ?x] = [?b] =>
      f_equal; transitivity (Z_to_byte (byte_to_Z b)); [apply Z_to_byte_eq|apply Z_to_byte_of]
  | |- Z_to_byte ?x :: _ = ?b :: _ =>
      f_equal; [transitivity (Z_to_byte (byte_to_Z b)); [apply Z_to_byte_eq|apply Z_to_byte_of]|]
  end.
  all: rewrite (byte_to_Z_ones b0), (byte_to_Z_ones b1), (byte_to_Z_ones b2), (byte_to_Z_ones b3),
         (byte_to_Z_ones b4), (byte_to_Z_ones b5), (byte_to_Z_ones b6), (byte_to_Z_ones b7).
  all: change 255 with (Z.ones 8); Z.bitblast.
Qed.

Lemma magic_bytes_eq : magic_bytes = EncodeFixed64 kTableMagicNumber.
Proof. vm_compute. reflexivity. Qed.

Lemma Footer_bad_magic f0 input :
  skipn (kEncodedLength - 8) input <> EncodeFixed64 kTableMagicNumber ->
  List.length input = kEncodedLength ->
  Footer_DecodeFrom f0 input = (f0, input, Corruption "not an sstable (bad magic number)"%string).
Proof.
  intros Hne Hl. unfold Footer_DecodeFrom.
  fold (DecodeFixed64 (skipn (kEncodedLength - 8) input)).
  destruct (Z.eqb_spec (DecodeFixed64 (skipn (kEncodedLength - 8) input)) kTableMagicNumber) as [E|E].
  - exfalso. apply Hne. rewrite <- E. symmetry. apply Encode_Decode_Fixed64_bytes.
    rewrite length_skipn, Hl. reflexivity.
  - reflexivity.
Qed.

(** Claim C7: for every well-formed block handle [h] (neither field is the
    all-ones "unset" value), decoding its varint encoding recovers [h] and
    leaves the following bytes; for every well-formed footer [f], its encoding
    is exactly [kEncodedLength] = 48 bytes and decoding it recovers [f] with
    status OK; and every 48-byte input whose last 8 bytes are not the
    little-endian encoding of [kTableMagicNumber] decodes to a Corruption
    status. *)
Theorem footer_blockhandle_codec h h0 rest f f0 :
  well_formed_handle h -> well_formed_footer f ->
  BlockHandle_DecodeFrom h0 (BlockHandle_EncodeTo h [] ++ rest) = (h, rest, OK) /\
  kEncodedLength = 48%nat /\
  List.length (Footer_EncodeTo f []) = kEncodedLength /\
  Footer_DecodeFrom f0 (Footer_EncodeTo f []) = (f, [], OK) /\
  (forall input, List.length input = kEncodedLength ->
     skipn (kEncodedLength - 8) input <> EncodeFixed64 kTableMagicNumber ->
     exists msg, Footer_DecodeFrom f0 input = (f0, input, Corruption msg)).
Proof.
  intros Hh Hf.
  destruct (Footer_roundtrip f f0 Hf) as [Hl Hr].
  split; [apply BlockHandle_roundtrip; exact Hh|].
  split; [reflexivity|].
  split; [exact Hl|].
  split; [exact Hr|].
  intros input Hlen Hne. eexists. apply Footer_bad_magic; assumption.
Qed.

Lemma footer_blockhandle_codec_witness :
  let h := mkBlockHandle 4096 512 in
  let f := mkFooter h (mkBlockHandle 0 4096) in
  (well_formed_handle h /\ well_formed_footer f) /\
  (BlockHandle_DecodeFrom NewBlockHandle (BlockHandle_EncodeTo h [] ++ []) = (h, [], OK) /\
   kEncodedLength = 48%nat /\
   List.length (Footer_EncodeTo f []) = kEncodedLength /\
   Footer_DecodeFrom NewFooter (Footer_EncodeTo f []) = (f, [], OK) /\
   (forall input, List.length input = kEncodedLength ->
      skipn (kEncodedLength - 8) input <> EncodeFixed64 kTableMagicNumber ->
      exists msg, Footer_DecodeFrom NewFooter input = (NewFooter, input, Corruption msg))).
Proof.
  intros h f.
  assert (Hw : well_formed_handle h /\ well_formed_footer f).
  { unfold well_formed_footer, well_formed_handle, ones64; cbn; lia. }
  split; [exact Hw|].
  apply (footer_blockhandle_codec h NewBlockHandle [] f NewFooter); apply Hw.
Defined.

End FormatFacts.

(** ** Restart points of a block *)
Module BlockFacts.
Import Coding BlockBuilder.

Lemma StronglySorted_snoc (l : list Z) a :
  StronglySorted Z.lt l -> Forall (fun x => x < a) l -> StronglySorted Z.lt (l ++ [a]).
Proof.
  induction l as [|x l IH]; intros Hs Hf; cbn.
  - repeat constructor.
  - inversion Hs; subst. inversion Hf; subst. constructor.
    + apply IH; assumption.
    + apply Forall_app. split; [assumption|]. constructor; [assumption|constructor].
Qed.

Lemma EncodeVarint32_zero : EncodeVarint32 (u32 (Z.of_nat 0)) = [Byte.x00].
Proof. reflexivity. Qed.

Lemma Add_buffer interval b k v : exists t, buffer_ (Add interval b k v) = buffer_ b ++ t.
Proof.
  unfold Add.
  destruct (counter_ b <? interval); cbn [buffer_]; unfold PutVarint32;
    eexists; rewrite <- !app_assoc; reflexivity.
Qed.

Lemma AddAll_buffer interval kvs : forall b, exists t, buffer_ (AddAll interval b kvs) = buffer_ b ++ t.
Proof.
  induction kvs as [|[k v] kvs IH]; intros b.
  - exists []. rewrite app_nil_r. reflexivity.
  - unfold AddAll in *. cbn [fold_left fst snd].
    destruct (IH (Add interval b k v)) as [t2 E2]. destruct (Add_buffer interval b k v) as [t1 E1].
    rewrite E2, E1, <- app_assoc. eexists. reflexivity.
Qed.

(** The invariant after at least one [Add]: the restarts are strictly
    increasing, and each one is the offset of an entry whose first byte (the
    varint32 [shared]) is zero. *)
Definition restarts_ok (interval : Z) (b : BlockBuilder) (E : list Z) : Prop :=
  1 <= counter_ b <= interval /\
  StronglySorted Z.lt (restarts_ b) /\
  Forall (fun r => In r E /\ 0 <= r /\ nth_error (buffer_ b) (Z.to_nat r) = Some Byte.x00)
    (restarts_ b).

Lemma Add_restarts_ok interval b k v E :
  1 <= interval ->
  Z.of_nat (List.length (buffer_ b)) < 2 ^ 32 ->
  (b = NewBlockBuilder /\ E = [] \/ restarts_ok interval b E) ->
  restarts_ok interval (Add interval b k v) (E ++ [Z.of_nat (List.length (buffer_ b))]).
Proof.
  intros Hi Hb [[-> ->]|(Hc & Hs & Hf)].
  - unfold Add, NewBlockBuilder. cbn [counter_ last_key_ restarts_ buffer_].
    replace (0 <? interval) with true by (symmetry; apply Z.ltb_lt; lia).
    cbn [shared_prefix]. unfold restarts_ok. cbn [counter_ restarts_ buffer_].
    split; [lia|]. split; [repeat constructor|].
    repeat constructor. lia.
  - unfold Add. destruct (Z.ltb_spec (counter_ b) interval) as [Hlt|Hge].
    + unfold restarts_ok. cbn [counter_ restarts_ buffer_].
      split; [lia|]. split; [assumption|].
      eapply Forall_impl; [|exact Hf]. cbn beta.
      intros r (Hin & Hr & Hn). split; [apply in_or_app; left; exact Hin|].
      split; [exact Hr|]. unfold PutVarint32. rewrite <- !app_assoc.
      rewrite nth_error_app1; [exact Hn|]. apply nth_error_Some. congruence.
    + unfold restarts_ok. cbn [counter_ restarts_ buffer_].
      unfold u32. rewrite Z.mod_small by lia.
      split; [lia|]. split.
      * apply StronglySorted_snoc; [assumption|].
        eapply Forall_impl; [|exact Hf]. cbn beta. intros r (_ & Hr & Hn).
        assert (Hlt : (Z.to_nat r < List.length (buffer_ b))%nat) by (apply nth_error_Some; congruence).
        lia.
      * apply Forall_app. split.
        -- eapply Forall_impl; [|exact Hf]. cbn beta.
           intros r (Hin & Hr & Hn). split; [apply in_or_app; left; exact Hin|].
           split; [exact Hr|]. unfold PutVarint32. rewrite <- !app_assoc.
           rewrite nth_error_app1; [exact Hn|]. apply nth_error_Some. congruence.
        -- constructor; [|constructor].
           split; [apply in_or_app; right; left; reflexivity|]. split; [lia|].
           unfold PutVarint32. rewrite EncodeVarint32_zero, <- !app_assoc.
           rewrite nth_error_app2 by lia. rewrite Nat2Z.id, Nat.sub_diag. reflexivity.
Qed.

Lemma AddAll_restarts_ok interval kvs :
  1 <= interval ->
  forall b E k v,
  (b = NewBlockBuilder /\ E = [] \/ restarts_ok interval b E) ->
  Z.of_nat (List.length (buffer_ (AddAll interval b ((k, v) :: kvs)))) < 2 ^ 32 ->
  restarts_ok interval (AddAll interval b ((k, v) :: kvs)) (E ++ entry_offsets interval b ((k, v) :: kvs)).
Proof.
  intros Hi. induction kvs as [|[k' v'] kvs IH]; intros b E k v Hpre Hb.
  - apply Add_restarts_ok; try assumption.
    destruct (Add_buffer interval b k v) as [t Et].
    change (AddAll interval b [(k, v)]) with (Add interval b k v) in Hb.
    rewrite Et, length_app in Hb. lia.
  - change (AddAll interval b ((k, v) :: (k', v') :: kvs))
      with (AddAll interval (Add interval b k v) ((k', v') :: kvs)) in *.
    change (entry_offsets interval b ((k, v) :: (k', v') :: kvs))
      with (Z.of_nat (List.length (buffer_ b)) :: entry_offsets interval (Add interval b k v) ((k', v') :: kvs)).
    replace (E ++ Z.of_nat (List.length (buffer_ b)) :: entry_offsets interval (Add interval b k v) ((k', v') :: kvs))
      with ((E ++ [Z.of_nat (List.length (buffer_ b))]) ++ entry_offsets interval (Add interval b k v) ((k', v') :: kvs))
      by (rewrite <- app_assoc; reflexivity).
    apply IH; [|exact Hb]. right. apply Add_restarts_ok; try assumption.
    destruct (AddAll_buffer interval ((k', v') :: kvs) (Add interval b k v)) as [t2 E2].
    destruct (Add_buffer interval b k v) as [t1 E1].
    rewrite E2, E1, !length_app in Hb. lia.
Qed.

Lemma fold_PutFixed32 rs : forall buf,
  fold_left PutFixed32 rs buf = buf ++ flat_map EncodeFixed32 rs.
Proof.
  induction rs as [|r rs IH]; intros buf; cbn.
  - rewrite app_nil_r. reflexivity.
  - rewrite IH. unfold PutFixed32. rewrite <- app_assoc. reflexivity.
Qed.

Lemma skipn_nth_error {A} (l : list A) : forall n x,
  nth_error l n = Some x -> skipn n l = x :: skipn (S n) l.
Proof.
  induction l as [|y l IH]; intros [|n] x H; cbn in *; try discriminate.
  - injection H as ->. reflexivity.
  - apply IH. exact H.
Qed.

Lemma GetVarint32Ptr_zero rest : GetVarint32Ptr (Byte.x00 :: rest) = Some (0, rest).
Proof. reflexivity. Qed.

(** Claim C6, as the code has it for the empty block: when no entry has been
    added (the metaindex block of a table written without a filter policy),
    [Finish] still records the restart offset 0, and the finished block holds
    no entry at all: offset 0 is the first byte of the restart array. *)
Lemma block_restarts_empty_counterexample :
  let b := AddAll 16 NewBlockBuilder [] in
  restarts_ b = [0] /\
  entry_offsets 16 NewBlockBuilder [] = [] /\
  ~ In 0 (entry_offsets 16 NewBlockBuilder []) /\
  snd (Finish b) = [Byte.x00; Byte.x00; Byte.x00; Byte.x00; Byte.x01; Byte.x00; Byte.x00; Byte.x00].
Proof.
  cbn. split; [reflexivity|]. split; [reflexivity|]. split; [intros []|reflexivity].
Qed.

(** Claim C6 (amended): for every non-empty sequence of [Add] calls, any
    restart interval >= 1 and a buffer that stays below 2^32 bytes (the
    restart offsets are [uint32_t]), the finished block is the entry buffer
    followed by the restart array as fixed32 values and its count; the
    restart array is strictly increasing; and every restart offset is the
    start offset of one of the added entries, where the varint32
    [shared_prefix_len] decodes to 0. The key order is not needed. *)
Theorem block_restarts interval kvs :
  1 <= interval -> kvs <> [] ->
  Z.of_nat (List.length (buffer_ (AddAll interval NewBlockBuilder kvs))) < 2 ^ 32 ->
  let b := AddAll interval NewBlockBuilder kvs in
  let block := snd (Finish b) in
  block = buffer_ b ++ flat_map EncodeFixed32 (restarts_ b)
            ++ EncodeFixed32 (u32 (Z.of_nat (List.length (restarts_ b)))) /\
  Sorted Z.lt (restarts_ b) /\
  Forall (fun r => In r (entry_offsets interval NewBlockBuilder kvs) /\
                   GetVarint32Ptr (skipn (Z.to_nat r) block) = Some (0, skipn (S (Z.to_nat r)) block))
    (restarts_ b).
Proof.
  intros Hi Hne Hb b block.
  destruct kvs as [|[k v] kvs]; [congruence|].
  destruct (AddAll_restarts_ok interval kvs Hi NewBlockBuilder [] k v (or_introl (conj eq_refl eq_refl)) Hb)
    as (_ & Hs & Hf).
  fold b in Hs, Hf.
  assert (Eb : block = buffer_ b ++ flat_map EncodeFixed32 (restarts_ b)
                 ++ EncodeFixed32 (u32 (Z.of_nat (List.length (restarts_ b))))).
  { unfold block, Finish. cbn [snd]. rewrite fold_PutFixed32. unfold PutFixed32.
    rewrite <- app_assoc. reflexivity. }
  split; [exact Eb|]. split; [apply StronglySorted_Sorted; exact Hs|].
  eapply Forall_impl; [|exact Hf]. cbn beta. intros r (Hin & _ & Hn).
  split; [exact Hin|].
  rewrite (skipn_nth_error block (Z.to_nat r) Byte.x00); [reflexivity|].
  rewrite Eb, nth_error_app1; [exact Hn|]. apply nth_error_Some. congruence.
Qed.

Lemma block_restarts_witness :
  let kvs := [(list_byte_of_string "apple", list_byte_of_string "1");
              (list_byte_of_string "apricot", list_byte_of_string "2");
              (list_byte_of_string "banana", list_byte_of_string "3")] in
  (1 <= 2 /\ kvs <> [] /\
   Z.of_nat (List.length (buffer_ (AddAll 2 NewBlockBuilder kvs))) < 2 ^ 32) /\
  (let b := AddAll 2 NewBlockBuilder kvs in
   let block := snd (Finish b) in
   block = buffer_ b ++ flat_map EncodeFixed32 (restarts_ b)
             ++ EncodeFixed32 (u32 (Z.of_nat (List.length (restarts_ b)))) /\
   Sorted Z.lt (restarts_ b) /\
   Forall (fun r => In r (entry_offsets 2 NewBlockBuilder kvs) /\
                    GetVarint32Ptr (skipn (Z.to_nat r) block) = Some (0, skipn (S (Z.to_nat r)) block))
     (restarts_ b)).
Proof.
  intros kvs.
  assert (H : 1 <= 2 /\ kvs <> [] /\
              Z.of_nat (List.length (buffer_ (AddAll 2 NewBlockBuilder kvs))) < 2 ^ 32).
  { split; [lia|]. split; [discriminate|]. vm_compute. reflexivity. }
  split; [exact H|].
  destruct H as (H1 & H2 & H3).
  exact (block_restarts 2 kvs H1 H2 H3).
Defined.

End BlockFacts.

(** ** The LRU cache shard *)
Module CacheFacts.
Import Coding LRU.

(** A shard of capacity 0: nothing is cached, and every live handle is out
    of the cache and below the allocation counter. *)
Definition zero_cap (s : LRUCache) : Prop :=
  capacity_ s = 0 /\ usage_ s = 0 /\ lru_ s = [] /\ in_use_ s = [] /\ table_ s = [] /\
  (forall e x, heap s e = Some x -> in_cache x = false /\ (e < next_id s)%nat).

Lemma zero_cap_New : zero_cap (NewLRUCache 0).
Proof. unfold zero_cap; cbn. repeat split; try reflexivity; discriminate. Qed.

Lemma zero_cap_Insert s key h value charge deleter :
  zero_cap s ->
  Insert s key h value charge deleter =
  (set_heap (set_next_id s (S (next_id s))) (next_id s) (Some (mkLRUHandle value deleter charge key false 1 h)),
   next_id s).
Proof.
  intros (Hc & Hu & Hl & Hi & Ht & Hh). unfold Insert, Insert_entry. cbn [capacity_ set_heap set_next_id].
  rewrite Hc. cbn -[set_heap set_next_id]. unfold set_heap, set_next_id. cbn [lru_]. rewrite Hl. reflexivity.
Qed.

Lemma FindPointer_nil s key h : table_ s = [] -> FindPointer s key h = None.
Proof. intros Ht. unfold FindPointer. rewrite Ht. reflexivity. Qed.

Lemma zero_cap_apply s op : zero_cap s -> zero_cap (apply_op s op).
Proof.
  intros Hz. pose proof Hz as (Hc & Hu & Hl & Hi & Ht & Hh).
  destruct op as [key h value charge deleter|key h|j|key h|]; cbn [apply_op].
  - rewrite zero_cap_Insert by exact Hz. cbn [fst].
    unfold zero_cap, set_heap, set_next_id; cbn.
    do 5 (split; [assumption|]).
    intros e x. destruct (Nat.eqb_spec e (next_id s)) as [->|Hne].
    + intros [= <-]. split; [reflexivity|lia].
    + intros He. specialize (Hh e x He). split; [apply Hh|lia].
  - unfold Lookup, table_Lookup. rewrite FindPointer_nil by exact Ht. exact Hz.
  - unfold Release, Unref. destruct (heap s j) as [x|] eqn:Hj; [|exact Hz].
    destruct (Hh j x Hj) as [Hx Hjn].
    cbn [refs set_refs in_cache]. destruct (u32 (refs x - 1) =? 0).
    + unfold zero_cap, set_heap, call_deleter; cbn.
      do 5 (split; [assumption|]).
      intros e y. destruct (Nat.eqb e j); [discriminate|]. apply Hh.
    + rewrite Hx. cbn [andb].
      unfold zero_cap, set_heap; cbn.
      do 5 (split; [assumption|]).
      intros e y. destruct (Nat.eqb_spec e j) as [->|]; [intros [= <-]; split; assumption|]. apply Hh.
  - unfold Erase, table_Remove. rewrite FindPointer_nil by exact Ht. exact Hz.
  - unfold Prune. rewrite Hl. exact Hz.
Qed.

Lemma zero_cap_run ops : forall s, zero_cap s -> zero_cap (run s ops).
Proof.
  induction ops as [|op ops IH]; intros s Hz; [exact Hz|].
  unfold run in *. cbn [fold_left]. apply IH, zero_cap_apply, Hz.
Qed.

Lemma zero_cap_apply_keeps s op e :
  zero_cap s -> heap s e <> None -> op <> ORelease e -> heap (apply_op s op) e = heap s e.
Proof.
  intros Hz He Hop. pose proof Hz as (Hc & Hu & Hl & Hi & Ht & Hh).
  assert (Hlt : (e < next_id s)%nat).
  { destruct (heap s e) as [x|] eqn:Ex; [apply (Hh e x Ex)|congruence]. }
  destruct op as [key h value charge deleter|key h|j|key h|]; cbn [apply_op].
  - rewrite zero_cap_Insert by exact Hz. cbn [fst heap set_heap set_next_id].
    destruct (Nat.eqb_spec e (next_id s)); [lia|reflexivity].
  - unfold Lookup, table_Lookup. rewrite FindPointer_nil by exact Ht. reflexivity.
  - assert (Hj : j <> e) by congruence.
    unfold Release, Unref. destruct (heap s j) as [x|] eqn:Ej; [|reflexivity].
    cbn [refs set_refs in_cache]. destruct (u32 (refs x - 1) =? 0).
    + cbn. destruct (Nat.eqb_spec e j); [congruence|reflexivity].
    + destruct (Hh j x) as [Hx _]; [assumption|]. rewrite Hx. cbn.
      destruct (Nat.eqb_spec e j); [congruence|reflexivity].
  - unfold Erase, table_Remove. rewrite FindPointer_nil by exact Ht. reflexivity.
  - unfold Prune. rewrite Hl. reflexivity.
Qed.

Lemma zero_cap_run_keeps e ops : forall s,
  zero_cap s -> heap s e <> None -> ~ In (ORelease e) ops -> heap (run s ops) e = heap s e.
Proof.
  induction ops as [|op ops IH]; intros s Hz He Hin; [reflexivity|].
  unfold run in *. cbn [fold_left].
  assert (Hop : op <> ORelease e) by (intros ->; apply Hin; left; reflexivity).
  pose proof (zero_cap_apply_keeps s op e Hz He Hop) as E.
  rewrite IH; [exact E|apply zero_cap_apply, Hz|rewrite E; exact He|].
  intros H. apply Hin. right. exact H.
Qed.

Lemma Release_last s e x :
  heap s e = Some x -> refs x = 1 ->
  heap (Release s e) e = None /\
  deleter_calls (Release s e) = deleter_calls s ++ [(deleter x, key_data x, value x)].
Proof.
  intros Hx Hr. unfold Release, Unref. rewrite Hx. cbn [refs set_refs]. rewrite Hr.
  cbn. rewrite Nat.eqb_refl. split; reflexivity.
Qed.

(** Claim C10: in a shard whose capacity is 0 (after any sequence of
    operations from a fresh shard), [Insert] leaves the hash table and both
    lists empty and the usage at 0, so a lookup of the same key misses; the
    returned handle is allocated with [in_cache = false] and [refs = 1]; it
    stays allocated, unchanged, through any operations that do not release
    it, and the release that follows runs the deleter on its key and value
    and frees it. *)
Theorem zero_capacity_insert pre key h value charge deleter ops :
  let s := run (NewLRUCache 0) pre in
  let s1 := fst (Insert s key h value charge deleter) in
  let e := snd (Insert s key h value charge deleter) in
  table_ s1 = [] /\ lru_ s1 = [] /\ in_use_ s1 = [] /\ usage_ s1 = 0 /\
  heap s1 e = Some (mkLRUHandle value deleter charge key false 1 h) /\
  snd (Lookup s1 key h) = None /\
  (~ In (ORelease e) ops ->
   let s2 := run s1 ops in
   heap s2 e = heap s1 e /\
   heap (Release s2 e) e = None /\
   deleter_calls (Release s2 e) = deleter_calls s2 ++ [(deleter, key, value)]).
Proof.
  intros s s1 e.
  assert (Hz : zero_cap s) by (apply zero_cap_run, zero_cap_New).
  assert (Hz1 : zero_cap s1).
  { unfold s1. change (fst (Insert s key h value charge deleter))
      with (apply_op s (OInsert key h value charge deleter)). apply zero_cap_apply, Hz. }
  assert (He : heap s1 e = Some (mkLRUHandle value deleter charge key false 1 h)).
  { unfold s1, e. rewrite zero_cap_Insert by exact Hz. cbn. rewrite Nat.eqb_refl. reflexivity. }
  pose proof Hz1 as (Hc & Hu & Hl & Hi & Ht & Hh).
  do 4 (split; [assumption|]). split; [exact He|].
  split.
  { unfold Lookup, table_Lookup. rewrite FindPointer_nil by exact Ht. reflexivity. }
  intros Hin s2.
  assert (E2 : heap s2 e = heap s1 e) by (apply zero_cap_run_keeps; [exact Hz1|congruence|exact Hin]).
  split; [exact E2|].
  rewrite He in E2. apply (Release_last s2 e _ E2). reflexivity.
Qed.

Lemma zero_capacity_insert_witness :
  let k := list_byte_of_string "k" in
  let pre := [OInsert k 7 100 1 5; OLookup k 7] in
  let s := run (NewLRUCache 0) pre in
  let s1 := fst (Insert s k 7 200 1 5) in
  let e := snd (Insert s k 7 200 1 5) in
  ~ In (ORelease e) [OLookup k 7; ORelease O] /\
  (table_ s1 = [] /\ lru_ s1 = [] /\ in_use_ s1 = [] /\ usage_ s1 = 0 /\
   heap s1 e = Some (mkLRUHandle 200 5 1 k false 1 7) /\
   snd (Lookup s1 k 7) = None /\
   (~ In (ORelease e) [OLookup k 7; ORelease O] ->
    let s2 := run s1 [OLookup k 7; ORelease O] in
    heap s2 e = heap s1 e /\
    heap (Release s2 e) e = None /\
    deleter_calls (Release s2 e) = deleter_calls s2 ++ [(5, k, 200)])).
Proof.
  intros k pre s s1 e.
  split.
  - vm_compute. intros [H|[H|[]]]; discriminate H.
  - exact (zero_capacity_insert pre k 7 200 1 5 [OLookup k 7; ORelease O]).
Defined.

End CacheFacts.

(** ** Eviction in [Insert] *)
Module EvictionFacts.
Import Coding LRU.

(** The shard invariant the code's assertions rely on: [lru_] and [in_use_]
    are disjoint, [lru_] holds cached handles with [refs == 1], [in_use_]
    cached handles with [refs >= 2], the table holds exactly the listed
    handles, at most one per (hash, key), and every live handle was
    allocated. *)
Definition cache_inv (s : LRUCache) : Prop :=
  NoDup (lru_ s ++ in_use_ s) /\
  (forall e, In e (lru_ s) -> exists x, heap s e = Some x /\ in_cache x = true /\ refs x = 1) /\
  (forall e, In e (in_use_ s) ->
     exists x, heap s e = Some x /\ in_cache x = true /\ 2 <= refs x < 2 ^ 32) /\
  (forall e, In e (table_ s) <-> In e (lru_ s ++ in_use_ s)) /\
  (forall e1 e2 x1 x2, In e1 (table_ s) -> In e2 (table_ s) ->
     heap s e1 = Some x1 -> heap s e2 = Some x2 ->
     hash x1 = hash x2 -> key_data x1 = key_data x2 -> e1 = e2) /\
  (forall e, heap s e <> None -> (e < next_id s)%nat).

Lemma In_remove_id j e l : In j (remove_id e l) <-> In j l /\ j <> e.
Proof.
  unfold remove_id. rewrite filter_In.
  destruct (Nat.eqb_spec j e); cbn; intuition congruence.
Qed.

Lemma remove_id_notin e l : ~ In e l -> remove_id e l = l.
Proof.
  induction l as [|y l IH]; intros H; [reflexivity|]. cbn.
  destruct (Nat.eqb_spec y e) as [->|]; [exfalso; apply H; left; reflexivity|].
  cbn. f_equal. apply IH. intros Hin. apply H. right. exact Hin.
Qed.

Lemma NoDup_remove_id e l : NoDup l -> NoDup (remove_id e l).
Proof. intros H. apply NoDup_filter, H. Qed.

Lemma key_eqb_refl k : key_eqb k k = true.
Proof. unfold key_eqb. destruct (list_eq_dec Byte.byte_eq_dec k k); congruence. Qed.

Lemma key_eqb_eq a b : key_eqb a b = true -> a = b.
Proof. unfold key_eqb. destruct (list_eq_dec Byte.byte_eq_dec a b); congruence. Qed.

(** [FindPointer] returns the table's handle with this hash and key. *)
Lemma FindPointer_in s e x :
  cache_inv s -> In e (table_ s) -> heap s e = Some x ->
  FindPointer s (key_data x) (hash x) = Some e.
Proof.
  intros (_ & _ & _ & _ & Hu & _) Hin Hx. unfold FindPointer.
  destruct (find _ (table_ s)) as [y|] eqn:Ef.
  - apply find_some in Ef as [Hy Hp].
    destruct (heap s y) as [z|] eqn:Ez; [|discriminate].
    apply andb_prop in Hp as [H1 H2]. apply Z.eqb_eq in H1. apply key_eqb_eq in H2.
    f_equal. apply (Hu y e z x Hy Hin Ez Hx H1 (eq_sym H2)).
  - exfalso. apply find_none with (x := e) in Ef; [|exact Hin].
    rewrite Hx, Z.eqb_refl, key_eqb_refl in Ef. discriminate.
Qed.

Lemma FindPointer_some s key h e :
  FindPointer s key h = Some e ->
  In e (table_ s) /\ exists x, heap s e = Some x /\ hash x = h /\ key_data x = key.
Proof.
  unfold FindPointer. intros Ef. apply find_some in Ef as [Hy Hp]. split; [exact Hy|].
  destruct (heap s e) as [z|]; [|discriminate].
  apply andb_prop in Hp as [H1 H2]. exists z. split; [reflexivity|].
  split; [apply Z.eqb_eq, H1|symmetry; apply key_eqb_eq, H2].
Qed.

Lemma FindPointer_none s key h e x :
  FindPointer s key h = None -> In e (table_ s) -> heap s e = Some x ->
  ~ (hash x = h /\ key_data x = key).
Proof.
  unfold FindPointer. intros Ef Hin Hx [H1 H2]. apply find_none with (x := e) in Ef; [|exact Hin].
  rewrite Hx, H1, H2, Z.eqb_refl, key_eqb_refl in Ef. discriminate.
Qed.

Lemma Evict_body s f old rest x :
  cache_inv s -> lru_ s = old :: rest -> capacity_ s < usage_ s -> heap s old = Some x ->
  exists s', Evict_loop (S f) s = Evict_loop f s' /\
    lru_ s' = rest /\ in_use_ s' = in_use_ s /\ table_ s' = remove_id old (table_ s) /\
    heap s' old = None /\ (forall j, j <> old -> heap s' j = heap s j) /\
    usage_ s' = u64 (usage_ s - charge x) /\ capacity_ s' = capacity_ s /\
    next_id s' = next_id s /\
    deleter_calls s' = deleter_calls s ++ [(deleter x, key_data x, value x)].
Proof.
  intros Hinv Hl Hc Hx.
  pose proof Hinv as (Hnd & Hlru & Hiu & Htab & Huniq & Hfresh).
  destruct (Hlru old) as (x' & Hx' & Hic & Hr); [rewrite Hl; left; reflexivity|].
  rewrite Hx in Hx'. injection Hx' as <-.
  assert (Hfp : FindPointer s (key_data x) (hash x) = Some old).
  { apply FindPointer_in; [exact Hinv| |exact Hx]. apply Htab. rewrite Hl. left. reflexivity. }
  assert (Hnr : ~ In old rest).
  { rewrite Hl in Hnd. cbn in Hnd. inversion Hnd as [|? ? Hn _]. intros Hin0. apply Hn, in_or_app. left. exact Hin0. }
  assert (Hni : ~ In old (in_use_ s)).
  { rewrite Hl in Hnd. cbn in Hnd. inversion Hnd as [|? ? Hn _]. intros Hin0. apply Hn, in_or_app. right. exact Hin0. }
  cbn [Evict_loop]. rewrite Hl, (proj2 (Z.ltb_lt _ _) Hc), Hx. unfold table_Remove. rewrite Hfp.
  exists (fst (FinishErase (set_table s (remove_id old (table_ s))) (Some old))).
  split; [destruct (FinishErase _ _); reflexivity|].
  unfold FinishErase. change (heap (set_table s (remove_id old (table_ s))) old) with (heap s old).
  rewrite Hx. cbn [fst]. unfold Unref.
  cbn [heap set_usage set_heap LRU_Remove set_lru set_in_use set_table]. rewrite Nat.eqb_refl.
  cbn [set_refs set_in_cache refs]. rewrite Hr.
  replace (u32 (1 - 1) =? 0) with true by reflexivity.
  cbn [heap set_usage set_heap LRU_Remove set_lru set_in_use set_table call_deleter lru_ in_use_ table_
       usage_ capacity_ next_id deleter_calls key_data value deleter charge].
  rewrite Nat.eqb_refl.
  split; [rewrite Hl; cbn [remove_id filter]; rewrite Nat.eqb_refl; apply remove_id_notin, Hnr|].
  split; [apply remove_id_notin, Hni|].
  split; [reflexivity|].
  split; [reflexivity|].
  split; [intros j Hj; rewrite (proj2 (Nat.eqb_neq j old) Hj); reflexivity|].
  repeat split; reflexivity.
Qed.

Lemma cache_inv_evict s s' old rest :
  cache_inv s -> lru_ s = old :: rest ->
  lru_ s' = rest -> in_use_ s' = in_use_ s -> table_ s' = remove_id old (table_ s) ->
  heap s' old = None -> (forall j, j <> old -> heap s' j = heap s j) -> next_id s' = next_id s ->
  cache_inv s'.
Proof.
  intros (Hnd & Hlru & Hiu & Htab & Huniq & Hfresh) Hl Hl' Hi' Ht' Ho Hj Hn.
  rewrite Hl in Hnd. cbn in Hnd. apply NoDup_cons_iff in Hnd as [Hnin Hnd'].
  assert (Hne : forall e, In e (rest ++ in_use_ s) -> e <> old) by (intros e He ->; contradiction).
  unfold cache_inv. rewrite Hl', Hi', Ht', Hn.
  split; [exact Hnd'|].
  split.
  { intros e He. rewrite Hj by (apply Hne, in_or_app; left; exact He).
    apply Hlru. rewrite Hl. right. exact He. }
  split.
  { intros e He. rewrite Hj by (apply Hne, in_or_app; right; exact He). apply Hiu, He. }
  split.
  { intros e. rewrite In_remove_id, Htab, Hl. cbn. split.
    - intros [[->|H] Hn']; [congruence|exact H].
    - intros H. split; [right; exact H|apply Hne, H]. }
  split.
  { intros e1 e2 x1 x2 H1 H2. apply In_remove_id in H1 as [H1 N1]. apply In_remove_id in H2 as [H2 N2].
    rewrite (Hj e1 N1), (Hj e2 N2). apply Huniq; assumption. }
  intros e He. destruct (Nat.eq_dec e old) as [->|Ne]; [congruence|].
  rewrite Hj in He by exact Ne. apply Hfresh, He.
Qed.

(** The claim's reading of the eviction loop: one round takes the head of
    [lru_], an entry with [refs == 1] not on [in_use_], out of the table and
    the list, subtracts its charge and frees it; the loop runs only while
    [usage_ > capacity_] and [lru_] is not empty. *)
Definition evict_step (s s' : LRUCache) : Prop :=
  exists old rest x,
    lru_ s = old :: rest /\ capacity_ s < usage_ s /\ heap s old = Some x /\ refs x = 1 /\
    ~ In old (in_use_ s) /\
    lru_ s' = rest /\ in_use_ s' = in_use_ s /\ table_ s' = remove_id old (table_ s) /\
    heap s' old = None /\ (forall j, j <> old -> heap s' j = heap s j) /\
    usage_ s' = u64 (usage_ s - charge x) /\ capacity_ s' = capacity_ s /\
    deleter_calls s' = deleter_calls s ++ [(deleter x, key_data x, value x)].

Inductive evict_run : LRUCache -> LRUCache -> Prop :=
| evict_done s : ~ (capacity_ s < usage_ s /\ lru_ s <> []) -> evict_run s s
| evict_next s s' t : evict_step s s' -> evict_run s' t -> evict_run s t.

Lemma Evict_loop_run fuel : forall s,
  cache_inv s -> (List.length (lru_ s) <= fuel)%nat ->
  evict_run s (Evict_loop fuel s) /\ cache_inv (Evict_loop fuel s).
Proof.
  induction fuel as [|f IH]; intros s Hinv Hlen.
  - cbn [Evict_loop]. split; [|exact Hinv]. apply evict_done.
    intros [_ H]. apply H. destruct (lru_ s); [reflexivity|cbn in Hlen; lia].
  - destruct (lru_ s) as [|old rest] eqn:Hl.
    + cbn [Evict_loop]. rewrite Hl. split; [|exact Hinv]. apply evict_done. intros [_ H]. apply H, Hl.
    + destruct (Z.ltb_spec (capacity_ s) (usage_ s)) as [Hc|Hc].
      2:{ cbn [Evict_loop]. rewrite Hl. replace (capacity_ s <? usage_ s) with false
            by (symmetry; apply Z.ltb_ge; exact Hc).
          split; [|exact Hinv]. apply evict_done. lia. }
      pose proof Hinv as (Hnd & Hlru & _).
      destruct (Hlru old) as (x & Hx & _ & Hr); [rewrite Hl; left; reflexivity|].
      destruct (Evict_body s f old rest x Hinv Hl Hc Hx)
        as (s' & E & Hl' & Hi' & Ht' & Ho & Hj & Hu' & Hc' & Hn' & Hd').
      rewrite E.
      assert (Hinv' : cache_inv s') by (eapply cache_inv_evict; eassumption).
      destruct (IH s' Hinv') as [Hrun Hinv'']; [rewrite Hl'; cbn in Hlen; lia|].
      split; [|exact Hinv''].
      apply evict_next with s'; [|exact Hrun].
      exists old, rest, x. do 4 (split; [assumption|]).
      split.
      { rewrite Hl in Hnd. cbn in Hnd. inversion Hnd as [|? ? Hn _]. intros Hin0. apply Hn, in_or_app. right. exact Hin0. }
      repeat (split; [assumption|]). assumption.
Qed.

Lemma evict_run_in_use s t :
  evict_run s t -> forall j, In j (in_use_ s) -> In j (in_use_ t) /\ heap t j = heap s j.
Proof.
  induction 1 as [s _|s s' t Hs Hrun IH]; intros j Hj; [split; [exact Hj|reflexivity]|].
  destruct Hs as (old & rest & x & _ & _ & _ & _ & Hni & _ & Hi' & _ & _ & Hh & _).
  assert (Hne : j <> old) by (intros ->; contradiction).
  destruct (IH j) as [H1 H2]; [rewrite Hi'; exact Hj|].
  split; [exact H1|]. rewrite H2. apply Hh, Hne.
Qed.

Lemma FindPointer_ext s s' key h :
  table_ s' = table_ s -> (forall e, In e (table_ s) -> heap s' e = heap s e) ->
  FindPointer s' key h = FindPointer s key h.
Proof.
  intros Ht Hh. unfold FindPointer. rewrite Ht. clear Ht. revert Hh.
  induction (table_ s) as [|y l IH]; intros Hh; [reflexivity|]. cbn.
  rewrite Hh by (left; reflexivity).
  destruct (match heap s y with Some x => _ | None => false end); [reflexivity|].
  apply IH. intros e He. apply Hh. right. exact He.
Qed.

Lemma NoDup_snoc (l : list nat) a : NoDup l -> ~ In a l -> NoDup (l ++ [a]).
Proof.
  intros H Ha. apply NoDup_app; [exact H|repeat constructor; intros []|].
  intros y Hy [<-|[]]. contradiction.
Qed.

Lemma remove_id_app e l1 l2 : remove_id e (l1 ++ l2) = remove_id e l1 ++ remove_id e l2.
Proof. apply filter_app. Qed.

Lemma cache_inv_next s : cache_inv s -> heap s (next_id s) = None.
Proof.
  intros (_ & _ & _ & _ & _ & Hfresh). destruct (heap s (next_id s)) eqn:E; [|reflexivity].
  exfalso. specialize (Hfresh (next_id s) ltac:(congruence)). lia.
Qed.

Lemma cache_inv_listed s e :
  cache_inv s -> In e (lru_ s ++ in_use_ s) -> exists x, heap s e = Some x /\ in_cache x = true.
Proof.
  intros (_ & Hlru & Hiu & _) He. apply in_app_or in He as [He|He].
  - destruct (Hlru e He) as (x & ? & ? & _). exists x. split; assumption.
  - destruct (Hiu e He) as (x & ? & ? & _). exists x. split; assumption.
Qed.

Lemma cache_inv_listed_ne s e :
  cache_inv s -> In e (lru_ s ++ in_use_ s) -> e <> next_id s.
Proof.
  intros Hinv He ->. destruct (cache_inv_listed s _ Hinv He) as (x & Hx & _).
  rewrite cache_inv_next in Hx by exact Hinv. discriminate.
Qed.



(** What [Insert_entry] does to the entries on [in_use_]: each stays on the
    list unchanged, except the one the new entry replaces, which leaves the
    cache but stays allocated with one reference less. *)
Definition in_use_kept (s s1 : LRUCache) (key : bytes) (h : Z) : Prop :=
  forall j y, In j (in_use_ s) -> heap s j = Some y ->
    (In j (in_use_ s1) /\ heap s1 j = heap s j) \/
    (FindPointer s key h = Some j /\
     exists y', heap s1 j = Some y' /\ in_cache y' = false /\ refs y' = refs y - 1 /\ 1 <= refs y').

Lemma Insert_entry_uncached s key h value charge deleter :
  cache_inv s -> capacity_ s <= 0 ->
  snd (Insert_entry s key h value charge deleter) = next_id s /\
  cache_inv (fst (Insert_entry s key h value charge deleter)) /\
  in_use_kept s (fst (Insert_entry s key h value charge deleter)) key h.
Proof.
  intros Hinv Hc. unfold Insert_entry. cbv zeta. cbn [capacity_ set_heap set_next_id].
  replace (0 <? capacity_ s) with false by (symmetry; apply Z.ltb_ge; exact Hc).
  cbn [fst snd]. split; [reflexivity|].
  pose proof (cache_inv_next s Hinv) as Hn.
  assert (Hne : forall e, In e (lru_ s ++ in_use_ s) -> (e =? next_id s)%nat = false)
    by (intros e He; apply Nat.eqb_neq, (cache_inv_listed_ne s e Hinv He)).
  pose proof Hinv as (Hnd & Hlru & Hiu & Htab & Huniq & Hfresh).
  split.
  - unfold cache_inv. cbn [heap lru_ in_use_ table_ next_id set_heap set_next_id].
    split; [exact Hnd|].
    split; [intros e He; rewrite Hne by (apply in_or_app; left; exact He); apply Hlru, He|].
    split; [intros e He; rewrite Hne by (apply in_or_app; right; exact He); apply Hiu, He|].
    split; [exact Htab|].
    split.
    + intros e1 e2 x1 x2 H1 H2. rewrite (Hne e1), (Hne e2) by (apply Htab; assumption).
      apply Huniq; assumption.
    + intros e He. destruct (Nat.eqb_spec e (next_id s)) as [Heq|Hne']; [lia|].
      specialize (Hfresh e He). lia.
  - intros j y Hj Hy. left. cbn [heap in_use_ set_heap set_next_id].
    rewrite Hne by (apply in_or_app; right; exact Hj). split; [exact Hj|reflexivity].
Qed.

Lemma cache_inv_add s s1 x2 :
  cache_inv s -> FindPointer s (key_data x2) (hash x2) = None ->
  lru_ s1 = lru_ s -> in_use_ s1 = in_use_ s ++ [next_id s] -> table_ s1 = table_ s ++ [next_id s] ->
  (forall j, j <> next_id s -> heap s1 j = heap s j) -> heap s1 (next_id s) = Some x2 ->
  in_cache x2 = true -> 2 <= refs x2 < 2 ^ 32 -> next_id s1 = S (next_id s) ->
  cache_inv s1.
Proof.
  intros Hinv Hf Hl Hi Ht Hj Hn Hc Hr Hnx.
  pose proof (fun e => cache_inv_listed_ne s e Hinv) as Hne.
  pose proof Hinv as (Hnd & Hlru & Hiu & Htab & Huniq & Hfresh).
  unfold cache_inv. rewrite Hl, Hi, Ht, Hnx.
  split; [rewrite app_assoc; apply NoDup_snoc; [exact Hnd|intros H; exact (Hne _ H eq_refl)]|].
  split; [intros e He; rewrite Hj by (apply Hne, in_or_app; left; exact He); apply Hlru, He|].
  split.
  { intros e He. apply in_app_or in He as [He|[<-|[]]].
    - rewrite Hj by (apply Hne, in_or_app; right; exact He). apply Hiu, He.
    - exists x2. split; [exact Hn|]. split; assumption. }
  split.
  { intros e. rewrite !in_app_iff, Htab, in_app_iff. tauto. }
  split.
  { assert (Hold : forall e x, In e (table_ s) -> heap s1 e = Some x ->
                   heap s e = Some x /\ ~ (hash x = hash x2 /\ key_data x = key_data x2)).
    { intros e x He Hx. rewrite Hj in Hx by (apply Hne, Htab, He). split; [exact Hx|].
      exact (FindPointer_none s _ _ e x Hf He Hx). }
    intros e1 e2 x1 x2' H1 H2 Hx1 Hx2 Hh Hk.
    apply in_app_or in H1 as [H1|[<-|[]]]; apply in_app_or in H2 as [H2|[<-|[]]].
    - destruct (Hold e1 x1 H1 Hx1) as [Hy1 _]. destruct (Hold e2 x2' H2 Hx2) as [Hy2 _].
      exact (Huniq e1 e2 x1 x2' H1 H2 Hy1 Hy2 Hh Hk).
    - rewrite Hn in Hx2. injection Hx2 as <-. destruct (Hold e1 x1 H1 Hx1) as [_ N]. tauto.
    - rewrite Hn in Hx1. injection Hx1 as <-. destruct (Hold e2 x2' H2 Hx2) as [_ N].
      exfalso. apply N. split; symmetry; assumption.
    - reflexivity. }
  intros e He. destruct (Nat.eq_dec e (next_id s)) as [->|Ne]; [lia|].
  rewrite Hj in He by exact Ne. specialize (Hfresh e He). lia.
Qed.

Lemma cache_inv_replace s s1 o y x2 :
  cache_inv s -> In o (table_ s) -> heap s o = Some y ->
  hash x2 = hash y -> key_data x2 = key_data y ->
  lru_ s1 = remove_id o (lru_ s) -> in_use_ s1 = remove_id o (in_use_ s ++ [next_id s]) ->
  table_ s1 = remove_id o (table_ s) ++ [next_id s] ->
  (forall j, j <> o -> j <> next_id s -> heap s1 j = heap s j) -> heap s1 (next_id s) = Some x2 ->
  in_cache x2 = true -> 2 <= refs x2 < 2 ^ 32 -> next_id s1 = S (next_id s) ->
  cache_inv s1.
Proof.
  intros Hinv Ho Hy Hh2 Hk2 Hl Hi Ht Hj Hn Hc Hr Hnx.
  pose proof (fun e => cache_inv_listed_ne s e Hinv) as Hne.
  pose proof Hinv as (Hnd & Hlru & Hiu & Htab & Huniq & Hfresh).
  assert (Hon : o <> next_id s) by (apply Hne, Htab, Ho).
  unfold cache_inv. rewrite Hl, Hi, Ht, Hnx.
  split.
  { rewrite <- remove_id_app, app_assoc. apply NoDup_remove_id, NoDup_snoc; [exact Hnd|].
    intros H. exact (Hne _ H eq_refl). }
  split.
  { intros e He. apply In_remove_id in He as [He Neo].
    rewrite Hj by (try exact Neo; apply Hne, in_or_app; left; exact He). apply Hlru, He. }
  split.
  { intros e He. apply In_remove_id in He as [He Neo]. apply in_app_or in He as [He|[<-|[]]].
    - rewrite Hj by (try exact Neo; apply Hne, in_or_app; right; exact He). apply Hiu, He.
    - exists x2. split; [exact Hn|]. split; assumption. }
  split.
  { intros e. rewrite !in_app_iff, !In_remove_id, Htab, !in_app_iff. cbn.
    destruct (Nat.eq_dec e (next_id s)) as [->|Ne].
    - split; intros _; [right; split; [right; left; reflexivity|intros E; exact (Hon (eq_sym E))]|].
      right. left. reflexivity.
    - assert (next_id s <> e) by congruence. tauto. }
  split.
  { assert (Hold : forall e x, In e (remove_id o (table_ s)) -> heap s1 e = Some x ->
                   heap s e = Some x /\ ~ (hash x = hash x2 /\ key_data x = key_data x2)).
    { intros e x He Hx. apply In_remove_id in He as [He Neo].
      rewrite Hj in Hx by (try exact Neo; apply Hne, Htab, He). split; [exact Hx|].
      intros [E1 E2]. apply Neo. apply (Huniq e o x y He Ho Hx Hy); congruence. }
    intros e1 e2 x1 x2' H1 H2 Hx1 Hx2 Hh Hk.
    apply in_app_or in H1 as [H1|[<-|[]]]; apply in_app_or in H2 as [H2|[<-|[]]].
    - destruct (Hold e1 x1 H1 Hx1) as [Hy1 _]. destruct (Hold e2 x2' H2 Hx2) as [Hy2 _].
      apply In_remove_id in H1 as [H1 _]. apply In_remove_id in H2 as [H2 _].
      exact (Huniq e1 e2 x1 x2' H1 H2 Hy1 Hy2 Hh Hk).
    - rewrite Hn in Hx2. injection Hx2 as <-. destruct (Hold e1 x1 H1 Hx1) as [_ N]. tauto.
    - rewrite Hn in Hx1. injection Hx1 as <-. destruct (Hold e2 x2' H2 Hx2) as [_ N].
      exfalso. apply N. split; symmetry; assumption.
    - reflexivity. }
  intros e He. destruct (Nat.eq_dec e (next_id s)) as [->|Ne]; [lia|].
  destruct (Nat.eq_dec e o) as [->|Neo].
  - assert (H : heap s o <> None) by congruence. specialize (Hfresh o H). lia.
  - rewrite Hj in He by assumption. specialize (Hfresh e He). lia.
Qed.

Lemma Insert_entry_cached s key h value charge deleter :
  cache_inv s -> 0 < capacity_ s ->
  snd (Insert_entry s key h value charge deleter) = next_id s /\
  cache_inv (fst (Insert_entry s key h value charge deleter)) /\
  in_use_kept s (fst (Insert_entry s key h value charge deleter)) key h.
Proof.
  intros Hinv Hc. unfold Insert_entry. cbv zeta. cbn [capacity_ set_heap set_next_id].
  rewrite (proj2 (Z.ltb_lt _ _) Hc).
  set (x := {| value := value; deleter := deleter; charge := charge; key_data := key;
               in_cache := false; refs := 1; hash := h |}).
  set (x2 := set_in_cache (set_refs x (u32 (refs x + 1))) true).
  set (n := next_id s).
  set (sD := set_usage _ _).
  pose proof (fun e => cache_inv_listed_ne s e Hinv) as Hne.
  pose proof Hinv as (Hnd & Hlru & Hiu & Htab & Huniq & Hfresh).
  assert (HsD : forall j, heap sD j = if (j =? n)%nat then Some x2 else heap s j).
  { intros j. unfold sD. cbn [heap set_usage LRU_Append_in_use set_in_use set_heap set_next_id].
    destruct (j =? n)%nat; reflexivity. }
  assert (HF : FindPointer sD key h = FindPointer s key h).
  { apply FindPointer_ext; [reflexivity|]. intros e He. rewrite HsD.
    rewrite (proj2 (Nat.eqb_neq e n)); [reflexivity|]. apply Hne, Htab, He. }
  assert (HT : table_Insert sD n =
    (set_table sD (match FindPointer s key h with Some o => remove_id o (table_ s) | None => table_ s end ++ [n]),
     FindPointer s key h)).
  { unfold table_Insert. rewrite HsD, Nat.eqb_refl. cbn [key_data hash x2 x set_in_cache set_refs].
    rewrite HF. reflexivity. }
  rewrite HT. cbn [fst snd]. split; [reflexivity|].
  assert (Hx2c : in_cache x2 = true) by reflexivity.
  assert (Hx2r : 2 <= refs x2 < 2 ^ 32) by (cbn; lia).
  destruct (FindPointer s key h) as [o|] eqn:Ho.
  - destruct (FindPointer_some s key h o Ho) as [Hot (y & Hy & Hyh & Hyk)].
    assert (Hon : o <> n) by (apply Hne, Htab, Hot).
    unfold FinishErase. change (heap (set_table sD (remove_id o (table_ s) ++ [n])) o) with (heap sD o).
    rewrite HsD, (proj2 (Nat.eqb_neq o n) Hon), Hy.
    unfold Unref.
    set (sF := set_usage _ _).
    assert (HsF : forall j, heap sF j = if (j =? o)%nat then Some (set_in_cache y false) else heap sD j).
    { intros j. unfold sF. cbn [heap set_usage set_heap LRU_Remove set_lru set_in_use set_table].
      destruct (j =? o)%nat; reflexivity. }
    rewrite HsF, Nat.eqb_refl. cbn [set_refs set_in_cache refs in_cache andb].
    assert (Hs1 : exists s1,
      fst (if u32 (refs y - 1) =? 0
           then set_heap (call_deleter sF
                  (LRU.deleter (set_refs (set_in_cache y false) (u32 (refs y - 1))),
                   key_data (set_refs (set_in_cache y false) (u32 (refs y - 1))),
                   LRU.value (set_refs (set_in_cache y false) (u32 (refs y - 1))))) o None
           else set_heap sF o (Some (set_refs (set_in_cache y false) (u32 (refs y - 1)))), true) = s1 /\
      lru_ s1 = lru_ sF /\ in_use_ s1 = in_use_ sF /\ table_ s1 = table_ sF /\ next_id s1 = next_id sF /\
      (forall j, j <> o -> heap s1 j = heap sF j) /\
      heap s1 o = if u32 (refs y - 1) =? 0 then None
                  else Some (set_refs (set_in_cache y false) (u32 (refs y - 1)))).
    { destruct (u32 (refs y - 1) =? 0); eexists; split; try reflexivity;
        cbn [heap set_heap call_deleter lru_ in_use_ table_ next_id fst];
        (split; [reflexivity|]); (split; [reflexivity|]); (split; [reflexivity|]); (split; [reflexivity|]);
        (split; [intros j Hj; rewrite (proj2 (Nat.eqb_neq j o) Hj); reflexivity|]);
        rewrite Nat.eqb_refl; reflexivity. }
    destruct Hs1 as (s1 & E & Hl1 & Hi1 & Ht1 & Hn1 & Hj1 & Ho1). rewrite E.
    assert (Hheap : forall j, j <> o -> j <> n -> heap s1 j = heap s j).
    { intros j J1 J2. rewrite Hj1, HsF, HsD by exact J1.
      rewrite (proj2 (Nat.eqb_neq j o) J1), (proj2 (Nat.eqb_neq j n) J2). reflexivity. }
    split.
    + apply (cache_inv_replace s s1 o y x2); try assumption.
      * rewrite Hyh. reflexivity.
      * rewrite Hyk. reflexivity.
      * fold n. rewrite Hj1 by (intros E'; apply Hon; symmetry; exact E'). rewrite HsF, HsD.
        rewrite (proj2 (Nat.eqb_neq n o)) by (intros E'; apply Hon; symmetry; exact E').
        rewrite Nat.eqb_refl. reflexivity.
    + intros j y0 Hj Hy0. destruct (Nat.eq_dec j o) as [->|Jo].
      * right. split; [exact Ho|]. rewrite Hy in Hy0. injection Hy0 as <-.
        destruct (Hiu o Hj) as (y1 & Hy1 & _ & Hr1). rewrite Hy in Hy1. injection Hy1 as <-.
        assert (Hu : u32 (refs y - 1) = refs y - 1) by (unfold u32; apply Z.mod_small; lia).
        rewrite Ho1, Hu. rewrite (proj2 (Z.eqb_neq _ _)) by lia.
        eexists. split; [reflexivity|]. cbn. split; [reflexivity|]. split; [reflexivity|]. lia.
      * left. assert (Jn : j <> n) by (apply Hne, in_or_app; right; exact Hj).
        rewrite Hheap by assumption. split; [|reflexivity].
        rewrite Hi1. change (In j (remove_id o (in_use_ s ++ [n]))). apply In_remove_id.
        split; [apply in_or_app; left; exact Hj|exact Jo].
  - cbn [FinishErase fst]. split.
    + apply (cache_inv_add s _ x2); try assumption; try reflexivity.
      * fold n. intros j Jn. cbn [heap set_table]. rewrite HsD, (proj2 (Nat.eqb_neq j n) Jn). reflexivity.
      * fold n. cbn [heap set_table]. rewrite HsD, Nat.eqb_refl. reflexivity.
    + intros j y0 Hj Hy0. left. assert (Jn : j <> n) by (apply Hne, in_or_app; right; exact Hj).
      cbn [heap set_table in_use_]. rewrite HsD, (proj2 (Nat.eqb_neq j n) Jn).
      split; [|reflexivity]. change (In j (in_use_ s ++ [n])). apply in_or_app. left. exact Hj.
Qed.

Lemma evict_run_in_use_eq s t : evict_run s t -> in_use_ t = in_use_ s.
Proof.
  induction 1 as [s _|s s' t Hs _ IH]; [reflexivity|].
  destruct Hs as (old & rest & x & _ & _ & _ & _ & _ & _ & Hi' & _). congruence.
Qed.

Lemma evict_run_not_lru s t : evict_run s t -> forall j, ~ In j (lru_ s) -> heap t j = heap s j.
Proof.
  induction 1 as [s _|s s' t Hs _ IH]; intros j Hj; [reflexivity|].
  destruct Hs as (old & rest & x & Hl & _ & _ & _ & _ & Hl' & _ & _ & _ & Hh & _).
  assert (Hne : j <> old) by (intros ->; apply Hj; rewrite Hl; left; reflexivity).
  rewrite IH; [apply Hh, Hne|]. rewrite Hl'. intros H. apply Hj. rewrite Hl. right. exact H.
Qed.

Lemma cache_inv_NewLRUCache c : cache_inv (NewLRUCache c).
Proof.
  unfold cache_inv. cbn. split; [constructor|]. split; [intros _ []|]. split; [intros _ []|].
  split; [intros e; reflexivity|]. split; [intros e1 e2 x1 x2 []|]. intros e H. congruence.
Qed.

Lemma Insert_entry_spec s key h value charge deleter :
  cache_inv s ->
  snd (Insert_entry s key h value charge deleter) = next_id s /\
  cache_inv (fst (Insert_entry s key h value charge deleter)) /\
  in_use_kept s (fst (Insert_entry s key h value charge deleter)) key h.
Proof.
  intros Hinv. destruct (Z.ltb_spec 0 (capacity_ s)).
  - apply Insert_entry_cached; assumption.
  - apply Insert_entry_uncached; assumption.
Qed.

(** Claim C8: from any shard state satisfying the invariant (it holds for a
    new shard, [cache_inv_NewLRUCache], and [Insert] keeps it), the eviction
    loop of [Insert] is a run of [evict_step]s: each removes the head of
    [lru_], an entry with [refs == 1] not on [in_use_], and happens only while
    [usage_ > capacity_] and [lru_] is non-empty; the loop stops only when one
    of these fails. No entry on [in_use_] (an entry with an external
    reference, [refs >= 2]) is freed: each stays on [in_use_] with its handle
    unchanged, except the one the new entry replaces (same key and hash),
    which leaves the cache but stays allocated with [refs - 1 >= 1]. *)
Theorem LRU_insert_eviction s key h value charge deleter :
  cache_inv s ->
  let s1 := fst (Insert_entry s key h value charge deleter) in
  let s' := fst (Insert s key h value charge deleter) in
  evict_run s1 s' /\ cache_inv s' /\ in_use_kept s s' key h.
Proof.
  intros Hinv s1 s'.
  destruct (Insert_entry_spec s key h value charge deleter Hinv) as (_ & Hinv1 & Hk).
  fold s1 in Hinv1, Hk.
  assert (Es' : s' = Evict_loop (List.length (lru_ s1)) s1).
  { unfold s', s1, Insert. destruct (Insert_entry s key h value charge deleter). reflexivity. }
  destruct (Evict_loop_run (List.length (lru_ s1)) s1 Hinv1 (le_n _)) as [Hrun Hinv'].
  rewrite <- Es' in Hrun, Hinv'.
  split; [exact Hrun|]. split; [exact Hinv'|].
  intros j y Hj Hy. destruct (Hk j y Hj Hy) as [[Hj1 Hh1]|[Hf (y' & Hy' & Hc' & Hr' & H1)]].
  - left. pose proof Hinv1 as (_ & Hlru & Hiu & _).
    assert (Hnl : ~ In j (lru_ s1)).
    { intros Hl. destruct (Hlru j Hl) as (z & Hz & _ & Hz1).
      destruct (Hiu j Hj1) as (z' & Hz' & _ & Hz2 & _). rewrite Hz in Hz'.
      injection Hz' as <-. lia. }
    split; [rewrite (evict_run_in_use_eq s1 s' Hrun); exact Hj1|].
    rewrite (evict_run_not_lru s1 s' Hrun j Hnl). exact Hh1.
  - right. split; [exact Hf|]. exists y'. rewrite (evict_run_not_lru s1 s' Hrun j).
    + split; [exact Hy'|]. split; [exact Hc'|]. split; assumption.
    + intros Hl. pose proof Hinv1 as (_ & Hlru & _). destruct (Hlru j Hl) as (z & Hz & Hzc & _).
      rewrite Hy' in Hz. injection Hz as <-. congruence.
Qed.

(** A shard of capacity 10 holding key "a" (charge 1) released, on
    [lru_], and key "b" (charge 2) still held by its caller, on [in_use_]. *)
Definition lru_and_held : LRUCache :=
  run (NewLRUCache 10) [OInsert [Byte.x61] 7 100 1 5; ORelease 0; OInsert [Byte.x62] 8 200 2 6].

Lemma lru_and_held_fields :
  lru_ lru_and_held = [0%nat] /\ in_use_ lru_and_held = [1%nat] /\
  table_ lru_and_held = [0%nat; 1%nat] /\ next_id lru_and_held = 2%nat.
Proof. vm_compute. auto. Qed.

Lemma lru_and_held_heap e :
  heap lru_and_held e =
  if (e =? 0)%nat then Some (mkLRUHandle 100 5 1 [Byte.x61] true 1 7)
  else if (e =? 1)%nat then Some (mkLRUHandle 200 6 2 [Byte.x62] true 2 8) else None.
Proof. destruct e as [|[|e]]; vm_compute; reflexivity. Qed.

Lemma cache_inv_lru_and_held : cache_inv lru_and_held.
Proof.
  destruct lru_and_held_fields as (Hl & Hi & Ht & Hn).
  unfold cache_inv. rewrite Hl, Hi, Ht, Hn. cbn [app].
  split; [repeat constructor; cbn; lia|].
  split; [intros e [<-|[]]; rewrite lru_and_held_heap; eexists; split; [reflexivity|split; reflexivity]|].
  split; [intros e [<-|[]]; rewrite lru_and_held_heap; eexists; split; [reflexivity|split; [reflexivity|cbn; lia]]|].
  split; [intros e; reflexivity|].
  split.
  { intros e1 e2 x1 x2 H1 H2 E1 E2 Hh _. rewrite !lru_and_held_heap in E1, E2.
    destruct H1 as [<-|[<-|[]]]; destruct H2 as [<-|[<-|[]]]; cbn in E1, E2;
      injection E1 as <-; injection E2 as <-; cbn in Hh; congruence. }
  intros e He. rewrite lru_and_held_heap in He. destruct e as [|[|e]]; [lia|lia|].
  exfalso. apply He. reflexivity.
Qed.

(** Inserting key "c" with charge 9 there brings [usage_] to 12: the loop
    evicts "a", the head of [lru_], calling its deleter, and stops with
    [lru_] empty; "b" and "c" stay on [in_use_]. *)
Lemma LRU_insert_eviction_witness :
  cache_inv lru_and_held /\
  (let s1 := fst (Insert_entry lru_and_held [Byte.x63] 9 300 9 7) in
   let s' := fst (Insert lru_and_held [Byte.x63] 9 300 9 7) in
   evict_run s1 s' /\ cache_inv s' /\ in_use_kept lru_and_held s' [Byte.x63] 9) /\
  lru_ (fst (Insert lru_and_held [Byte.x63] 9 300 9 7)) = [] /\
  in_use_ (fst (Insert lru_and_held [Byte.x63] 9 300 9 7)) = [1%nat; 2%nat] /\
  deleter_calls (fst (Insert lru_and_held [Byte.x63] 9 300 9 7)) = [(5, [Byte.x61], 100)].
Proof.
  split; [exact cache_inv_lru_and_held|].
  split; [exact (LRU_insert_eviction lru_and_held [Byte.x63] 9 300 9 7 cache_inv_lru_and_held)|].
  vm_compute. auto.
Defined.

End EvictionFacts.

(* ================================================================== *)
(** * Further properties of the code *)

(* ================================================================== *)
(** ** util/coding: round trips, lengths and malformed input *)
Module CodingProps.
Import Coding CodingFacts.

Lemma skipn_length_app (dst l : bytes) : skipn (List.length dst) (dst ++ l) = l.
Proof. rewrite skipn_app, skipn_all, Nat.sub_diag. reflexivity. Qed.

Lemma land_ones32_u32 v : Z.land v ones32 = u32 v.
Proof. unfold ones32, u32. apply Z.land_ones. lia. Qed.

Lemma land_ones64_u64 v : Z.land v ones64 = u64 v.
Proof. unfold ones64, u64. apply Z.land_ones. lia. Qed.

Lemma u32_range v : 0 <= u32 v < 2 ^ 32.
Proof. unfold u32. apply Z.mod_pos_bound. lia. Qed.

(** Extra fuel does not change the varint64 loop once the value fits. *)
Lemma EncodeVarint64_loop_fuel f : forall v k,
  0 <= v < 2 ^ (7 * Z.of_nat (S f)) ->
  EncodeVarint64_loop (f + k) v = EncodeVarint64_loop f v.
Proof.
  induction f as [|f IH]; intros v k Hv.
  - destruct k as [|k]; [reflexivity|]. cbn [EncodeVarint64_loop Nat.add].
    unfold B. replace (v >=? 128) with false
      by (symmetry; rewrite Z.geb_leb; apply Z.leb_gt; cbn in Hv; lia). reflexivity.
  - cbn [EncodeVarint64_loop Nat.add]. destruct (v >=? B) eqn:Hb; [|reflexivity].
    rewrite IH; [reflexivity|]. rewrite Z.shiftr_div_pow2 by lia. split; [apply Z.div_pos; lia|].
    apply Z.div_lt_upper_bound; [lia|]. rewrite <- Z.pow_add_r by lia.
    replace (7 + 7 * Z.of_nat (S f)) with (7 * Z.of_nat (S (S f))) by lia. lia.
Qed.

Lemma VarintLength_loop_length f : forall v len,
  VarintLength_loop f v len = len + Z.of_nat (List.length (EncodeVarint64_loop f v)) - 1.
Proof.
  induction f as [|f IH]; intros v len; cbn [VarintLength_loop EncodeVarint64_loop].
  - cbn. lia.
  - unfold B. destruct (v >=? 128); [rewrite IH; cbn [List.length]; lia|cbn; lia].
Qed.

Lemma EncodeVarint64_loop_length_le f : forall v n,
  0 <= v < 2 ^ (7 * Z.of_nat (S n)) -> (List.length (EncodeVarint64_loop f v) <= S n)%nat.
Proof.
  induction f as [|f IH]; intros v n Hv; cbn [EncodeVarint64_loop]; [cbn; lia|].
  unfold B. destruct (Z.geb_spec v 128) as [Hge|Hlt]; [|cbn; lia].
  destruct n as [|n]; [cbn in Hv; lia|].
  cbn [List.length]. apply le_n_S, IH.
  rewrite Z.shiftr_div_pow2 by lia. split; [apply Z.div_pos; lia|].
  apply Z.div_lt_upper_bound; [lia|]. rewrite <- Z.pow_add_r by lia.
  replace (7 + 7 * Z.of_nat (S n)) with (7 * Z.of_nat (S (S n))) by lia. lia.
Qed.

Lemma EncodeVarint64_loop_length_pos f v : (1 <= List.length (EncodeVarint64_loop f v))%nat.
Proof. destruct f; cbn; [lia|]. destruct (v >=? B); cbn; lia. Qed.

Lemma EncodeVarint32_as_64 v :
  0 <= v < 2 ^ 32 -> EncodeVarint32 v = EncodeVarint64 v.
Proof.
  intros Hv. rewrite EncodeVarint32_loop by exact Hv. unfold EncodeVarint64.
  change 10%nat with (4 + 6)%nat. rewrite EncodeVarint64_loop_fuel; [reflexivity|].
  cbn [Z.of_nat Pos.of_succ_nat Pos.succ]. lia.
Qed.

Lemma VarintLength_Encode v : VarintLength v = Z.of_nat (List.length (EncodeVarint64 v)).
Proof. unfold VarintLength, EncodeVarint64. rewrite VarintLength_loop_length. lia. Qed.

Lemma EncodeVarint32_length v :
  (1 <= List.length (EncodeVarint32 (u32 v)) <= 5)%nat.
Proof.
  pose proof (u32_range v) as Hv.
  rewrite EncodeVarint32_as_64 by exact Hv. unfold EncodeVarint64.
  split; [apply EncodeVarint64_loop_length_pos|].
  apply EncodeVarint64_loop_length_le. cbn [Z.of_nat Pos.of_succ_nat Pos.succ]. lia.
Qed.

(** A strict prefix of a varint encoding: every byte read has its
    continuation bit set, and the input ends. *)
Lemma get_varint_loop_prefix f : forall v k w n s r,
  (k < List.length (EncodeVarint64_loop f v))%nat ->
  get_varint_loop w n s r (firstn k (EncodeVarint64_loop f v)) = None.
Proof.
  induction f as [|f IH]; intros v k w n s r Hk; cbn [EncodeVarint64_loop] in *.
  - cbn in Hk. assert (k = O) by lia. subst k. destruct n; reflexivity.
  - destruct (Z.geb_spec v B) as [Hge|Hlt].
    + destruct k as [|k]; [destruct n; reflexivity|].
      cbn [List.length] in Hk. cbn [firstn]. destruct n as [|n]; [reflexivity|].
      cbn [get_varint_loop]. rewrite byte_to_Z_of.
      replace (Z.land (Z.land (Z.lor (Z.land v (B - 1)) B) 255) 128 =? 0) with false.
      2:{ symmetry. apply Z.eqb_neq.
          replace (Z.land (Z.land (Z.lor (Z.land v (B - 1)) B) 255) 128) with 128 by bits.
          lia. }
      apply IH. lia.
    + cbn in Hk. assert (k = O) by lia. subst k. destruct n; reflexivity.
Qed.

(** Bytes with the continuation bit set, as many as the loop has shifts. *)
Lemma get_varint_loop_overlong n : forall (l rest : bytes) w s r,
  Forall (fun b => Z.land (byte_to_Z b) 128 <> 0) l -> (n <= List.length l)%nat ->
  get_varint_loop w n s r (l ++ rest) = None.
Proof.
  induction n as [|n IH]; intros l rest w s r Hl Hn; [reflexivity|].
  destruct l as [|b l]; [cbn in Hn; lia|]. inversion Hl as [|? ? Hb Hl']; subst.
  cbn [app get_varint_loop]. rewrite (proj2 (Z.eqb_neq _ _) Hb). cbn [negb].
  apply IH; [exact Hl'|cbn in Hn; lia].
Qed.

(** X1: [PutFixed32] and [PutFixed64] append exactly 4 and 8 bytes,
    from which [DecodeFixed32] and [DecodeFixed64] read back the value
    truncated to 32 and 64 bits, whatever follows. *)
Theorem Fixed_roundtrip dst v rest :
  (exists enc, PutFixed32 dst v = dst ++ enc /\ List.length enc = 4%nat /\
               DecodeFixed32 (enc ++ rest) = u32 v) /\
  (exists enc, PutFixed64 dst v = dst ++ enc /\ List.length enc = 8%nat /\
               DecodeFixed64 (enc ++ rest) = u64 v).
Proof.
  split.
  - exists (EncodeFixed32 v). split; [reflexivity|]. split; [reflexivity|].
    rewrite Decode_Encode_Fixed32. apply land_ones32_u32.
  - exists (EncodeFixed64 v). split; [reflexivity|]. split; [reflexivity|].
    rewrite Decode_Encode_Fixed64. apply land_ones64_u64.
Qed.

(** X2: [PutVarint32] appends between 1 and 5 bytes, [VarintLength]
    of the value truncated to 32 bits, from which [GetVarint32] reads back
    that value and leaves whatever follows. *)
Theorem Varint32_roundtrip dst v rest :
  exists enc, PutVarint32 dst v = dst ++ enc /\
    GetVarint32 (enc ++ rest) = Some (u32 v, rest) /\
    Z.of_nat (List.length enc) = VarintLength (u32 v) /\
    (1 <= List.length enc <= 5)%nat.
Proof.
  pose proof (u32_range v) as Hv.
  exists (EncodeVarint32 (u32 v)). split; [reflexivity|].
  split; [apply GetVarint32_Encode, Hv|].
  split; [rewrite VarintLength_Encode, EncodeVarint32_as_64 by exact Hv; reflexivity|].
  apply EncodeVarint32_length.
Qed.

(** X3: for a [uint64_t] value, [PutVarint64] appends between 1 and
    10 bytes, [VarintLength] of the value, from which [GetVarint64] reads
    back the value and leaves whatever follows. *)
Theorem Varint64_roundtrip dst v rest :
  0 <= v < 2 ^ 64 ->
  exists enc, PutVarint64 dst v = dst ++ enc /\
    GetVarint64 (enc ++ rest) = Some (v, rest) /\
    Z.of_nat (List.length enc) = VarintLength v /\
    (1 <= List.length enc <= 10)%nat.
Proof.
  intros Hv. exists (EncodeVarint64 v). split; [reflexivity|].
  split; [apply GetVarint64_Encode, Hv|].
  rewrite VarintLength_Encode. split; [reflexivity|].
  unfold EncodeVarint64. split; [apply EncodeVarint64_loop_length_pos|].
  apply EncodeVarint64_loop_length_le. cbn [Z.of_nat Pos.of_succ_nat Pos.succ]. lia.
Qed.

Lemma Varint64_roundtrip_witness :
  0 <= 300 < 2 ^ 64 /\
  exists enc, PutVarint64 [Byte.x07] 300 = [Byte.x07] ++ enc /\
    GetVarint64 (enc ++ [Byte.x01]) = Some (300, [Byte.x01]) /\
    Z.of_nat (List.length enc) = VarintLength 300 /\
    (1 <= List.length enc <= 10)%nat.
Proof.
  assert (H : 0 <= 300 < 2 ^ 64) by lia.
  split; [exact H|]. exact (Varint64_roundtrip [Byte.x07] 300 [Byte.x01] H).
Defined.

(** X4: a varint cut short fails to decode: [GetVarint32] and
    [GetVarint64] return failure on every strict prefix of an encoding
    [PutVarint32] or [PutVarint64] writes. *)
Theorem Varint_truncated v k :
  ((k < List.length (EncodeVarint32 (u32 v)))%nat ->
   GetVarint32 (firstn k (EncodeVarint32 (u32 v))) = None) /\
  ((k < List.length (EncodeVarint64 v))%nat ->
   GetVarint64 (firstn k (EncodeVarint64 v)) = None).
Proof.
  split; intros Hk.
  - unfold GetVarint32. rewrite GetVarint32Ptr_Fallback. unfold GetVarint32PtrFallback.
    rewrite EncodeVarint32_loop in * by apply u32_range. apply get_varint_loop_prefix. exact Hk.
  - unfold GetVarint64, GetVarint64Ptr, EncodeVarint64 in *. apply get_varint_loop_prefix. exact Hk.
Qed.

Lemma Varint_truncated_witness :
  (1 < List.length (EncodeVarint32 (u32 300)))%nat /\
  (1 < List.length (EncodeVarint64 300))%nat /\
  GetVarint32 (firstn 1 (EncodeVarint32 (u32 300))) = None /\
  GetVarint64 (firstn 1 (EncodeVarint64 300)) = None.
Proof.
  assert (H1 : (1 < List.length (EncodeVarint32 (u32 300)))%nat) by (vm_compute; lia).
  assert (H2 : (1 < List.length (EncodeVarint64 300))%nat) by (vm_compute; lia).
  split; [exact H1|]. split; [exact H2|].
  split; [exact (proj1 (Varint_truncated 300 1) H1)|exact (proj2 (Varint_truncated 300 1) H2)].
Defined.

(** X5: [GetVarint32] fails on five bytes that all have the
    continuation bit set, and [GetVarint64] on ten, whatever follows: the
    loops stop at [shift <= 28] and [shift <= 63]. *)
Theorem Varint_overlong (l rest : bytes) :
  Forall (fun b => Z.land (byte_to_Z b) 128 <> 0) l ->
  ((5 <= List.length l)%nat -> GetVarint32 (l ++ rest) = None) /\
  ((10 <= List.length l)%nat -> GetVarint64 (l ++ rest) = None).
Proof.
  intros Hl. split; intros Hn.
  - unfold GetVarint32. rewrite GetVarint32Ptr_Fallback. unfold GetVarint32PtrFallback.
    apply get_varint_loop_overlong; assumption.
  - unfold GetVarint64, GetVarint64Ptr. apply get_varint_loop_overlong; assumption.
Qed.

Lemma Varint_overlong_witness :
  Forall (fun b => Z.land (byte_to_Z b) 128 <> 0) (repeat Byte.xff 10) /\
  (5 <= List.length (repeat Byte.xff 10))%nat /\ (10 <= List.length (repeat Byte.xff 10))%nat /\
  GetVarint32 (repeat Byte.xff 10 ++ [Byte.x01]) = None /\
  GetVarint64 (repeat Byte.xff 10 ++ [Byte.x01]) = None.
Proof.
  assert (H : Forall (fun b => Z.land (byte_to_Z b) 128 <> 0) (repeat Byte.xff 10)).
  { cbn. repeat constructor; vm_compute; discriminate. }
  assert (H5 : (5 <= List.length (repeat Byte.xff 10))%nat) by (cbn; lia).
  assert (H10 : (10 <= List.length (repeat Byte.xff 10))%nat) by (cbn; lia).
  split; [exact H|]. split; [exact H5|]. split; [exact H10|].
  split; [exact (proj1 (Varint_overlong _ [Byte.x01] H) H5)|exact (proj2 (Varint_overlong _ [Byte.x01] H) H10)].
Defined.

(** X6: a slice shorter than [2^32] bytes written by
    [PutLengthPrefixedSlice] is read back by both [GetLengthPrefixedSlice]
    functions, which leave whatever follows. *)
Theorem LengthPrefixedSlice_roundtrip dst value rest result :
  Z.of_nat (List.length value) < 2 ^ 32 ->
  exists enc, PutLengthPrefixedSlice dst value = dst ++ enc /\
    GetLengthPrefixedSlice (enc ++ rest) result = (true, rest, value) /\
    GetLengthPrefixedSlicePtr (enc ++ rest) = Some (value, rest).
Proof.
  intros Hn. exists (EncodeVarint32 (u32 (Z.of_nat (List.length value))) ++ value).
  split; [unfold PutLengthPrefixedSlice, PutVarint32; rewrite <- app_assoc; reflexivity|].
  assert (Hu : u32 (Z.of_nat (List.length value)) = Z.of_nat (List.length value))
    by (unfold u32; apply Z.mod_small; lia).
  rewrite Hu, <- app_assoc.
  unfold GetLengthPrefixedSlice, GetLengthPrefixedSlicePtr.
  pose proof (GetVarint32_Encode (Z.of_nat (List.length value)) (value ++ rest) ltac:(lia)) as E.
  unfold GetVarint32 in E. unfold GetVarint32. rewrite E.
  rewrite length_app, Nat2Z.id, firstn_app, skipn_app, firstn_all, skipn_all, Nat.sub_diag.
  cbn [firstn skipn]. rewrite app_nil_r.
  rewrite (proj2 (Z.leb_le _ _)) by lia. rewrite (proj2 (Z.ltb_ge _ _)) by lia. split; reflexivity.
Qed.

Lemma LengthPrefixedSlice_roundtrip_witness :
  Z.of_nat (List.length [Byte.x61; Byte.x62]) < 2 ^ 32 /\
  exists enc, PutLengthPrefixedSlice [] [Byte.x61; Byte.x62] = [] ++ enc /\
    GetLengthPrefixedSlice (enc ++ [Byte.x63]) [] = (true, [Byte.x63], [Byte.x61; Byte.x62]) /\
    GetLengthPrefixedSlicePtr (enc ++ [Byte.x63]) = Some ([Byte.x61; Byte.x62], [Byte.x63]).
Proof.
  assert (H : Z.of_nat (List.length [Byte.x61; Byte.x62]) < 2 ^ 32) by (cbn; lia).
  split; [exact H|]. exact (LengthPrefixedSlice_roundtrip [] _ [Byte.x63] [] H).
Defined.

(** X7: when the length read is larger than the bytes that follow,
    [GetLengthPrefixedSlice] fails, leaving the result alone but the input
    advanced past the length, and [GetLengthPrefixedSlicePtr] fails. *)
Theorem LengthPrefixedSlice_short n data result :
  0 <= n < 2 ^ 32 -> Z.of_nat (List.length data) < n ->
  GetLengthPrefixedSlice (EncodeVarint32 n ++ data) result = (false, data, result) /\
  GetLengthPrefixedSlicePtr (EncodeVarint32 n ++ data) = None.
Proof.
  intros Hn Hd. unfold GetLengthPrefixedSlice, GetLengthPrefixedSlicePtr.
  pose proof (GetVarint32_Encode n data Hn) as E. unfold GetVarint32 in E. unfold GetVarint32.
  rewrite E. rewrite (proj2 (Z.leb_gt _ _)) by lia. rewrite (proj2 (Z.ltb_lt _ _)) by lia.
  split; reflexivity.
Qed.

Lemma LengthPrefixedSlice_short_witness :
  0 <= 3 < 2 ^ 32 /\ Z.of_nat (List.length [Byte.x61]) < 3 /\
  GetLengthPrefixedSlice (EncodeVarint32 3 ++ [Byte.x61]) [] = (false, [Byte.x61], []) /\
  GetLengthPrefixedSlicePtr (EncodeVarint32 3 ++ [Byte.x61]) = None.
Proof.
  assert (H1 : 0 <= 3 < 2 ^ 32) by lia.
  assert (H2 : Z.of_nat (List.length [Byte.x61]) < 3) by (cbn; lia).
  split; [exact H1|]. split; [exact H2|]. exact (LengthPrefixedSlice_short 3 [Byte.x61] [] H1 H2).
Defined.

End CodingProps.

(* ------------------------------------------------------------------ *)
(** ** Properties of util/comparator.cc, include/leveldb/slice.h and the
    internal key comparator of db/dbformat.cc *)
Module ComparatorProps.
Import Coding CodingFacts Comparator DBFormat.

Lemma byte_to_Z_inj x y : byte_to_Z x = byte_to_Z y -> x = y.
Proof. intros H. rewrite <- (Z_to_byte_of x), <- (Z_to_byte_of y), H. reflexivity. Qed.

Lemma memcmp_app p a b n :
  memcmp (p ++ a) (p ++ b) (List.length p + n) = memcmp a b n.
Proof.
  induction p as [|z p IH]; [reflexivity|].
  cbn [app List.length Nat.add memcmp]. rewrite !Z.ltb_irrefl. exact IH.
Qed.

Lemma memcmp_refl a n : memcmp a a n = 0.
Proof.
  revert n; induction a as [|z a IH]; intros [|n]; try reflexivity.
  cbn [memcmp]. rewrite !Z.ltb_irrefl. apply IH.
Qed.

Lemma memcmp_antisym a b n : memcmp a b n = - memcmp b a n.
Proof.
  revert b n; induction a as [|x a IH]; intros [|y b] [|n]; try reflexivity.
  cbn [memcmp].
  destruct (Z.ltb_spec (byte_to_Z x) (byte_to_Z y));
  destruct (Z.ltb_spec (byte_to_Z y) (byte_to_Z x)); try lia.
  apply IH.
Qed.

Lemma memcmp_zero a b n :
  (n <= List.length a)%nat -> (n <= List.length b)%nat ->
  memcmp a b n = 0 -> firstn n a = firstn n b.
Proof.
  revert b n; induction a as [|x a IH]; intros [|y b] [|n] Ha Hb H;
    cbn [List.length] in *; try reflexivity; try lia.
  cbn [memcmp] in H.
  destruct (Z.ltb_spec (byte_to_Z x) (byte_to_Z y)); [lia|].
  destruct (Z.ltb_spec (byte_to_Z y) (byte_to_Z x)); [lia|].
  cbn [firstn]. rewrite (byte_to_Z_inj x y) by lia.
  f_equal. apply IH; auto; lia.
Qed.

Lemma Slice_compare_refl a : Slice_compare a a = 0.
Proof.
  unfold Slice_compare. rewrite memcmp_refl, Nat.ltb_irrefl. reflexivity.
Qed.

Lemma Slice_compare_antisym a b : Slice_compare a b = - Slice_compare b a.
Proof.
  unfold Slice_compare. rewrite (Nat.min_comm (List.length b)).
  rewrite (memcmp_antisym b a).
  set (m := memcmp a b _).
  destruct (Z.eqb_spec m 0) as [Hm|Hm];
  destruct (Z.eqb_spec (- m) 0); try lia.
  destruct (Nat.ltb_spec (List.length a) (List.length b));
  destruct (Nat.ltb_spec (List.length b) (List.length a)); lia.
Qed.

Lemma Slice_compare_eq a b : Slice_compare a b = 0 -> a = b.
Proof.
  unfold Slice_compare. intros H.
  destruct (Z.eqb_spec (memcmp a b (Nat.min (List.length a) (List.length b))) 0) as [Hm|Hm];
    [|exact (False_ind _ (Hm H))].
  destruct (Nat.ltb_spec (List.length a) (List.length b)); [discriminate|].
  destruct (Nat.ltb_spec (List.length b) (List.length a)); [discriminate|].
  assert (Hl : List.length a = List.length b) by lia.
  rewrite <- Hl, Nat.min_id in Hm.
  apply memcmp_zero in Hm; [|lia|lia].
  rewrite <- (firstn_all a), Hm, Hl, firstn_all. reflexivity.
Qed.

(** Two slices that agree on [p] and then differ at one byte compare as
    those bytes do. *)
Lemma Slice_compare_lt_at p x a y b :
  byte_to_Z x < byte_to_Z y ->
  Slice_compare (p ++ x :: a) (p ++ y :: b) = -1.
Proof.
  intros Hxy. unfold Slice_compare. rewrite !length_app. cbn [List.length].
  replace (Nat.min (List.length p + S (List.length a)) (List.length p + S (List.length b)))
    with (List.length p + S (Nat.min (List.length a) (List.length b)))%nat by lia.
  rewrite memcmp_app. cbn [memcmp].
  destruct (Z.ltb_spec (byte_to_Z x) (byte_to_Z y)); [reflexivity|lia].
Qed.

(** A proper prefix sorts first. *)
Lemma Slice_compare_prefix p t :
  t <> [] -> Slice_compare p (p ++ t) = -1.
Proof.
  intros Ht. unfold Slice_compare. rewrite length_app.
  replace (Nat.min (List.length p) (List.length p + List.length t)) with (List.length p + 0)%nat by lia.
  rewrite <- (app_nil_r p) at 1. rewrite memcmp_app. cbn [memcmp Z.eqb].
  destruct t as [|z t]; [congruence|]. cbn [List.length].
  destruct (Nat.ltb_spec (List.length p) (List.length p + S (List.length t))); [reflexivity|lia].
Qed.

Lemma split_at (d : nat) (l : bytes) :
  (d < List.length l)%nat -> l = firstn d l ++ nth d l Byte.x00 :: skipn (S d) l.
Proof.
  revert d; induction l as [|z l IH]; intros [|d] H; cbn [List.length] in H; try lia.
  - reflexivity.
  - cbn [firstn nth skipn app]. f_equal. apply IH. lia.
Qed.

Lemma firstn_set_at (d : nat) (l : bytes) z :
  (d <= List.length l)%nat ->
  firstn (S d) (firstn d l ++ z :: skipn (S d) l) = firstn d l ++ [z].
Proof.
  intros H.
  rewrite firstn_app, firstn_firstn, length_firstn.
  replace (Nat.min (S d) d) with d by lia. replace (Nat.min d (List.length l)) with d by lia.
  replace (S d - d)%nat with 1%nat by lia. reflexivity.
Qed.

Lemma diff_index_loop_spec (a b : bytes) :
  (diff_index_loop a b <= Nat.min (List.length a) (List.length b))%nat /\
  firstn (diff_index_loop a b) a = firstn (diff_index_loop a b) b /\
  ((diff_index_loop a b < Nat.min (List.length a) (List.length b))%nat ->
   nth (diff_index_loop a b) a Byte.x00 <> nth (diff_index_loop a b) b Byte.x00).
Proof.
  revert b; induction a as [|x a IH]; intros [|y b]; cbn [diff_index_loop List.length];
    try (split; [lia|split; [reflexivity|lia]]).
  destruct (Byte.eqb x y) eqn:Exy.
  1: apply Byte.byte_dec_bl in Exy; subst y.
  2: apply Byte.eqb_false in Exy as Hxy.
  - destruct (IH b) as (H1 & H2 & H3). cbn [firstn nth].
    split; [lia|split; [f_equal; exact H2|intros; apply H3; lia]].
  - split; [lia|split; [reflexivity|intros _; exact Hxy]].
Qed.

Lemma diff_index_loop_same (a : bytes) : diff_index_loop a a = List.length a.
Proof.
  induction a as [|x a IH]; [reflexivity|].
  cbn [diff_index_loop List.length]. rewrite (Byte.byte_dec_lb (eq_refl x)), IH. reflexivity.
Qed.

Lemma FindShortestSeparator_same (a : bytes) : FindShortestSeparator a a = a.
Proof.
  unfold FindShortestSeparator. rewrite diff_index_loop_same, Nat.min_id, Nat.leb_refl.
  reflexivity.
Qed.

Lemma FindShortestSeparator_cases (start limit : bytes) :
  FindShortestSeparator start limit = start \/
  exists p cs ts cl tl,
    start = p ++ cs :: ts /\ limit = p ++ cl :: tl /\
    byte_to_Z cs < 255 /\ byte_to_Z cs + 1 < byte_to_Z cl /\
    FindShortestSeparator start limit = p ++ [Z_to_byte (byte_to_Z cs + 1)].
Proof.
  unfold FindShortestSeparator.
  destruct (diff_index_loop_spec start limit) as (H1 & H2 & H3).
  set (d := diff_index_loop start limit) in *.
  destruct (Nat.leb_spec (Nat.min (List.length start) (List.length limit)) d); [left; reflexivity|].
  destruct ((byte_at start d <? 255) && (byte_at start d + 1 <? byte_at limit d)) eqn:E;
    [|left; reflexivity].
  right. apply andb_true_iff in E as [E1 E2]. apply Z.ltb_lt in E1, E2.
  exists (firstn d start), (nth d start Byte.x00), (skipn (S d) start),
         (nth d limit Byte.x00), (skipn (S d) limit).
  split; [apply split_at; lia|]. split; [rewrite H2; apply split_at; lia|].
  split; [exact E1|]. split; [exact E2|].
  apply firstn_set_at. lia.
Qed.


Lemma byte_succ z : 0 <= z < 255 -> byte_to_Z (Z_to_byte (z + 1)) = z + 1.
Proof.
  intros H. rewrite byte_to_Z_of. change 255 with (Z.ones 8).
  rewrite Z.land_ones, Z.mod_small by lia. reflexivity.
Qed.

(** X8: [BytewiseComparatorImpl::Compare], i.e. [Slice::compare], is
    antisymmetric and returns 0 exactly on equal byte strings. *)
Theorem BytewiseComparator_antisym_eq (a b : bytes) :
  BytewiseComparator a b = - BytewiseComparator b a /\
  (BytewiseComparator a b = 0 <-> a = b).
Proof.
  unfold BytewiseComparator. split; [apply Slice_compare_antisym|].
  split; [apply Slice_compare_eq|intros ->; apply Slice_compare_refl].
Qed.

(** X9: the bytewise [FindShortestSeparator] never moves [start]
    backwards and never lengthens it, and when [start] is before [limit]
    the result is still before [limit]. *)
Theorem FindShortestSeparator_spec (start limit : bytes) :
  let r := FindShortestSeparator start limit in
  BytewiseComparator start r <= 0 /\
  (List.length r <= List.length start)%nat /\
  (BytewiseComparator start limit < 0 -> BytewiseComparator r limit < 0).
Proof.
  cbv zeta. unfold BytewiseComparator.
  destruct (FindShortestSeparator_cases start limit) as [->|(p & cs & ts & cl & tl & Hs & Hl & H1 & H2 & ->)].
  - rewrite Slice_compare_refl. split; [lia|split; [lia|auto]].
  - pose proof (byte_to_Z_range cs).
    subst start limit. split; [|split].
    + rewrite Slice_compare_lt_at; [lia|]. rewrite byte_succ by lia. lia.
    + rewrite !length_app. cbn [List.length]. lia.
    + intros _. rewrite Slice_compare_lt_at; [lia|]. rewrite byte_succ by lia. lia.
Qed.

Lemma FindShortestSeparator_spec_witness :
  BytewiseComparator [Byte.x61; Byte.x62; Byte.x63; Byte.x64] [Byte.x61; Byte.x62; Byte.x7a] < 0 /\
  BytewiseComparator (FindShortestSeparator [Byte.x61; Byte.x62; Byte.x63; Byte.x64]
                        [Byte.x61; Byte.x62; Byte.x7a]) [Byte.x61; Byte.x62; Byte.x7a] < 0.
Proof.
  assert (H : BytewiseComparator [Byte.x61; Byte.x62; Byte.x63; Byte.x64]
                [Byte.x61; Byte.x62; Byte.x7a] < 0) by (vm_compute; reflexivity).
  split; [exact H|].
  exact (proj2 (proj2 (FindShortestSeparator_spec [Byte.x61; Byte.x62; Byte.x63; Byte.x64]
                         [Byte.x61; Byte.x62; Byte.x7a])) H).
Defined.


Lemma ExtractUserKey_PutFixed64 tmp x : ExtractUserKey (PutFixed64 tmp x) = tmp.
Proof.
  unfold ExtractUserKey, PutFixed64. rewrite length_app.
  change (List.length (EncodeFixed64 x)) with 8%nat.
  replace (List.length tmp + 8 - 8)%nat with (List.length tmp) by lia.
  rewrite firstn_app, Nat.sub_diag, firstn_all. apply app_nil_r.
Qed.

Lemma length_PutFixed64 tmp x : List.length (PutFixed64 tmp x) = (List.length tmp + 8)%nat.
Proof. unfold PutFixed64. rewrite length_app. reflexivity. Qed.

Lemma length_ExtractUserKey k : List.length (ExtractUserKey k) = (List.length k - 8)%nat.
Proof. unfold ExtractUserKey. rewrite length_firstn. lia. Qed.

Lemma IKC_refl k : InternalKeyComparator_Compare BytewiseComparator k k = 0.
Proof.
  unfold InternalKeyComparator_Compare, BytewiseComparator.
  rewrite Slice_compare_refl, Z.eqb_refl, Z.ltb_irrefl. reflexivity.
Qed.

Lemma IKC_user_ne a b :
  BytewiseComparator (ExtractUserKey a) (ExtractUserKey b) <> 0 ->
  InternalKeyComparator_Compare BytewiseComparator a b
  = BytewiseComparator (ExtractUserKey a) (ExtractUserKey b).
Proof.
  intros H. unfold InternalKeyComparator_Compare.
  destruct (Z.eqb_spec (BytewiseComparator (ExtractUserKey a) (ExtractUserKey b)) 0);
    [contradiction|reflexivity].
Qed.

(** X11: with the bytewise user comparator, the internal key
    comparator is antisymmetric, and on keys of at least 8 bytes (a user
    key and its 8-byte tag) it returns 0 exactly on equal keys. *)
Theorem InternalKeyComparator_antisym_eq (a b : bytes) :
  (8 <= List.length a)%nat -> (8 <= List.length b)%nat ->
  InternalKeyComparator_Compare BytewiseComparator a b
    = - InternalKeyComparator_Compare BytewiseComparator b a /\
  (InternalKeyComparator_Compare BytewiseComparator a b = 0 <-> a = b).
Proof.
  intros Ha Hb. unfold InternalKeyComparator_Compare.
  unfold BytewiseComparator.
  rewrite (Slice_compare_antisym (ExtractUserKey b)).
  set (u := Slice_compare (ExtractUserKey a) (ExtractUserKey b)).
  set (ta := skipn (List.length a - 8) a). set (tb := skipn (List.length b - 8) b).
  split.
  - destruct (Z.eqb_spec u 0); destruct (Z.eqb_spec (- u) 0); try lia.
    destruct (Z.ltb_spec (DecodeFixed64 tb) (DecodeFixed64 ta));
    destruct (Z.ltb_spec (DecodeFixed64 ta) (DecodeFixed64 tb)); lia.
  - split; [|intros <-; subst u tb ta; rewrite Slice_compare_refl, Z.eqb_refl, !Z.ltb_irrefl; reflexivity].
    intros H.
    destruct (Z.eqb_spec u 0) as [Hu|Hu]; [|contradiction].
    destruct (Z.ltb_spec (DecodeFixed64 tb) (DecodeFixed64 ta)); [discriminate|].
    destruct (Z.ltb_spec (DecodeFixed64 ta) (DecodeFixed64 tb)); [discriminate|].
    apply Slice_compare_eq in Hu.
    assert (Hta : List.length ta = 8%nat) by (subst ta; rewrite length_skipn; lia).
    assert (Htb : List.length tb = 8%nat) by (subst tb; rewrite length_skipn; lia).
    assert (Ht : ta = tb).
    { rewrite <- (FormatFacts.Encode_Decode_Fixed64_bytes ta Hta),
              <- (FormatFacts.Encode_Decode_Fixed64_bytes tb Htb).
      f_equal. lia. }
    rewrite <- (firstn_skipn (List.length a - 8) a), <- (firstn_skipn (List.length b - 8) b).
    fold ta tb. unfold ExtractUserKey in Hu. rewrite Hu, Ht. reflexivity.
Qed.

(** X12: [InternalKeyComparator::FindShortestSeparator] with the
    bytewise user comparator: when [start] is before [limit], the result
    lies in [start, limit) and is not longer than [start]. *)
Theorem InternalKey_FindShortestSeparator (start limit : bytes) :
  InternalKeyComparator_Compare BytewiseComparator start limit < 0 ->
  let r := InternalKeyComparator_FindShortestSeparator BytewiseComparator FindShortestSeparator start limit in
  InternalKeyComparator_Compare BytewiseComparator start r <= 0 /\
  InternalKeyComparator_Compare BytewiseComparator r limit < 0 /\
  (List.length r <= List.length start)%nat.
Proof.
  intros Hlt. cbv zeta. unfold InternalKeyComparator_FindShortestSeparator.
  set (us := ExtractUserKey start). set (ul := ExtractUserKey limit).
  set (tmp := FindShortestSeparator us ul).
  destruct (Nat.ltb (List.length tmp) (List.length us) && (BytewiseComparator us tmp <? 0)) eqn:E.
  - apply andb_true_iff in E as [E1 E2]. apply Nat.ltb_lt in E1. apply Z.ltb_lt in E2.
    set (r := PutFixed64 tmp _).
    assert (Hr : ExtractUserKey r = tmp) by apply ExtractUserKey_PutFixed64.
    assert (Hul : BytewiseComparator us ul < 0).
    { destruct (Z.eq_dec (BytewiseComparator us ul) 0) as [H0|H0].
      - exfalso. unfold BytewiseComparator in H0. apply Slice_compare_eq in H0.
        subst tmp. rewrite H0, FindShortestSeparator_same in E1. lia.
      - rewrite IKC_user_ne in Hlt by exact H0. exact Hlt. }
    destruct (FindShortestSeparator_spec us ul) as (_ & _ & H3).
    specialize (H3 Hul). fold tmp in H3.
    split; [|split].
    + rewrite IKC_user_ne; fold us; rewrite Hr; lia.
    + rewrite IKC_user_ne; fold ul; rewrite Hr; lia.
    + unfold r. rewrite length_PutFixed64.
      unfold us in E1. rewrite length_ExtractUserKey in E1. lia.
  - rewrite IKC_refl. split; [lia|split; [exact Hlt|lia]].
Qed.

(** X13: [InternalKeyComparator::FindShortSuccessor] with the bytewise
    user comparator returns a key that is not before [key] and not longer
    than it. *)
Theorem InternalKey_FindShortSuccessor (key : bytes) :
  let r := InternalKeyComparator_FindShortSuccessor BytewiseComparator FindShortSuccessor key in
  InternalKeyComparator_Compare BytewiseComparator key r <= 0 /\
  (List.length r <= List.length key)%nat.
Proof.
  cbv zeta. unfold InternalKeyComparator_FindShortSuccessor.
  set (uk := ExtractUserKey key). set (tmp := FindShortSuccessor uk).
  destruct (Nat.ltb (List.length tmp) (List.length uk) && (BytewiseComparator uk tmp <? 0)) eqn:E.
  - apply andb_true_iff in E as [E1 E2]. apply Nat.ltb_lt in E1. apply Z.ltb_lt in E2.
    split.
    + rewrite IKC_user_ne; fold uk; rewrite ExtractUserKey_PutFixed64; lia.
    + rewrite length_PutFixed64. unfold uk in E1. rewrite length_ExtractUserKey in E1. lia.
  - rewrite IKC_refl. split; lia.
Qed.

Lemma InternalKeyComparator_antisym_eq_witness :
  let a := AppendInternalKey [] (mkParsedInternalKey (list_byte_of_string "k") 7 kTypeValue) in
  let b := AppendInternalKey [] (mkParsedInternalKey (list_byte_of_string "k") 9 kTypeValue) in
  (8 <= List.length a)%nat /\ (8 <= List.length b)%nat /\
  InternalKeyComparator_Compare BytewiseComparator a b
    = - InternalKeyComparator_Compare BytewiseComparator b a /\
  (InternalKeyComparator_Compare BytewiseComparator a b = 0 <-> a = b).
Proof.
  cbv zeta. split; [vm_compute; lia|split; [vm_compute; lia|]].
  apply InternalKeyComparator_antisym_eq; vm_compute; lia.
Defined.

Lemma InternalKey_FindShortestSeparator_witness :
  let start := AppendInternalKey [] (mkParsedInternalKey (list_byte_of_string "abcdef") 7 kTypeValue) in
  let limit := AppendInternalKey [] (mkParsedInternalKey (list_byte_of_string "abzz") 9 kTypeValue) in
  InternalKeyComparator_Compare BytewiseComparator start limit < 0 /\
  let r := InternalKeyComparator_FindShortestSeparator BytewiseComparator FindShortestSeparator start limit in
  InternalKeyComparator_Compare BytewiseComparator start r <= 0 /\
  InternalKeyComparator_Compare BytewiseComparator r limit < 0 /\
  (List.length r <= List.length start)%nat.
Proof.
  cbv zeta. split; [vm_compute; reflexivity|].
  apply InternalKey_FindShortestSeparator. vm_compute. reflexivity.
Defined.

End ComparatorProps.

(* ------------------------------------------------------------------ *)
(** ** Properties of [LookupKey] (db/dbformat.cc) *)
Module LookupKeyProps.
Import Coding CodingFacts DBFormat CodingProps ComparatorProps.

(** X14: [LookupKey::LookupKey] writes at most [usize + 13] bytes, the
    size it allocates; when the internal key length fits a [uint32_t],
    the buffer is the internal key prefixed by its varint length, with
    nothing after it, [kstart_] points at that internal key, and its user
    key is the one looked up. *)
Theorem LookupKey_layout (user_key : bytes) (s : Z) :
  let k := NewLookupKey user_key s in
  (List.length (start_ k) <= List.length user_key + 13)%nat /\
  (Z.of_nat (List.length user_key) + 8 < 2 ^ 32 ->
   GetLengthPrefixedSlicePtr (start_ k) = Some (skipn (kstart_ k) (start_ k), []) /\
   ExtractUserKey (skipn (kstart_ k) (start_ k)) = user_key).
Proof.
  cbv zeta. unfold NewLookupKey. cbn [start_ kstart_].
  set (n := Z.of_nat (List.length user_key) + 8).
  set (t := EncodeFixed64 (PackSequenceAndType s kValueTypeForSeek)).
  split.
  - pose proof (EncodeVarint32_length n). rewrite !length_app.
    change (List.length t) with 8%nat. lia.
  - intros Hn. rewrite skipn_length_app.
    assert (Hu : u32 n = n) by (unfold u32; apply Z.mod_small; lia).
    split.
    + unfold GetLengthPrefixedSlicePtr. rewrite Hu.
      change (GetVarint32Ptr (EncodeVarint32 n ++ user_key ++ t))
        with (GetVarint32 (EncodeVarint32 n ++ user_key ++ t)).
      rewrite GetVarint32_Encode by lia.
      rewrite length_app. change (List.length t) with 8%nat.
      replace n with (Z.of_nat (List.length user_key + 8)) by lia.
      rewrite Z.ltb_irrefl, Nat2Z.id.
      replace (List.length user_key + 8)%nat with (List.length (user_key ++ t))
        by (rewrite length_app; reflexivity).
      rewrite firstn_all, skipn_all. reflexivity.
    + apply ExtractUserKey_PutFixed64.
Qed.

Lemma LookupKey_layout_witness :
  Z.of_nat (List.length [Byte.x61; Byte.x62]) + 8 < 2 ^ 32 /\
  GetLengthPrefixedSlicePtr (start_ (NewLookupKey [Byte.x61; Byte.x62] 5)) =
    Some (skipn (kstart_ (NewLookupKey [Byte.x61; Byte.x62] 5))
                (start_ (NewLookupKey [Byte.x61; Byte.x62] 5)), []) /\
  ExtractUserKey (skipn (kstart_ (NewLookupKey [Byte.x61; Byte.x62] 5))
                        (start_ (NewLookupKey [Byte.x61; Byte.x62] 5))) = [Byte.x61; Byte.x62].
Proof.
  assert (H : Z.of_nat (List.length [Byte.x61; Byte.x62]) + 8 < 2 ^ 32) by (cbn; lia).
  split; [exact H|].
  exact (proj2 (LookupKey_layout [Byte.x61; Byte.x62] 5) H).
Defined.

End LookupKeyProps.

(* ------------------------------------------------------------------ *)
(** ** Properties of [BlockHandle::DecodeFrom] (table/format.cc) *)
Module FormatProps.
Import Coding CodingFacts Status Format CodingProps.

Lemma GetVarint64_prefix v k :
  (k < List.length (EncodeVarint64 v))%nat -> GetVarint64 (firstn k (EncodeVarint64 v)) = None.
Proof.
  intros Hk. unfold GetVarint64, GetVarint64Ptr, EncodeVarint64 in *.
  apply get_varint_loop_prefix. exact Hk.
Qed.

(** X15: [BlockHandle::DecodeFrom] on a strict prefix of the encoding
    of a handle whose fields are [uint64_t] values reports
    [Corruption("bad block handle")]. *)
Theorem BlockHandle_DecodeFrom_truncated (h h0 : BlockHandle) (k : nat) :
  0 <= offset_ h < 2 ^ 64 -> 0 <= size_ h < 2 ^ 64 ->
  (k < List.length (BlockHandle_EncodeTo h []))%nat ->
  snd (BlockHandle_DecodeFrom h0 (firstn k (BlockHandle_EncodeTo h [])))
  = Corruption "bad block handle"%string.
Proof.
  intros Ho Hs Hk. unfold BlockHandle_EncodeTo, PutVarint64 in *. cbn [app] in *.
  rewrite length_app in Hk.
  unfold BlockHandle_DecodeFrom. rewrite firstn_app.
  destruct (Nat.lt_ge_cases k (List.length (EncodeVarint64 (offset_ h)))) as [Hlt|Hge].
  - replace (k - List.length (EncodeVarint64 (offset_ h)))%nat with O by lia.
    rewrite app_nil_r, GetVarint64_prefix by exact Hlt. reflexivity.
  - rewrite firstn_all2 by exact Hge.
    rewrite GetVarint64_Encode by exact Ho.
    rewrite GetVarint64_prefix by lia. reflexivity.
Qed.

Lemma BlockHandle_DecodeFrom_truncated_witness :
  let h := mkBlockHandle 300 70000 in
  0 <= offset_ h < 2 ^ 64 /\ 0 <= size_ h < 2 ^ 64 /\
  (3 < List.length (BlockHandle_EncodeTo h []))%nat /\
  snd (BlockHandle_DecodeFrom NewBlockHandle (firstn 3 (BlockHandle_EncodeTo h [])))
  = Corruption "bad block handle"%string.
Proof.
  cbv zeta.
  assert (H1 : 0 <= offset_ (mkBlockHandle 300 70000) < 2 ^ 64) by (cbn; lia).
  assert (H2 : 0 <= size_ (mkBlockHandle 300 70000) < 2 ^ 64) by (cbn; lia).
  assert (H3 : (3 < List.length (BlockHandle_EncodeTo (mkBlockHandle 300 70000) []))%nat)
    by (vm_compute; lia).
  split; [exact H1|split; [exact H2|split; [exact H3|]]].
  exact (BlockHandle_DecodeFrom_truncated _ _ _ H1 H2 H3).
Defined.

End FormatProps.

(* ------------------------------------------------------------------ *)
(** ** Properties of table/block_builder.cc *)
Module BlockProps.
Import Coding CodingFacts BlockBuilder CodingProps BlockFacts.

Lemma shared_prefix_spec (l k : bytes) :
  (shared_prefix l k <= List.length l)%nat /\ (shared_prefix l k <= List.length k)%nat /\
  firstn (shared_prefix l k) l = firstn (shared_prefix l k) k.
Proof.
  revert k; induction l as [|x l IH]; intros [|y k]; cbn [shared_prefix List.length];
    try (split; [lia|split; [lia|reflexivity]]).
  destruct (Byte.eqb x y) eqn:Exy.
  - apply Byte.byte_dec_bl in Exy; subst y.
    destruct (IH k) as (H1 & H2 & H3). cbn [firstn].
    split; [lia|split; [lia|f_equal; exact H3]].
  - split; [lia|split; [lia|reflexivity]].
Qed.

Lemma resize_le (s : bytes) n : (n <= List.length s)%nat -> resize s n = firstn n s.
Proof.
  intros H. unfold resize. replace (n - List.length s)%nat with O by lia. apply app_nil_r.
Qed.

Lemma length_flat_map_EncodeFixed32 (rs : list Z) :
  List.length (flat_map EncodeFixed32 rs) = (4 * List.length rs)%nat.
Proof.
  induction rs as [|r rs IH]; [reflexivity|].
  cbn [flat_map List.length]. rewrite length_app, IH. change (List.length (EncodeFixed32 r)) with 4%nat.
  lia.
Qed.

(** The fields of [Add]'s result, with the branch on [counter_] made
    explicit. *)
Lemma Add_fields interval b key value :
  let shared := if counter_ b <? interval then shared_prefix (last_key_ b) key else O in
  let non_shared := (List.length key - shared)%nat in
  let b' := Add interval b key value in
  buffer_ b' = PutVarint32 (PutVarint32 (PutVarint32 (buffer_ b) (Z.of_nat shared))
                 (Z.of_nat non_shared)) (Z.of_nat (List.length value))
               ++ firstn non_shared (skipn shared key) ++ value /\
  last_key_ b' = resize (last_key_ b) shared ++ firstn non_shared (skipn shared key) /\
  restarts_ b' = (if counter_ b <? interval then restarts_ b
                  else restarts_ b ++ [u32 (Z.of_nat (List.length (buffer_ b)))]) /\
  counter_ b' = (if counter_ b <? interval then counter_ b else 0) + 1.
Proof.
  cbv zeta. unfold Add.
  destruct (counter_ b <? interval);
    cbn [buffer_ last_key_ restarts_ counter_]; rewrite ?app_assoc;
    (split; [reflexivity|split; [reflexivity|split; reflexivity]]).
Qed.

(** X16: [CurrentSizeEstimate] is exactly the size of the block
    [Finish] would return: the entries, four bytes per restart point and
    four for their count. *)
Theorem CurrentSizeEstimate_Finish (b : BlockBuilder) :
  CurrentSizeEstimate b = u64 (Z.of_nat (List.length (snd (Finish b)))).
Proof.
  unfold CurrentSizeEstimate, Finish. cbn [snd].
  rewrite fold_PutFixed32. unfold PutFixed32. rewrite !length_app.
  rewrite length_flat_map_EncodeFixed32. change (List.length (EncodeFixed32 _)) with 4%nat.
  f_equal. lia.
Qed.

(** X17: after [Add], [last_key_] is the key just added, the
    [assert(Slice(last_key_) == Slice(key))] at the end of [Add]. *)
Theorem Add_last_key interval (b : BlockBuilder) (key value : bytes) :
  last_key_ (Add interval b key value) = key.
Proof.
  destruct (Add_fields interval b key value) as (_ & Hk & _).
  rewrite Hk. clear Hk.
  destruct (counter_ b <? interval).
  - destruct (shared_prefix_spec (last_key_ b) key) as (H1 & H2 & H3).
    set (s := shared_prefix (last_key_ b) key) in *.
    rewrite resize_le by exact H1. rewrite H3.
    rewrite (firstn_all2 (skipn s key)) by (rewrite length_skipn; lia). apply firstn_skipn.
  - unfold resize. cbn [firstn skipn]. rewrite Nat.sub_0_l, Nat.sub_0_r. cbn [repeat app].
    apply firstn_all.
Qed.

(** X18: the entry [Add] appends reads back with [GetVarint32]:
    three varints [shared], [non_shared] and [value_size], then the
    unshared part of the key and the value; the first [shared] bytes of
    the previous key followed by that part give the key back, and at a
    restart point [shared] is 0. *)
Theorem Add_entry_decode interval (b : BlockBuilder) (key value rest : bytes) :
  Z.of_nat (List.length key) < 2 ^ 32 -> Z.of_nat (List.length value) < 2 ^ 32 ->
  exists (shared : nat) (e r1 r2 : bytes),
    buffer_ (Add interval b key value) = buffer_ b ++ e /\
    GetVarint32 (e ++ rest) = Some (Z.of_nat shared, r1) /\
    GetVarint32 r1 = Some (Z.of_nat (List.length key - shared), r2) /\
    GetVarint32 r2 = Some (Z.of_nat (List.length value), skipn shared key ++ value ++ rest) /\
    firstn shared (last_key_ b) ++ skipn shared key = key /\
    (interval <= counter_ b -> shared = 0%nat).
Proof.
  intros Hk Hv.
  destruct (Add_fields interval b key value) as (Hb & _).
  set (shared := if counter_ b <? interval then shared_prefix (last_key_ b) key else O) in *.
  assert (Hs : (shared <= List.length (last_key_ b))%nat /\ (shared <= List.length key)%nat /\
               firstn shared (last_key_ b) = firstn shared key /\
               (interval <= counter_ b -> shared = 0%nat)).
  { subst shared. destruct (Z.ltb_spec (counter_ b) interval).
    - destruct (shared_prefix_spec (last_key_ b) key) as (H1 & H2 & H3).
      split; [lia|split; [lia|split; [exact H3|lia]]].
    - split; [lia|split; [lia|split; reflexivity]]. }
  destruct Hs as (Hs1 & Hs2 & Hs3 & Hs4).
  assert (Hu : forall z, 0 <= z < 2 ^ 32 -> u32 z = z) by (intros; unfold u32; apply Z.mod_small; lia).
  rewrite (firstn_all2 (skipn shared key)) in Hb by (rewrite length_skipn; lia).
  unfold PutVarint32 in Hb. rewrite !Hu in Hb by lia.
  exists shared,
    (EncodeVarint32 (Z.of_nat shared) ++ EncodeVarint32 (Z.of_nat (List.length key - shared))
       ++ EncodeVarint32 (Z.of_nat (List.length value)) ++ skipn shared key ++ value),
    (EncodeVarint32 (Z.of_nat (List.length key - shared))
       ++ EncodeVarint32 (Z.of_nat (List.length value)) ++ skipn shared key ++ value ++ rest),
    (EncodeVarint32 (Z.of_nat (List.length value)) ++ skipn shared key ++ value ++ rest).
  split; [rewrite Hb, <- !app_assoc; reflexivity|].
  rewrite <- !app_assoc.
  split; [apply GetVarint32_Encode; lia|].
  split; [apply GetVarint32_Encode; lia|].
  split; [apply GetVarint32_Encode; lia|].
  split; [rewrite Hs3; apply firstn_skipn|exact Hs4].
Qed.

Lemma Add_entry_decode_witness :
  Z.of_nat (List.length (list_byte_of_string "apple")) < 2 ^ 32 /\
  Z.of_nat (List.length (list_byte_of_string "red")) < 2 ^ 32 /\
  exists (shared : nat) (e r1 r2 : bytes),
    buffer_ (Add 16 (Add 16 NewBlockBuilder (list_byte_of_string "apex") []) (list_byte_of_string "apple") (list_byte_of_string "red"))
      = buffer_ (Add 16 NewBlockBuilder (list_byte_of_string "apex") []) ++ e /\
    GetVarint32 (e ++ []) = Some (Z.of_nat shared, r1) /\
    GetVarint32 r1 = Some (Z.of_nat (List.length (list_byte_of_string "apple") - shared), r2) /\
    GetVarint32 r2 = Some (Z.of_nat (List.length (list_byte_of_string "red")),
                           skipn shared (list_byte_of_string "apple") ++ list_byte_of_string "red" ++ []) /\
    firstn shared (last_key_ (Add 16 NewBlockBuilder (list_byte_of_string "apex") []))
      ++ skipn shared (list_byte_of_string "apple") = list_byte_of_string "apple" /\
    (16 <= counter_ (Add 16 NewBlockBuilder (list_byte_of_string "apex") []) -> shared = 0%nat).
Proof.
  assert (H1 : Z.of_nat (List.length (list_byte_of_string "apple")) < 2 ^ 32) by (vm_compute; reflexivity).
  assert (H2 : Z.of_nat (List.length (list_byte_of_string "red")) < 2 ^ 32) by (vm_compute; reflexivity).
  split; [exact H1|split; [exact H2|]].
  exact (Add_entry_decode 16 _ _ _ [] H1 H2).
Defined.

Definition runs (interval : Z) (b : BlockBuilder) (n : nat) : Prop :=
  1 <= counter_ b <= interval /\
  Z.of_nat n = (Z.of_nat (List.length (restarts_ b)) - 1) * interval + counter_ b.

Lemma runs_Add interval b n key value :
  runs interval b n -> runs interval (Add interval b key value) (S n).
Proof.
  intros (H1 & H2). destruct (Add_fields interval b key value) as (_ & _ & Hr & Hc).
  unfold runs. rewrite Hr, Hc.
  destruct (Z.ltb_spec (counter_ b) interval).
  - split; lia.
  - rewrite length_app. cbn [List.length]. split; lia.
Qed.

Lemma runs_AddAll interval kvs : forall b n,
  runs interval b n -> runs interval (AddAll interval b kvs) (n + List.length kvs).
Proof.
  induction kvs as [|[k v] kvs IH]; intros b n H.
  - cbn [List.length AddAll fold_left]. rewrite Nat.add_0_r. exact H.
  - cbn [List.length]. rewrite Nat.add_succ_r, <- Nat.add_succ_l.
    apply (IH (Add interval b k v) (S n)). apply runs_Add. exact H.
Qed.

(** X19: after [n >= 1] calls to [Add] on a new builder with a restart
    interval of at least 1, the entries form complete runs of [interval]
    entries, one per restart point but the last, and a last run of
    [counter_] entries, [1 <= counter_ <= interval]. *)
Theorem restart_runs interval (kvs : list (bytes * bytes)) :
  1 <= interval -> kvs <> [] ->
  let b := AddAll interval NewBlockBuilder kvs in
  1 <= counter_ b <= interval /\
  Z.of_nat (List.length kvs) = (Z.of_nat (List.length (restarts_ b)) - 1) * interval + counter_ b.
Proof.
  intros Hi Hne. cbv zeta.
  destruct kvs as [|[k v] kvs]; [congruence|].
  assert (H0 : runs interval (Add interval NewBlockBuilder k v) 1).
  { destruct (Add_fields interval NewBlockBuilder k v) as (_ & _ & Hr & Hc).
    unfold runs. rewrite Hr, Hc. cbn [counter_ restarts_ NewBlockBuilder].
    destruct (Z.ltb_spec 0 interval); [|lia]. cbn [List.length]. split; lia. }
  exact (runs_AddAll interval kvs _ 1 H0).
Qed.

Lemma restart_runs_witness :
  let kvs := [([Byte.x61], []); ([Byte.x62], []); ([Byte.x63], [])] in
  1 <= 2 /\ kvs <> [] /\
  let b := AddAll 2 NewBlockBuilder kvs in
  1 <= counter_ b <= 2 /\
  Z.of_nat (List.length kvs) = (Z.of_nat (List.length (restarts_ b)) - 1) * 2 + counter_ b.
Proof.
  cbv zeta. assert (H1 : 1 <= 2) by lia.
  assert (H2 : [([Byte.x61], []); ([Byte.x62], []); ([Byte.x63], [])] <> ([] : list (bytes * bytes)))
    by discriminate.
  split; [exact H1|split; [exact H2|]].
  exact (restart_runs 2 _ H1 H2).
Defined.

(** X20: after [Reset], [empty()] is true exactly until the first
    [Add]: every entry adds at least its three varint headers. *)
Theorem empty_after_Reset interval (b : BlockBuilder) (kvs : list (bytes * bytes)) :
  empty (AddAll interval (Reset b) kvs) = true <-> kvs = [].
Proof.
  split; [|intros ->; reflexivity].
  destruct kvs as [|[k v] kvs]; [reflexivity|]. intros H. exfalso.
  cbn [AddAll fold_left fst snd] in H.
  destruct (AddAll_buffer interval kvs (Add interval (Reset b) k v)) as (t & Ht).
  destruct (Add_fields interval (Reset b) k v) as (Hb & _).
  unfold AddAll in Ht. unfold empty in H. rewrite Ht, Hb in H.
  unfold PutVarint32 in H. cbn [buffer_ Reset app] in H.
  pose proof (EncodeVarint32_length (Z.of_nat (if counter_ (Reset b) <? interval
                  then shared_prefix (last_key_ (Reset b)) k else O))) as Hl.
  destruct (EncodeVarint32 _); [cbn in Hl; lia|]. discriminate.
Qed.

End BlockProps.

(* ------------------------------------------------------------------ *)
(** ** Properties of [MemTable::Get] (db/memtable.cc) *)
Module MemTableProps.
Import Coding CodingFacts Status Comparator DBFormat MemTable CodingProps ComparatorProps.

Lemma In_SkipList_Insert c k l x : In x (SkipList_Insert c k l) -> x = k \/ In x l.
Proof.
  induction l as [|y l IH]; cbn [SkipList_Insert].
  - intros [<-|[]]. left. reflexivity.
  - destruct (c y k <? 0); cbn [In].
    + intros [<-|H]; [right; left; reflexivity|]. destruct (IH H); [left|right; right]; assumption.
    + intros [<-|H]; [left; reflexivity|right; exact H].
Qed.

Lemma FindGreaterOrEqual_In c k l x : FindGreaterOrEqual c k l = Some x -> In x l.
Proof.
  induction l as [|y l IH]; cbn [FindGreaterOrEqual]; [discriminate|].
  destruct (c y k <? 0).
  - intros H. right. apply IH, H.
  - intros [= <-]. left. reflexivity.
Qed.

Lemma lookup_user_key_NewLookupKey key s : lookup_user_key (NewLookupKey key s) = key.
Proof.
  unfold lookup_user_key, internal_key, NewLookupKey. cbn [start_ kstart_].
  rewrite skipn_length_app. apply ExtractUserKey_PutFixed64.
Qed.

(** A memtable entry as [Add] lays it out: the varint of the internal key
    size, the user key, then the rest. *)
Definition entry_ok (ucmp : bytes -> bytes -> Z) (key : bytes) (x : bytes) : Prop :=
  exists k' tail,
    x = EncodeVarint32 (u32 (Z.of_nat (List.length k') + 8)) ++ k' ++ tail /\
    Z.of_nat (List.length k') + 8 < 2 ^ 32 /\ ucmp k' key <> 0.

Lemma Get_entry_miss m lk value st :
  (forall x, In x (table_ m) -> entry_ok (user_comparator m) (lookup_user_key lk) x) ->
  Get m lk value st = (false, value, st).
Proof.
  intros Hall. unfold Get. cbv zeta.
  destruct (FindGreaterOrEqual _ _ _) as [entry|] eqn:HF; [|reflexivity].
  apply FindGreaterOrEqual_In, Hall in HF as (k' & tail & -> & Hk & Hc).
  set (n := Z.of_nat (List.length k') + 8) in *.
  assert (Hu : u32 n = n) by (unfold u32; apply Z.mod_small; lia).
  rewrite Hu. pose proof (EncodeVarint32_length n) as Hl. rewrite Hu in Hl.
  set (E := EncodeVarint32 n) in *.
  assert (Hw : GetVarint32Ptr (firstn 5 (E ++ k' ++ tail))
               = Some (n, firstn (5 - List.length E) (k' ++ tail))).
  { rewrite firstn_app, (firstn_all2 E) by lia.
    change (GetVarint32 (E ++ firstn (5 - List.length E) (k' ++ tail))
            = Some (n, firstn (5 - List.length E) (k' ++ tail))).
    apply GetVarint32_Encode. lia. }
  rewrite Hw.
  replace (List.length (firstn 5 (E ++ k' ++ tail))
           - List.length (firstn (5 - List.length E) (k' ++ tail)))%nat
    with (List.length E) by (rewrite !length_firstn, !length_app; lia).
  rewrite skipn_length_app.
  replace (Z.to_nat (u32 (n - 8))) with (List.length k')
    by (unfold u32, n; rewrite Z.add_simpl_r, Z.mod_small by lia; lia).
  rewrite firstn_app, Nat.sub_diag, firstn_all. cbn [firstn]. rewrite app_nil_r.
  destruct (Z.eqb_spec (user_comparator m k' (lookup_user_key lk)) 0); [contradiction|reflexivity].
Qed.

(** X21: [MemTable::Get] for a user key that no added entry's key
    compares equal to under the user comparator returns [false] and
    leaves [*value] and [*s] alone, whatever the sequence numbers and
    types added (keys shorter than [2^32 - 8] bytes). *)
Theorem Get_absent (ucmp : bytes -> bytes -> Z) (entries : list (Z * Z * bytes * bytes))
    (key : bytes) (s : Z) (value : bytes) (st : Status) :
  Forall (fun '(_, _, k, _) => ucmp k key <> 0 /\ Z.of_nat (List.length k) + 8 < 2 ^ 32) entries ->
  Get (fold_left (fun m '(sq, t, k, v) => Add m sq t k v) entries (NewMemTable ucmp))
      (NewLookupKey key s) value st = (false, value, st).
Proof.
  intros Hall. apply Get_entry_miss. rewrite lookup_user_key_NewLookupKey.
  assert (G : forall m, user_comparator m = ucmp ->
            (forall x, In x (table_ m) -> entry_ok ucmp key x) ->
            let m' := fold_left (fun m '(sq, t, k, v) => Add m sq t k v) entries m in
            user_comparator m' = ucmp /\ forall x, In x (table_ m') -> entry_ok ucmp key x).
  { induction Hall as [|[[[sq t] k] v] entries [Hk Hn] _ IH]; intros m Hu Hm; cbv zeta.
    - split; assumption.
    - cbn [fold_left]. apply IH; [exact Hu|].
      intros x Hx. cbn [table_ Add] in Hx. apply In_SkipList_Insert in Hx as [->|Hx]; [|apply Hm, Hx].
      exists k, (EncodeFixed64 (u64 (Z.lor (Z.shiftl sq 8) t))
                 ++ EncodeVarint32 (u32 (Z.of_nat (List.length v))) ++ v).
      split; [reflexivity|split; assumption]. }
  destruct (G (NewMemTable ucmp) eq_refl ltac:(intros x [])) as [-> H]. exact H.
Qed.

Lemma Get_absent_witness :
  Forall (fun '(_, _, k, _) => BytewiseComparator k (list_byte_of_string "b") <> 0 /\
                               Z.of_nat (List.length k) + 8 < 2 ^ 32)
    [(1, kTypeValue, list_byte_of_string "a", list_byte_of_string "x");
     (2, kTypeDeletion, list_byte_of_string "c", [])] /\
  Get (fold_left (fun m '(sq, t, k, v) => Add m sq t k v)
         [(1, kTypeValue, list_byte_of_string "a", list_byte_of_string "x");
          (2, kTypeDeletion, list_byte_of_string "c", [])] (NewMemTable BytewiseComparator))
      (NewLookupKey (list_byte_of_string "b") 5) [] OK = (false, [], OK).
Proof.
  assert (H : Forall (fun '(_, _, k, _) => BytewiseComparator k (list_byte_of_string "b") <> 0 /\
                               Z.of_nat (List.length k) + 8 < 2 ^ 32)
    [(1, kTypeValue, list_byte_of_string "a", list_byte_of_string "x");
     (2, kTypeDeletion, list_byte_of_string "c", [])]).
  { repeat constructor; vm_compute; discriminate. }
  split; [exact H|]. exact (Get_absent _ _ _ 5 [] OK H).
Defined.

End MemTableProps.

(* ------------------------------------------------------------------ *)
(** ** Properties of db/log_writer.cc and db/log_reader.cc *)
Module LogProps.
Import Coding Crc32c Log LogLayout LogFacts.

Lemma full_blocks_length_mod f rs : full_blocks f rs -> exists q, Z.of_nat (List.length f) = q * kBlockSize.
Proof.
  induction 1 as [|l pad f rs Hl Hp Hv Hf IH]; [exists 0; reflexivity|].
  destruct IH as [q Hq]. exists (q + 1). rewrite !length_app, repeat_length. lia.
Qed.

Lemma Inv_W_offset w rs :
  Inv_W w rs -> exists q, Z.of_nat (List.length (dest_ w)) = q * kBlockSize + block_offset_ w /\
                          0 <= block_offset_ w <= kBlockSize.
Proof.
  intros (done & dr & cur & Hd & Hf & _ & Ho & Hb & _).
  destruct (full_blocks_length_mod _ _ Hf) as [q Hq].
  exists q. rewrite Hd, length_app, Ho. lia.
Qed.

(** A block filled to the end: the next [AddRecord] starts a new block
    either way. *)
Lemma AddRecord_full_block d slice : AddRecord (mkWriter kBlockSize d) slice = AddRecord (mkWriter 0 d) slice.
Proof. unfold AddRecord. rewrite Nat.add_comm. reflexivity. Qed.

(** X22: a log reopened with [Writer(dest, dest_length)] at its length
    and appended to is the file a single writer would have written, and
    reads back as all the records, old and new, with no reports. *)
Theorem reopen_append (ps qs : list bytes) (reporter checksum : bool) :
  let w := NewWriterAt (WriteLog ps) (Z.of_nat (List.length (WriteLog ps))) in
  let f := dest_ (fold_left AddRecord qs w) in
  f = WriteLog (ps ++ qs) /\
  exists r, ReadRecords (List.length (ps ++ qs) + 1) (NewReader f reporter checksum 0)
            = Some (r, map Some (ps ++ qs) ++ [None]) /\ reports r = [].
Proof.
  cbv zeta.
  assert (E : dest_ (fold_left AddRecord qs
                (NewWriterAt (WriteLog ps) (Z.of_nat (List.length (WriteLog ps)))))
              = WriteLog (ps ++ qs)).
  { unfold WriteLog at 3. rewrite fold_left_app.
    destruct (fold_AddRecord_spec ps NewWriter [] Inv_W_NewWriter) as (fss & Hw & _).
    unfold WriteLog.
    remember (fold_left AddRecord ps NewWriter) as w0 eqn:Hw0. clear Hw0.
    destruct (Inv_W_offset _ _ Hw) as (q & Hq & Hb).
    unfold NewWriterAt. rewrite Hq.
    destruct w0 as [off d]. cbn [block_offset_ dest_] in *.
    destruct (Z.eq_dec off kBlockSize) as [->|Hne].
    - replace ((q * kBlockSize + kBlockSize) mod kBlockSize) with 0
        by (replace (q * kBlockSize + kBlockSize) with ((q + 1) * kBlockSize) by lia;
            rewrite Z_mod_mult; reflexivity).
      destruct qs as [|q0 qs]; [reflexivity|]. cbn [fold_left].
      rewrite AddRecord_full_block. reflexivity.
    - replace ((q * kBlockSize + off) mod kBlockSize) with off; [reflexivity|].
      rewrite Z.add_comm, Z_mod_plus_full, Z.mod_small; [reflexivity|].
      unfold kBlockSize in *. lia. }
  rewrite E. split; [reflexivity|]. apply log_roundtrip.
Qed.

Lemma ReadPhysicalRecord_empty r :
  file_ r = [] -> (List.length (buffer_ r) < 7)%nat ->
  exists r', ReadPhysicalRecord r = Some (r', kEof, []) /\ reports r' = reports r.
Proof.
  intros Hf Hb. unfold ReadPhysicalRecord. cbn [ReadPhysicalRecord_loop].
  destruct (eof_ r) eqn:He.
  - rewrite ReadPhysicalRecord_step_eof by assumption. eexists. split; reflexivity.
  - destruct (ReadPhysicalRecord_step_refill r Hb He) as (r1 & E & Hb1 & Hf1 & He1 & Hk).
    rewrite E. cbn [ReadPhysicalRecord_loop].
    rewrite Hf in Hb1, He1. cbn [firstn] in Hb1, He1. change (Z.of_nat (List.length (firstn (Z.to_nat kBlockSize) []))) with 0 in He1.
    rewrite ReadPhysicalRecord_step_eof; [| rewrite Hb1; destruct (Z.to_nat kBlockSize); cbn; lia | exact He1].
    eexists. split; [reflexivity|]. destruct Hk as (Hk & _). exact Hk.
Qed.

Lemma SkipToInitialBlock_fields r :
  buffer_ (SkipToInitialBlock r) = buffer_ r /\ reports (SkipToInitialBlock r) = reports r /\
  (file_ r = [] -> file_ (SkipToInitialBlock r) = []).
Proof.
  unfold SkipToInitialBlock. cbv zeta.
  destruct (0 <? _); cbn [set_file set_end_of_buffer_offset buffer_ reports file_];
    (split; [reflexivity|split; [reflexivity|intros ->]]); [apply skipn_nil|reflexivity].
Qed.

(** X23: on an empty log file, [ReadRecord] returns [false] (no
    record) and reports nothing, whatever the initial offset. *)
Theorem ReadRecord_empty_file (reporter checksum : bool) (initial_offset : Z) :
  exists r, ReadRecord (NewReader [] reporter checksum initial_offset) = Some (r, None) /\
            reports r = [].
Proof.
  unfold ReadRecord.
  set (r0 := if _ <? _ then _ else _).
  assert (H0 : buffer_ r0 = [] /\ reports r0 = [] /\ file_ r0 = []).
  { subst r0. destruct (_ <? _); [|split; [reflexivity|split; reflexivity]].
    destruct (SkipToInitialBlock_fields (NewReader [] reporter checksum initial_offset)) as (A & B & C).
    split; [exact A|split; [exact B|apply C; reflexivity]]. }
  destruct H0 as (Hb & Hr & Hf). clearbody r0.
  destruct (ReadPhysicalRecord_empty r0 Hf) as (r1 & E & Hr1); [rewrite Hb; cbn; lia|].
  cbn [ReadRecord_loop]. rewrite E.
  destruct (resyncing_ r1); cbn [andb Z.eqb];
    (eexists; split; [reflexivity|]); cbn [set_resyncing reports]; rewrite Hr1; exact Hr.
Qed.

End LogProps.


(* ------------------------------------------------------------------ *)
(** ** Properties of the LRU cache shard and the sharded cache
    (util/cache.cc) *)
Module LRUProps.
Import Coding LRU EvictionFacts.

Lemma remove_id_idem e l : remove_id e (remove_id e l) = remove_id e l.
Proof.
  induction l as [|x l IH]; [reflexivity|].
  cbn [remove_id filter]. destruct (Nat.eqb_spec x e); cbn [negb].
  - exact IH.
  - cbn [filter]. rewrite (proj2 (Nat.eqb_neq x e) n). cbn [negb]. f_equal. exact IH.
Qed.

Lemma NoDup_app_not_in (l1 l2 : list nat) a : NoDup (l1 ++ l2) -> In a l1 -> ~ In a l2.
Proof.
  induction l1 as [|b l1 IH]; intros Hnd Ha Hin2; [destruct Ha|].
  cbn in Hnd. apply NoDup_cons_iff in Hnd as [Hb Hnd]. destruct Ha as [<-|Ha].
  - apply Hb, in_or_app. right. exact Hin2.
  - exact (IH Hnd Ha Hin2).
Qed.

(** The new handle [Insert_entry] puts in the cache, on [in_use_] with
    the caller's reference and the cache's. *)
Lemma Insert_entry_new s key h value charge deleter :
  cache_inv s -> 0 < capacity_ s ->
  In (next_id s) (in_use_ (fst (Insert_entry s key h value charge deleter))) /\
  heap (fst (Insert_entry s key h value charge deleter)) (next_id s)
    = Some (mkLRUHandle value deleter charge key true 2 h).
Proof.
  intros Hinv Hc. unfold Insert_entry. cbv zeta. cbn [capacity_ set_heap set_next_id].
  rewrite (proj2 (Z.ltb_lt _ _) Hc).
  set (x := {| value := value; deleter := deleter; charge := charge; key_data := key;
               in_cache := false; refs := 1; hash := h |}).
  set (x2 := set_in_cache (set_refs x (u32 (refs x + 1))) true).
  set (n := next_id s).
  set (sD := set_usage _ _).
  pose proof (fun e => cache_inv_listed_ne s e Hinv) as Hne.
  pose proof Hinv as (Hnd & Hlru & Hiu & Htab & Huniq & Hfresh).
  assert (HsD : forall j, heap sD j = if (j =? n)%nat then Some x2 else heap s j).
  { intros j. unfold sD. cbn [heap set_usage LRU_Append_in_use set_in_use set_heap set_next_id].
    destruct (j =? n)%nat; reflexivity. }
  assert (HiD : in_use_ sD = in_use_ s ++ [n]) by reflexivity.
  assert (HF : FindPointer sD key h = FindPointer s key h).
  { apply FindPointer_ext; [reflexivity|]. intros e He. rewrite HsD.
    rewrite (proj2 (Nat.eqb_neq e n)); [reflexivity|]. apply Hne, Htab, He. }
  assert (HT : table_Insert sD n =
    (set_table sD (match FindPointer s key h with Some o => remove_id o (table_ s) | None => table_ s end ++ [n]),
     FindPointer s key h)).
  { unfold table_Insert. rewrite HsD, Nat.eqb_refl. cbn [key_data hash x2 x set_in_cache set_refs].
    rewrite HF. reflexivity. }
  rewrite HT. cbn [fst snd].
  assert (Hx2 : x2 = mkLRUHandle value deleter charge key true 2 h) by reflexivity.
  destruct (FindPointer s key h) as [o|] eqn:Ho.
  - destruct (FindPointer_some s key h o Ho) as [Hot (y & Hy & Hyh & Hyk)].
    assert (Hon : o <> n) by (apply Hne, Htab, Hot).
    unfold FinishErase. change (heap (set_table sD (remove_id o (table_ s) ++ [n])) o) with (heap sD o).
    rewrite HsD, (proj2 (Nat.eqb_neq o n) Hon), Hy.
    unfold Unref.
    set (sF := set_usage _ _).
    assert (HsF : forall j, heap sF j = if (j =? o)%nat then Some (set_in_cache y false) else heap sD j).
    { intros j. unfold sF. cbn [heap set_usage set_heap LRU_Remove set_lru set_in_use set_table].
      destruct (j =? o)%nat; reflexivity. }
    assert (HiF : in_use_ sF = remove_id o (in_use_ s ++ [n])) by (unfold sF; rewrite <- HiD; reflexivity).
    rewrite HsF, Nat.eqb_refl. cbn [set_refs set_in_cache refs in_cache andb].
    assert (Hnn : (n =? o)%nat = false) by (apply Nat.eqb_neq; intros E; apply Hon; symmetry; exact E).
    assert (Hin : In n (in_use_ sF)).
    { rewrite HiF. apply In_remove_id. split; [apply in_or_app; right; left; reflexivity|].
      intros E; apply Hon; symmetry; exact E. }
    destruct (u32 (refs y - 1) =? 0); cbn [fst heap set_heap call_deleter in_use_];
      rewrite Hnn, HsF, Hnn, HsD, Nat.eqb_refl; (split; [exact Hin|rewrite Hx2; reflexivity]).
  - cbn [FinishErase fst heap set_table in_use_]. rewrite HiD, HsD, Nat.eqb_refl, Hx2.
    split; [apply in_or_app; right; left; reflexivity|reflexivity].
Qed.

(** X24: when [capacity_ > 0], the handle [Insert] returns is in the
    cache afterwards, holding the inserted value and charge, and a
    [Lookup] of the same key and hash finds it, even when its charge
    alone exceeds the capacity (it is in use, so not evicted). *)
Theorem Insert_then_Lookup s key h value charge deleter :
  cache_inv s -> 0 < capacity_ s ->
  let s' := fst (Insert s key h value charge deleter) in
  let e := snd (Insert s key h value charge deleter) in
  snd (Lookup s' key h) = Some e /\
  heap s' e = Some (mkLRUHandle value deleter charge key true 2 h).
Proof.
  intros Hinv Hc. cbv zeta.
  destruct (Insert_entry_spec s key h value charge deleter Hinv) as (He & Hinv1 & _).
  destruct (Insert_entry_new s key h value charge deleter Hinv Hc) as (Hin & Hx).
  unfold Insert.
  destruct (Insert_entry s key h value charge deleter) as [s1 e] eqn:E.
  cbn [fst snd] in *. subst e.
  destruct (Evict_loop_run (List.length (lru_ s1)) s1 Hinv1 (le_n _)) as (Hrun & Hinv').
  set (s' := Evict_loop (List.length (lru_ s1)) s1) in *.
  destruct (evict_run_in_use s1 s' Hrun (next_id s) Hin) as (Hin' & Hh').
  rewrite Hx in Hh'.
  split; [|exact Hh'].
  unfold Lookup, table_Lookup.
  pose proof Hinv' as (_ & _ & _ & Htab & _).
  pose proof (FindPointer_in s' (next_id s) _ Hinv'
    (proj2 (Htab _) (in_or_app _ _ _ (or_intror Hin'))) Hh') as Hf.
  cbn [key_data hash] in Hf. rewrite Hf. reflexivity.
Qed.

Lemma Insert_then_Lookup_witness :
  cache_inv (NewLRUCache 4) /\ 0 < capacity_ (NewLRUCache 4) /\
  (let s' := fst (Insert (NewLRUCache 4) [Byte.x61] 7 100 9 3) in
   let e := snd (Insert (NewLRUCache 4) [Byte.x61] 7 100 9 3) in
   snd (Lookup s' [Byte.x61] 7) = Some e /\
   heap s' e = Some (mkLRUHandle 100 3 9 [Byte.x61] true 2 7)).
Proof.
  assert (H1 : cache_inv (NewLRUCache 4)) by apply cache_inv_NewLRUCache.
  assert (H2 : 0 < capacity_ (NewLRUCache 4)) by (cbn; lia).
  split; [exact H1|split; [exact H2|]].
  exact (Insert_then_Lookup _ [Byte.x61] 7 100 9 3 H1 H2).
Defined.

Lemma Unref_frame s e :
  table_ (Unref s e) = table_ s /\ (forall j, j <> e -> heap (Unref s e) j = heap s j).
Proof.
  unfold Unref. destruct (heap s e) as [x|]; [|split; [reflexivity|intros; reflexivity]].
  cbv zeta. destruct (refs _ =? 0).
  - cbn [table_ heap set_heap call_deleter]. split; [reflexivity|].
    intros j Hj. rewrite (proj2 (Nat.eqb_neq j e) Hj). reflexivity.
  - destruct (in_cache _ && _);
      cbn [table_ heap set_heap LRU_Append_lru LRU_Remove set_lru set_in_use];
      (split; [reflexivity|]); intros j Hj; rewrite (proj2 (Nat.eqb_neq j e) Hj); reflexivity.
Qed.

Lemma FinishErase_frame s r :
  table_ (fst (FinishErase s (Some r))) = table_ s /\
  (forall j, j <> r -> heap (fst (FinishErase s (Some r))) j = heap s j).
Proof.
  unfold FinishErase. destruct (heap s r) as [x|]; [|split; [reflexivity|intros; reflexivity]].
  cbn [fst]. set (s1 := set_usage _ _).
  destruct (Unref_frame s1 r) as [Ht Hh]. rewrite Ht.
  split; [reflexivity|]. intros j Hj. rewrite Hh by exact Hj.
  unfold s1. cbn [heap set_usage set_heap LRU_Remove set_lru set_in_use].
  rewrite (proj2 (Nat.eqb_neq j r) Hj). reflexivity.
Qed.

(** X25: after [Erase] of a key and hash, a [Lookup] of them misses:
    the table holds at most one handle per key and hash, and [Erase]
    takes it out. *)
Theorem Erase_then_Lookup s key h :
  cache_inv s -> snd (Lookup (Erase s key h) key h) = None.
Proof.
  intros Hinv. pose proof Hinv as (_ & _ & _ & _ & Huniq & _).
  unfold Erase, table_Remove.
  destruct (FindPointer s key h) as [r|] eqn:Hr.
  2:{ cbn [FinishErase fst]. unfold Lookup, table_Lookup. rewrite Hr. reflexivity. }
  destruct (FindPointer_some s key h r Hr) as [Hrt (y & Hy & Hyh & Hyk)].
  set (t := fst (FinishErase _ _)).
  destruct (FinishErase_frame (set_table s (remove_id r (table_ s))) r) as [Ht Hh].
  fold t in Ht, Hh. cbn [table_ set_table heap] in Ht, Hh.
  unfold Lookup, table_Lookup.
  destruct (FindPointer t key h) as [e|] eqn:He; [exfalso|reflexivity].
  destruct (FindPointer_some t key h e He) as [Het (x & Hx & Hxh & Hxk)].
  rewrite Ht in Het. apply In_remove_id in Het as [Het Hne].
  rewrite Hh in Hx by exact Hne.
  apply Hne, (Huniq e r x y Het Hrt Hx Hy); congruence.
Qed.

Lemma Erase_then_Lookup_witness :
  let s := fst (Insert (NewLRUCache 4) [Byte.x61] 7 100 1 3) in
  cache_inv s /\ snd (Lookup (Erase s [Byte.x61] 7) [Byte.x61] 7) = None.
Proof.
  cbv zeta.
  assert (H : cache_inv (fst (Insert (NewLRUCache 4) [Byte.x61] 7 100 1 3))).
  { destruct (Insert_entry_spec (NewLRUCache 4) [Byte.x61] 7 100 1 3 (cache_inv_NewLRUCache 4))
      as (_ & Hinv1 & _).
    unfold Insert. destruct (Insert_entry _ _ _ _ _ _) as [s1 e]. cbn [fst] in *.
    exact (proj2 (Evict_loop_run _ s1 Hinv1 (le_n _))). }
  split; [exact H|]. exact (Erase_then_Lookup _ [Byte.x61] 7 H).
Defined.

(** One round of [Prune]'s loop: the head of [lru_] is taken out of the
    table, off the list, and freed. *)
Lemma Prune_body s f old rest x :
  cache_inv s -> lru_ s = old :: rest -> heap s old = Some x ->
  exists s', Prune_loop (S f) s = Prune_loop f s' /\
    lru_ s' = rest /\ in_use_ s' = in_use_ s /\ table_ s' = remove_id old (table_ s) /\
    heap s' old = None /\ (forall j, j <> old -> heap s' j = heap s j) /\
    next_id s' = next_id s /\
    deleter_calls s' = deleter_calls s ++ [(deleter x, key_data x, value x)].
Proof.
  intros Hinv Hl Hx.
  pose proof Hinv as (Hnd & Hlru & Hiu & Htab & Huniq & Hfresh).
  destruct (Hlru old) as (x' & Hx' & Hic & Hr); [rewrite Hl; left; reflexivity|].
  rewrite Hx in Hx'. injection Hx' as <-.
  assert (Hfp : FindPointer s (key_data x) (hash x) = Some old).
  { apply FindPointer_in; [exact Hinv| |exact Hx]. apply Htab. rewrite Hl. left. reflexivity. }
  assert (Hnr : ~ In old rest).
  { rewrite Hl in Hnd. cbn in Hnd. inversion Hnd as [|? ? Hn _]. intros Hin0. apply Hn, in_or_app. left. exact Hin0. }
  assert (Hni : ~ In old (in_use_ s)).
  { rewrite Hl in Hnd. cbn in Hnd. inversion Hnd as [|? ? Hn _]. intros Hin0. apply Hn, in_or_app. right. exact Hin0. }
  cbn [Prune_loop]. rewrite Hl, Hx. unfold table_Remove. rewrite Hfp.
  exists (fst (FinishErase (set_table s (remove_id old (table_ s))) (Some old))).
  split; [destruct (FinishErase _ _); reflexivity|].
  unfold FinishErase. change (heap (set_table s (remove_id old (table_ s))) old) with (heap s old).
  rewrite Hx. cbn [fst]. unfold Unref.
  cbn [heap set_usage set_heap LRU_Remove set_lru set_in_use set_table]. rewrite Nat.eqb_refl.
  cbn [set_refs set_in_cache refs]. rewrite Hr.
  replace (u32 (1 - 1) =? 0) with true by reflexivity.
  cbn [heap set_usage set_heap LRU_Remove set_lru set_in_use set_table call_deleter lru_ in_use_ table_
       usage_ capacity_ next_id deleter_calls key_data value deleter charge].
  rewrite Nat.eqb_refl.
  split; [rewrite Hl; cbn [remove_id filter]; rewrite Nat.eqb_refl; apply remove_id_notin, Hnr|].
  split; [apply remove_id_notin, Hni|].
  split; [reflexivity|].
  split; [reflexivity|].
  split; [intros j Hj; rewrite (proj2 (Nat.eqb_neq j old) Hj); reflexivity|].
  split; reflexivity.
Qed.

Lemma Forall2_impl_In {A B} (P Q : A -> B -> Prop) l xs :
  Forall2 P l xs -> (forall a b, In a l -> P a b -> Q a b) -> Forall2 Q l xs.
Proof.
  induction 1 as [|a b l xs Hab _ IH]; intros HPQ; constructor.
  - apply HPQ; [left; reflexivity|exact Hab].
  - apply IH. intros a' b' Ha'. apply HPQ. right. exact Ha'.
Qed.

Lemma Prune_loop_spec fuel : forall s,
  cache_inv s -> (List.length (lru_ s) <= fuel)%nat ->
  let t := Prune_loop fuel s in
  cache_inv t /\ lru_ t = [] /\ in_use_ t = in_use_ s /\
  (forall j, ~ In j (lru_ s) -> heap t j = heap s j) /\
  (forall j, In j (lru_ s) -> heap t j = None) /\
  exists xs, Forall2 (fun j x => heap s j = Some x) (lru_ s) xs /\
    deleter_calls t = deleter_calls s ++ map (fun x => (deleter x, key_data x, value x)) xs.
Proof.
  induction fuel as [|f IH]; intros s Hinv Hlen; cbv zeta.
  - destruct (lru_ s) eqn:Hl; [|cbn in Hlen; lia].
    cbn [Prune_loop]. split; [exact Hinv|]. split; [exact Hl|]. split; [reflexivity|].
    split; [intros; reflexivity|]. split; [intros j []|].
    exists []. split; [constructor|]. rewrite app_nil_r. reflexivity.
  - destruct (lru_ s) as [|old rest] eqn:Hl.
    + cbn [Prune_loop]. rewrite Hl. split; [exact Hinv|]. split; [exact Hl|]. split; [reflexivity|].
      split; [intros; reflexivity|]. split; [intros j []|].
      exists []. split; [constructor|]. rewrite app_nil_r. reflexivity.
    + pose proof Hinv as (Hnd & Hlru & _).
      destruct (Hlru old) as (x & Hx & _ & _); [rewrite Hl; left; reflexivity|].
      destruct (Prune_body s f old rest x Hinv Hl Hx)
        as (s' & E & Hl' & Hi' & Ht' & Ho & Hj & Hn' & Hd').
      assert (Hinv' : cache_inv s') by (eapply cache_inv_evict; eassumption).
      destruct (IH s' Hinv') as (Hinvt & Hlt & Hit & Hkeep & Hfree & xs & Hxs & Hdt);
        [rewrite Hl'; cbn in Hlen; lia|].
      rewrite Hl' in Hkeep, Hfree, Hxs. rewrite E.
      assert (Hnr : ~ In old rest).
      { rewrite Hl in Hnd. cbn in Hnd. inversion Hnd as [|? ? Hn _]. intros Hin0. apply Hn, in_or_app. left. exact Hin0. }
      split; [exact Hinvt|]. split; [exact Hlt|]. split; [rewrite Hit; exact Hi'|].
      split.
      { intros j Hjn. rewrite Hkeep by (intros Hin0; apply Hjn; right; exact Hin0).
        apply Hj. intros ->. apply Hjn. left. reflexivity. }
      split.
      { intros j [<-|Hjr]; [rewrite Hkeep by exact Hnr; exact Ho|apply Hfree, Hjr]. }
      exists (x :: xs). split.
      * constructor; [exact Hx|]. apply (Forall2_impl_In _ _ _ _ Hxs).
        intros j y Hjr Hy. rewrite <- Hj; [exact Hy|]. intros ->. exact (Hnr Hjr).
      * rewrite Hdt, Hd', <- app_assoc. reflexivity.
Qed.

(** X26: [Prune] empties [lru_]: every handle no client holds is taken
    out of the cache, its deleter called (in [lru_] order) and freed; the
    handles on [in_use_] stay, untouched, and the invariant still holds. *)
Theorem Prune_spec s :
  cache_inv s ->
  let t := Prune s in
  cache_inv t /\ lru_ t = [] /\ in_use_ t = in_use_ s /\
  (forall j, ~ In j (lru_ s) -> heap t j = heap s j) /\
  (forall j, In j (lru_ s) -> heap t j = None) /\
  exists xs, Forall2 (fun j x => heap s j = Some x) (lru_ s) xs /\
    deleter_calls t = deleter_calls s ++ map (fun x => (deleter x, key_data x, value x)) xs.
Proof. intros Hinv. exact (Prune_loop_spec _ s Hinv (le_n _)). Qed.

(** A shard holding one released entry: key "a", hash 7, on [lru_]. *)
Definition one_released : LRUCache :=
  Release (fst (Insert (NewLRUCache 10) [Byte.x61] 7 100 1 5)) 0.

Lemma one_released_fields :
  lru_ one_released = [0%nat] /\ in_use_ one_released = [] /\
  table_ one_released = [0%nat] /\ next_id one_released = 1%nat.
Proof. vm_compute. auto. Qed.

Lemma one_released_heap e :
  heap one_released e =
  if (e =? 0)%nat then Some (mkLRUHandle 100 5 1 [Byte.x61] true 1 7) else None.
Proof. destruct e; vm_compute; reflexivity. Qed.

Lemma cache_inv_one_released : cache_inv one_released.
Proof.
  destruct one_released_fields as (Hl & Hi & Ht & Hn).
  unfold cache_inv. rewrite Hl, Hi, Ht, Hn. cbn [app].
  split; [repeat constructor; intros []|].
  split; [intros e [<-|[]]; rewrite one_released_heap; eexists; split; [reflexivity|split; reflexivity]|].
  split; [intros e []|].
  split; [intros e; reflexivity|].
  split; [intros e1 e2 x1 x2 [<-|[]] [<-|[]]; reflexivity|].
  intros e He. rewrite one_released_heap in He. destruct e; [lia|]. exfalso. apply He. reflexivity.
Qed.

Lemma Prune_spec_witness :
  cache_inv one_released /\
  (let t := Prune one_released in
   cache_inv t /\ lru_ t = [] /\ in_use_ t = in_use_ one_released /\
   (forall j, ~ In j (lru_ one_released) -> heap t j = heap one_released j) /\
   (forall j, In j (lru_ one_released) -> heap t j = None) /\
   exists xs, Forall2 (fun j x => heap one_released j = Some x) (lru_ one_released) xs /\
     deleter_calls t = deleter_calls one_released ++ map (fun x => (deleter x, key_data x, value x)) xs).
Proof. split; [exact cache_inv_one_released|exact (Prune_spec one_released cache_inv_one_released)]. Defined.

(** X27: [Lookup] of an entry on [lru_] pins it: it moves to [in_use_],
    out of eviction's reach; [Release] of that handle puts it back at the
    tail of [lru_], the most recently used end, with its handle as before. *)
Theorem Lookup_Release_touch s e x :
  cache_inv s -> In e (lru_ s) -> heap s e = Some x ->
  let s1 := fst (Lookup s (key_data x) (hash x)) in
  let s2 := Release s1 e in
  snd (Lookup s (key_data x) (hash x)) = Some e /\
  In e (in_use_ s1) /\ ~ In e (lru_ s1) /\
  lru_ s2 = remove_id e (lru_ s) ++ [e] /\ in_use_ s2 = in_use_ s /\ heap s2 e = Some x.
Proof.
  intros Hinv He Hx. cbv zeta.
  pose proof Hinv as (Hnd & Hlru & Hiu & Htab & _).
  destruct (Hlru e He) as (x' & Hx' & Hic & Hr). rewrite Hx in Hx'. injection Hx' as <-.
  assert (Hni : ~ In e (in_use_ s))
    by exact (NoDup_app_not_in _ _ e Hnd He).
  assert (Hf : FindPointer s (key_data x) (hash x) = Some e)
    by (apply FindPointer_in; [exact Hinv| |exact Hx]; apply Htab, in_or_app; left; exact He).
  unfold Lookup, table_Lookup. rewrite Hf. cbn [fst snd].
  unfold Release, Ref, Unref. rewrite Hx. rewrite Hr, Hic. cbn [Z.eqb andb].
  replace (u32 (1 + 1)) with 2 by reflexivity.
  cbn [heap set_heap LRU_Append_in_use LRU_Remove set_lru set_in_use lru_ in_use_].
  rewrite Nat.eqb_refl. cbn [set_refs refs in_cache].
  replace (u32 (2 - 1)) with 1 by reflexivity. rewrite Hic. cbn [Z.eqb Pos.eqb andb].
  cbn [heap set_heap LRU_Append_lru LRU_Append_in_use LRU_Remove set_lru set_in_use lru_ in_use_].
  rewrite Nat.eqb_refl.
  assert (Hrm : remove_id e [e] = []) by (cbn; rewrite Nat.eqb_refl; reflexivity).
  split; [reflexivity|].
  split; [apply in_or_app; right; left; reflexivity|].
  split; [intros Hin; apply In_remove_id in Hin as [_ []]; reflexivity|].
  split; [rewrite remove_id_idem; reflexivity|].
  split; [rewrite remove_id_app, Hrm, app_nil_r, !(remove_id_notin e (in_use_ s) Hni); reflexivity|].
  destruct x; cbn in Hr |- *. subst refs0. reflexivity.
Qed.

Lemma Lookup_Release_touch_witness :
  cache_inv one_released /\ In 0%nat (lru_ one_released) /\
  heap one_released 0 = Some (mkLRUHandle 100 5 1 [Byte.x61] true 1 7) /\
  (let s1 := fst (Lookup one_released [Byte.x61] 7) in
   let s2 := Release s1 0 in
   snd (Lookup one_released [Byte.x61] 7) = Some 0%nat /\
   In 0%nat (in_use_ s1) /\ ~ In 0%nat (lru_ s1) /\
   lru_ s2 = remove_id 0 (lru_ one_released) ++ [0%nat] /\ in_use_ s2 = in_use_ one_released /\
   heap s2 0 = Some (mkLRUHandle 100 5 1 [Byte.x61] true 1 7)).
Proof.
  assert (H1 : In 0%nat (lru_ one_released))
    by (rewrite (proj1 one_released_fields); left; reflexivity).
  assert (H2 : heap one_released 0 = Some (mkLRUHandle 100 5 1 [Byte.x61] true 1 7))
    by (rewrite one_released_heap; reflexivity).
  split; [exact cache_inv_one_released|]. split; [exact H1|]. split; [exact H2|].
  exact (Lookup_Release_touch one_released 0 _ cache_inv_one_released H1 H2).
Defined.

(** X28: the [ShardedLRUCache] constructor builds [kNumShards] empty
    shards, each satisfying the invariant; when [capacity + 15] fits in
    [size_t], their capacities together cover the requested one by less
    than [kNumShards] bytes; when
    [capacity + 15] overflows [size_t], every shard gets capacity 0 (no
    caching). [Shard] maps every 32-bit hash to a valid shard index. *)
Theorem NewShardedLRUCache_spec capacity :
  0 <= capacity < 2 ^ 64 ->
  let shards := NewShardedLRUCache capacity in
  Z.of_nat (List.length shards) = kNumShards /\
  (forall hash, 0 <= hash < 2 ^ 32 -> 0 <= Shard hash < kNumShards) /\
  Forall (fun sh => cache_inv sh /\ lru_ sh = [] /\ in_use_ sh = [] /\ usage_ sh = 0 /\
    (capacity + (kNumShards - 1) < 2 ^ 64 ->
       capacity <= kNumShards * capacity_ sh <= capacity + (kNumShards - 1)) /\
    (2 ^ 64 <= capacity + (kNumShards - 1) -> capacity_ sh = 0)) shards.
Proof.
  intros Hc. cbv zeta. unfold NewShardedLRUCache.
  replace kNumShards with 16 by reflexivity.
  split; [rewrite repeat_length; reflexivity|].
  split.
  { intros hs Hh. unfold Shard, kNumShardBits. cbn [Z.sub].
    rewrite Z.shiftr_div_pow2 by lia. split; [apply Z.div_pos; lia|].
    apply Z.div_lt_upper_bound; lia. }
  apply Forall_forall. intros sh Hsh. apply repeat_spec in Hsh. subst sh.
  change (16 - 1) with 15.
  split.
  { unfold cache_inv. cbn. split; [constructor|]. split; [intros _ []|]. split; [intros _ []|].
    split; [intros e; reflexivity|]. split; [intros e1 e2 x1 x2 []|]. intros e H. congruence. }
  cbn [lru_ in_use_ usage_ capacity_ set_capacity NewLRUCache].
  do 3 (split; [reflexivity|]). split.
  - intros Hlt. unfold u64. rewrite Z.mod_small by lia.
    pose proof (Z.div_mod (capacity + 15) 16 ltac:(lia)).
    pose proof (Z.mod_pos_bound (capacity + 15) 16 ltac:(lia)). lia.
  - intros Hge. unfold u64.
    rewrite <- (Z.mod_unique_pos (capacity + 15) (2 ^ 64) 1 (capacity + 15 - 2 ^ 64)) by lia.
    apply Z.div_small. lia.
Qed.

Lemma NewShardedLRUCache_spec_witness :
  0 <= 2 ^ 64 - 3 < 2 ^ 64 /\
  (let shards := NewShardedLRUCache (2 ^ 64 - 3) in
   Z.of_nat (List.length shards) = kNumShards /\
   (forall hash, 0 <= hash < 2 ^ 32 -> 0 <= Shard hash < kNumShards) /\
   Forall (fun sh => cache_inv sh /\ lru_ sh = [] /\ in_use_ sh = [] /\ usage_ sh = 0 /\
     (2 ^ 64 - 3 + (kNumShards - 1) < 2 ^ 64 ->
        2 ^ 64 - 3 <= kNumShards * capacity_ sh <= 2 ^ 64 - 3 + (kNumShards - 1)) /\
     (2 ^ 64 <= 2 ^ 64 - 3 + (kNumShards - 1) -> capacity_ sh = 0)) shards).
Proof.
  assert (H : 0 <= 2 ^ 64 - 3 < 2 ^ 64) by lia.
  split; [exact H|]. exact (NewShardedLRUCache_spec (2 ^ 64 - 3) H).
Defined.

End LRUProps.
